(** * envsetter: the discovery-and-reconciliation engine

    A shallow embedding of [src/scanner.js], [src/writer.js] and the
    reconciliation part of [src/ui.js] / [src/index.js], followed by the
    properties of the configuration parser, the writer, the reconciliation
    counters and the scanner filters.

    JavaScript strings are sequences of UTF-16 code units; they are modelled
    as lists of numbers.  A [Map] keeps its insertion order and is modelled as
    an association list; a [Set] as a duplicate-free list.  The file system is
    a function from (resolved) paths to file contents. *)

From Stdlib Require Import List NArith ZArith Arith Bool Lia.
From Stdlib Require String Ascii.
Import ListNotations.
Import String.StringSyntax.
Delimit Scope string_scope with string.

Local Open Scope bool_scope.
Local Open Scope N_scope.

(* ================================================================== *)
(** ** JavaScript strings *)

Module JS.

Definition cu := N.
Definition jsstring := list cu.

(** A literal of the source, written as a Rocq string of ASCII characters. *)
Definition str (s : String.string) : jsstring :=
  List.map Ascii.N_of_ascii (String.list_ascii_of_string s).

Arguments str _%_string.

Definition TAB : cu := 9.
Definition NL : cu := 10.
Definition CR : cu := 13.
Definition SPACE : cu := 32.
Definition BANG : cu := 33.
Definition DQUOTE : cu := 34.
Definition HASH : cu := 35.
Definition DOLLAR : cu := 36.
Definition SQUOTE : cu := 39.
Definition EQUALS : cu := 61.
Definition BACKSLASH : cu := 92.
Definition UNDERSCORE : cu := 95.
Definition BACKTICK : cu := 96.
Definition LOWER_N : cu := 110.

Fixpoint streq (a b : jsstring) : bool :=
  match a, b with
  | [], [] => true
  | x :: a', y :: b' => (x =? y) && streq a' b'
  | _, _ => false
  end.

(** [!s] for a string [s]: the empty string is the only falsy string. *)
Definition isEmpty (s : jsstring) : bool :=
  match s with [] => true | _ => false end.

(** WhiteSpace and LineTerminator code units of ECMAScript: what [trim]
    strips and what the regular-expression class [\s] matches. *)
Definition isWhiteSpace (c : cu) : bool :=
  ((9 <=? c) && (c <=? 13)) || (c =? 32) || (c =? 160) || (c =? 5760)
  || ((8192 <=? c) && (c <=? 8202)) || (c =? 8232) || (c =? 8233)
  || (c =? 8239) || (c =? 8287) || (c =? 12288) || (c =? 65279).

Fixpoint trimStart (s : jsstring) : jsstring :=
  match s with
  | [] => []
  | c :: r => if isWhiteSpace c then trimStart r else s
  end.

Definition trimEnd (s : jsstring) : jsstring := rev (trimStart (rev s)).

Definition trim (s : jsstring) : jsstring := trimEnd (trimStart s).

Definition startsWith (c : cu) (s : jsstring) : bool :=
  match s with [] => false | x :: _ => x =? c end.

Definition endsWith (c : cu) (s : jsstring) : bool :=
  startsWith c (rev s).

Definition includes (c : cu) (s : jsstring) : bool :=
  existsb (fun x => x =? c) s.

(** [s.indexOf(c)]; [None] stands for the source's [-1]. *)
Fixpoint indexOf (c : cu) (s : jsstring) : option nat :=
  match s with
  | [] => None
  | x :: r => if x =? c then Some O
              else match indexOf c r with
                   | Some i => Some (S i)
                   | None => None
                   end
  end.

(** [s.substring(0, n)] and [s.substring(n)]. *)
Definition substringTo (n : nat) (s : jsstring) : jsstring := firstn n s.
Definition substringFrom (n : nat) (s : jsstring) : jsstring := skipn n s.

(** [s.slice(1, -1)]. *)
Definition slice_1_m1 (s : jsstring) : jsstring :=
  firstn (length s - 2) (skipn 1 s).

(** [s.split] on the newline character: never the empty array. *)
Fixpoint split_nl (s : jsstring) : list jsstring :=
  match s with
  | [] => [[]]
  | c :: r =>
      if c =? NL then [] :: split_nl r
      else match split_nl r with
           | [] => [[c]]
           | l :: ls => (c :: l) :: ls
           end
  end.

(** [lines.join] with the newline character. *)
Fixpoint join_nl (ls : list jsstring) : jsstring :=
  match ls with
  | [] => []
  | l :: rest =>
      match rest with
      | [] => l
      | _ :: _ => l ++ NL :: join_nl rest
      end
  end.

(** [s.replace] of the pattern [/\n+$/] by the empty string: the trailing
    run of newlines is removed. *)
Fixpoint stripTrailingNewlines (s : jsstring) : jsstring :=
  match s with
  | [] => []
  | c :: r =>
      match stripTrailingNewlines r with
      | [] => if c =? NL then [] else [c]
      | r' => c :: r'
      end
  end.

(** [s.replace(/c/g, by)] for a one-character pattern. *)
Definition replaceAll (c : cu) (by_ : jsstring) (s : jsstring) : jsstring :=
  flat_map (fun x => if x =? c then by_ else [x]) s.

(** *** Map with string keys, in insertion order *)

Definition Map (V : Type) := list (jsstring * V).

Fixpoint Map_has {V} (m : Map V) (k : jsstring) : bool :=
  match m with
  | [] => false
  | (k', _) :: r => streq k' k || Map_has r k
  end.

(** [m.get(k)]; [None] stands for [undefined]. *)
Fixpoint Map_get {V} (m : Map V) (k : jsstring) : option V :=
  match m with
  | [] => None
  | (k', v) :: r => if streq k' k then Some v else Map_get r k
  end.

(** [m.set(k, v)]: an existing key keeps its position. *)
Fixpoint Map_set {V} (m : Map V) (k : jsstring) (v : V) : Map V :=
  match m with
  | [] => [(k, v)]
  | (k', v') :: r =>
      if streq k' k then (k', v) :: r else (k', v') :: Map_set r k v
  end.

Definition Map_keys {V} (m : Map V) : list jsstring := List.map fst m.
Definition Map_size {V} (m : Map V) : nat := length m.

(** The keys of a Map are pairwise different. *)
Definition Map_wf {V} (m : Map V) : Prop := NoDup (Map_keys m).

(** *** Set of strings, in insertion order *)

Definition JSSet := list jsstring.

Definition Set_has (s : JSSet) (k : jsstring) : bool :=
  existsb (streq k) s.

Definition Set_add (s : JSSet) (k : jsstring) : JSSet :=
  if Set_has s k then s else s ++ [k].

Definition Set_size (s : JSSet) : nat := length s.

(** *** File system *)

Definition FS := jsstring -> option jsstring.

Definition existsSync (fs : FS) (p : jsstring) : bool :=
  match fs p with Some _ => true | None => false end.

(** [fs.writeFileSync(p, content, "utf-8")]: the store keeps the text
    handed over.  On disk the text is encoded, and a read decodes it: the
    module [Utf8] below gives the text as it is read back. *)
Definition writeFileSync (fs : FS) (p : jsstring) (content : jsstring) : FS :=
  fun q => if streq q p then Some content else fs q.

End JS.

Import JS.

(* ================================================================== *)
(** ** writer.js *)

Module Writer.

(** The character class of the regular expression in [needsQuotes]:
    whitespace, hash, equals, backslash, dollar, the three quote characters
    and the exclamation mark. *)
Definition quoteClass (c : cu) : bool :=
  isWhiteSpace c || (c =? HASH) || (c =? EQUALS) || (c =? BACKSLASH)
  || (c =? DOLLAR) || (c =? DQUOTE) || (c =? SQUOTE) || (c =? BACKTICK)
  || (c =? BANG).

(** A value handed to [formatValue] is a string, or [undefined] ([None]),
    which is what [newVars.get] gives for an absent key. *)
Definition falsy (value : option jsstring) : bool :=
  match value with
  | None => true
  | Some s => isEmpty s
  end.

Definition isEmptyString (value : option jsstring) : bool :=
  match value with
  | Some [] => true
  | _ => false
  end.

Definition needsQuotes (value : option jsstring) : bool :=
  match value with
  | None => false
  | Some s =>
      if isEmpty s then false
      else existsb quoteClass s || includes NL s
  end.

Definition escapeValue (s : jsstring) : jsstring :=
  replaceAll NL [BACKSLASH; LOWER_N]
    (replaceAll DQUOTE [BACKSLASH; DQUOTE]
       (replaceAll BACKSLASH [BACKSLASH; BACKSLASH] s)).

Definition formatValue (value : option jsstring) : jsstring :=
  if falsy value && negb (isEmptyString value) then [DQUOTE; DQUOTE]
  else if needsQuotes value then
    match value with
    | Some s => DQUOTE :: escapeValue s ++ [DQUOTE]
    | None => []
    end
  else
    match value with
    | Some s => s
    | None => []
    end.

(** The text [`${key}=${formatValue(value)}`]. *)
Definition keyLine (key : jsstring) (value : option jsstring) : jsstring :=
  key ++ EQUALS :: formatValue value.

(** The update loop over [lines]: iteration [i] reads and writes only
    [lines[i]], so the loop is a traversal that threads [updatedKeys]. *)
Fixpoint updateLines (newVars : Map jsstring) (lines : list jsstring)
    (updatedKeys : JSSet) : list jsstring * JSSet :=
  match lines with
  | [] => ([], updatedKeys)
  | l :: rest =>
      let line := trim l in
      if isEmpty line || startsWith HASH line then
        let '(rest', u) := updateLines newVars rest updatedKeys in
        (l :: rest', u)
      else
        match indexOf EQUALS line with
        | None =>
            let '(rest', u) := updateLines newVars rest updatedKeys in
            (l :: rest', u)
        | Some eqIndex =>
            let key := trim (substringTo eqIndex line) in
            if Map_has newVars key then
              let '(rest', u) :=
                updateLines newVars rest (Set_add updatedKeys key) in
              (keyLine key (Map_get newVars key) :: rest', u)
            else
              let '(rest', u) := updateLines newVars rest updatedKeys in
              (l :: rest', u)
        end
  end.

(** [appendKeys]: the entries of [newVars] whose key was not updated. *)
Definition collectAppend (newVars : Map jsstring) (updatedKeys : JSSet)
    : list (jsstring * jsstring) :=
  filter (fun kv => negb (Set_has updatedKeys (fst kv))) newVars.

(** The blank line pushed before the appended block. *)
Definition blankBefore (lines : list jsstring) : list jsstring :=
  match rev lines with
  | [] => []
  | lastLine :: _ => if negb (isEmpty lastLine) then [[]] else []
  end.

Definition appendLines (lines : list jsstring)
    (appendKeys : list (jsstring * jsstring)) : list jsstring :=
  match appendKeys with
  | [] => lines
  | _ :: _ =>
      (lines ++ blankBefore lines)
      ++ List.map (fun kv => keyLine (fst kv) (Some (snd kv))) appendKeys
  end.

Record WriteState := {
  ws_lines : list jsstring;          (* [lines] just before the join *)
  ws_updatedKeys : JSSet;
  ws_appendKeys : list (jsstring * jsstring)
}.

(** The body of [writeEnvFile] up to the join, on the file's content
    ([None] when the file does not exist). *)
Definition writeState (file : option jsstring) (newVars : Map jsstring)
    : WriteState :=
  let '(lines, updatedKeys) :=
    match file with
    | Some content => updateLines newVars (split_nl content) []
    | None => ([], [])
    end in
  let appendKeys := collectAppend newVars updatedKeys in
  {| ws_lines := appendLines lines appendKeys;
     ws_updatedKeys := updatedKeys;
     ws_appendKeys := appendKeys |}.

Definition finalContent (lines : list jsstring) : jsstring :=
  stripTrailingNewlines (join_nl lines) ++ [NL].

(** [writeEnvFile(envFilePath, newVars, existingEnv)]: the new file system
    and the returned count.  [existingEnv] is not used by the source. *)
Definition writeEnvFile (fs : FS) (envFilePath : jsstring)
    (newVars : Map jsstring) (existingEnv : Map jsstring) : FS * nat :=
  let st := writeState (fs envFilePath) newVars in
  (writeFileSync fs envFilePath (finalContent (ws_lines st)),
   (Set_size (ws_updatedKeys st) + length (ws_appendKeys st))%nat).

End Writer.

(* ================================================================== *)
(** ** scanner.js: the configuration parser *)

Module Scanner.

(** One iteration of the loop of [parseExistingEnv]: the entry a line
    contributes, if any. *)
Definition parseLine (line : jsstring) : option (jsstring * jsstring) :=
  let trimmed := trim line in
  if isEmpty trimmed || startsWith HASH trimmed then None
  else
    match indexOf EQUALS trimmed with
    | None => None
    | Some eqIndex =>
        let key := trim (substringTo eqIndex trimmed) in
        let value := trim (substringFrom (eqIndex + 1) trimmed) in
        let value :=
          if (startsWith DQUOTE value && endsWith DQUOTE value)
             || (startsWith SQUOTE value && endsWith SQUOTE value)
          then slice_1_m1 value
          else value in
        Some (key, value)
    end.

Definition parseContent (content : jsstring) : Map jsstring :=
  fold_left
    (fun existing line =>
       match parseLine line with
       | Some (key, value) => Map_set existing key value
       | None => existing
       end)
    (split_nl content) [].

Definition parseExistingEnv (fs : FS) (envPath : jsstring) : Map jsstring :=
  if negb (existsSync fs envPath) then []
  else
    match fs envPath with
    | Some content => parseContent content
    | None => []
    end.

(** *** A backtracking matcher for the regular expressions of the source

    The expressions of [ENV_PATTERNS] are sequences of literals, character
    classes, greedy [*] and [+] over a class, and word boundaries, with one
    capture group.  The matcher works on a zipper: [left] holds the code
    units before the current position, nearest first, and [right] the rest
    of the input. *)

Inductive charClass :=
| Upper                  (* [A-Z] *)
| UpperDigitUnderscore   (* [A-Z0-9_] *)
| Quote                  (* a single or a double quote *)
| Space.                 (* \s *)

Definition isUpper (c : cu) : bool := (65 <=? c) && (c <=? 90).
Definition isLower (c : cu) : bool := (97 <=? c) && (c <=? 122).
Definition isDigit (c : cu) : bool := (48 <=? c) && (c <=? 57).
Definition isUpperDigitUnderscore (c : cu) : bool :=
  isUpper c || isDigit c || (c =? UNDERSCORE).
(** The word characters of [\b]. *)
Definition isWordChar (c : cu) : bool :=
  isUpper c || isLower c || isDigit c || (c =? UNDERSCORE).

Definition inClass (k : charClass) (c : cu) : bool :=
  match k with
  | Upper => isUpper c
  | UpperDigitUnderscore => isUpperDigitUnderscore c
  | Quote => (c =? SQUOTE) || (c =? DQUOTE)
  | Space => isWhiteSpace c
  end.

Inductive atom :=
| Lit (s : jsstring)
| One (k : charClass)
| Star (k : charClass)
| Plus (k : charClass)
| WordBoundary.

Record pattern := {
  pre : list atom;      (* before the capture group *)
  group : list atom;    (* inside the capture group *)
  post : list atom      (* after the capture group *)
}.

Definition headIsWord (s : jsstring) : bool :=
  match s with [] => false | c :: _ => isWordChar c end.

Definition atWordBoundary (left right : jsstring) : bool :=
  xorb (headIsWord left) (headIsWord right).

Fixpoint matchLit (lit left right : jsstring) : option (jsstring * jsstring) :=
  match lit with
  | [] => Some (left, right)
  | c :: lit' =>
      match right with
      | [] => None
      | x :: right' =>
          if x =? c then matchLit lit' (x :: left) right' else None
      end
  end.

(** Greedy repetition of a class: the longest run first, then shorter. *)
Fixpoint matchStar {R} (k : charClass) (left right : jsstring)
    (cont : jsstring -> jsstring -> option R) : option R :=
  match right with
  | [] => cont left right
  | x :: right' =>
      if inClass k x then
        match matchStar k (x :: left) right' cont with
        | Some r => Some r
        | None => cont left right
        end
      else cont left right
  end.

Fixpoint matchAtoms {R} (atoms : list atom) (left right : jsstring)
    (cont : jsstring -> jsstring -> option R) : option R :=
  match atoms with
  | [] => cont left right
  | a :: rest =>
      match a with
      | Lit s =>
          match matchLit s left right with
          | Some (left', right') => matchAtoms rest left' right' cont
          | None => None
          end
      | One k =>
          match right with
          | [] => None
          | x :: right' =>
              if inClass k x then matchAtoms rest (x :: left) right' cont
              else None
          end
      | Star k =>
          matchStar k left right (fun l r => matchAtoms rest l r cont)
      | Plus k =>
          match right with
          | [] => None
          | x :: right' =>
              if inClass k x then
                matchStar k (x :: left) right'
                  (fun l r => matchAtoms rest l r cont)
              else None
          end
      | WordBoundary =>
          if atWordBoundary left right then matchAtoms rest left right cont
          else None
      end
  end.

Record regexMatch := {
  capture : jsstring;     (* [match[1]] *)
  endLeft : jsstring;     (* the zipper at the end of the match *)
  endRight : jsstring
}.

(** A match of the pattern starting at the current position. *)
Definition matchAt (p : pattern) (left right : jsstring) : option regexMatch :=
  matchAtoms (pre p) left right (fun l1 r1 =>
    matchAtoms (group p) l1 r1 (fun l2 r2 =>
      matchAtoms (post p) l2 r2 (fun l3 r3 =>
        Some {| capture := rev (firstn (length l2 - length l1) l2);
                endLeft := l3;
                endRight := r3 |}))).

(** The loop [while ((match = regex.exec(content)) !== null)] of a global
    expression, giving the captures in order.  After a match the search
    resumes at its end: [skip] counts the code units of the last match still
    to be stepped over.  (A match that consumes nothing would make the
    source loop forever; no expression of [ENV_PATTERNS] has one.) *)
Fixpoint execAll (p : pattern) (left right : jsstring) (skip : nat)
    : list jsstring :=
  match right with
  | [] =>
      match skip with
      | O => match matchAt p left [] with
             | Some m => [capture m]
             | None => []
             end
      | S _ => []
      end
  | c :: right' =>
      match skip with
      | S n => execAll p (c :: left) right' n
      | O =>
          match matchAt p left right with
          | Some m =>
              capture m
              :: execAll p (c :: left) right'
                   (length right - length (endRight m) - 1)
          | None => execAll p (c :: left) right' O
          end
      end
  end.

(** The group [[A-Z][A-Z0-9_]+]. *)
Definition VAR : list atom := [One Upper; Plus UpperDigitUnderscore].

Definition accessor (before : list atom) (after : list atom) : pattern :=
  {| pre := before; group := VAR; post := after |}.

Definition prefixed (prefix : String.string) : pattern :=
  {| pre := [WordBoundary];
     group := [Lit (str prefix); Plus UpperDigitUnderscore];
     post := [WordBoundary] |}.
Arguments prefixed _%_string.

Definition ENV_PATTERNS : list pattern := [
  accessor [Lit (str "process.env.")] [];
  accessor [Lit (str "process.env["); One Quote] [One Quote; Lit (str "]")];
  accessor [Lit (str "import.meta.env.")] [];
  prefixed "NEXT_PUBLIC_";
  prefixed "REACT_APP_";
  prefixed "VITE_";
  prefixed "NUXT_";
  prefixed "EXPO_PUBLIC_";
  accessor [Lit (str "os.environ.get("); Star Space; One Quote] [One Quote];
  accessor [Lit (str "os.environ["); One Quote] [One Quote; Lit (str "]")];
  accessor [Lit (str "os.getenv("); Star Space; One Quote] [One Quote];
  accessor [Lit (str "ENV["); One Quote] [One Quote; Lit (str "]")];
  accessor [Lit (str "ENV.fetch("); Star Space; One Quote] [One Quote];
  accessor [Lit (str "env("); Star Space; One Quote] [One Quote];
  accessor [Lit (str "System.getenv("); Star Space; One Quote] [One Quote];
  accessor [Lit (str "os.Getenv("); Star Space; One Quote] [One Quote];
  accessor [Lit (str "std::env::var("); Star Space; One Quote] [One Quote];
  accessor [Lit (str "${")] [Lit (str "}")];
  accessor [Lit (str "$")] [WordBoundary]
].

Definition BLACKLIST : JSSet := List.map str [
  "NODE_ENV"; "HOME"; "PATH"; "USER"; "SHELL"; "PWD"; "LANG"; "TERM";
  "HOSTNAME"; "OLDPWD"; "EDITOR"; "TMPDIR"; "TMP"; "TEMP"; "CI"; "NODE";
  "NPM"; "NVM"; "SHLVL"; "LOGNAME"; "LC_ALL"; "LC_CTYPE"; "DISPLAY";
  "COLORTERM"; "COLUMNS"; "LINES"; "SSH_AUTH_SOCK"; "SSH_CLIENT";
  "SSH_CONNECTION"; "SSH_TTY"; "XDG_SESSION_ID"; "XDG_RUNTIME_DIR";
  "XDG_DATA_DIRS"; "XDG_CONFIG_DIRS"; "DBUS_SESSION_BUS_ADDRESS"; "MAIL";
  "MANPATH"; "PAGER"; "LESS"; "_"
]%string.

Definition ENV_SOURCE_FILES : list jsstring := List.map str [
  ".env"; ".env.local"; ".env.development"; ".env.production";
  ".env.example"; ".env.sample"; ".env.template"; ".env.local.example"
]%string.

Definition SELF_IGNORE_FILES : JSSet := List.map str [
  "bin/envsetter.js"; "src/index.js"; "src/scanner.js"; "src/ui.js";
  "src/writer.js"; "plan.md"
]%string.

(** The test of a key against the anchored expression
    [/^[A-Z][A-Z0-9_]+$/]. *)
Definition testVarName (key : jsstring) : bool :=
  match matchAtoms VAR [] key
          (fun _ r => if isEmpty r then Some tt else None) with
  | Some _ => true
  | None => false
  end.

(** One iteration of the loop of [extractEnvKeysFromContent]. *)
Definition extractLine (keys : JSSet) (line : jsstring) : JSSet :=
  let trimmed := trim line in
  if isEmpty trimmed || startsWith HASH trimmed then keys
  else
    match indexOf EQUALS trimmed with
    | None => keys
    | Some eqIndex =>
        let key := trim (substringTo eqIndex trimmed) in
        if isEmpty key then keys
        else if negb (testVarName key) then keys
        else if Set_has BLACKLIST key then keys
        else Set_add keys key
    end.

Definition extractEnvKeysFromContent (content : jsstring) : JSSet :=
  fold_left extractLine (split_nl content) [].

(** [foundVars]: variable name to the set of files it was found in. *)
Definition ScanResult := Map JSSet.

(** The steps [if (!foundVars.has(k)) foundVars.set(k, new Set())] and
    [foundVars.get(k).add(file)]. *)
Definition record (foundVars : ScanResult) (k file : jsstring) : ScanResult :=
  let foundVars :=
    if negb (Map_has foundVars k) then Map_set foundVars k [] else foundVars in
  match Map_get foundVars k with
  | Some files => Map_set foundVars k (Set_add files file)
  | None => foundVars
  end.

(** [path.join(cwd, file)] for a normalised directory and a file name. *)
Definition pathJoin (cwd file : jsstring) : jsstring :=
  cwd ++ str "/" ++ file.

(** Shallow mode.  A file that cannot be read is absent from [fs]. *)
Definition scanEnvFilesOnly (fs : FS) (cwd : jsstring) : ScanResult :=
  fold_left
    (fun foundVars file =>
       match fs (pathJoin cwd file) with
       | None => foundVars
       | Some content =>
           fold_left (fun fv key => record fv key file)
             (extractEnvKeysFromContent content) foundVars
       end)
    ENV_SOURCE_FILES [].

(** A file enumerated by the glob and the extra names, with the two names
    the source derives from its path; [content] is [None] when reading
    throws. *)
Record SourceFile := {
  relPath : jsstring;
  basename : jsstring;
  content : option jsstring
}.

(** The filters on one match, then the recording. *)
Definition scanMatch (file : jsstring) (foundVars : ScanResult)
    (varName : jsstring) : ScanResult :=
  if isEmpty varName then foundVars
  else if Set_has BLACKLIST varName then foundVars
  else if (length varName <? 3)%nat then foundVars
  else record foundVars varName file.

Definition scanFile (skipSelfFiles : bool) (foundVars : ScanResult)
    (f : SourceFile) : ScanResult :=
  if skipSelfFiles && Set_has SELF_IGNORE_FILES (relPath f) then foundVars
  else if streq (basename f) (str ".env")
          || streq (basename f) (str ".env.local") then foundVars
  else
    match content f with
    | None => foundVars
    | Some text =>
        fold_left
          (fun fv regex =>
             fold_left (scanMatch (relPath f)) (execAll regex [] text O) fv)
          ENV_PATTERNS foundVars
    end.

(** Deep mode, on the enumerated files. *)
Definition scanCodebase (skipSelfFiles : bool) (files : list SourceFile)
    : ScanResult :=
  fold_left (scanFile skipSelfFiles) files [].

End Scanner.

(* ================================================================== *)
(** ** ui.js / index.js: reconciliation *)

Module Ui.

Import Scanner.

(** [typeof value === "string"] holds of every value a Map of strings
    holds; [undefined] is [None]. *)
Definition hasUsableValue (existingEnv : Map jsstring) (key : jsstring)
    : bool :=
  if negb (Map_has existingEnv key) then false
  else
    match Map_get existingEnv key with
    | Some value => (0 <? length (trim value))%nat
    | None => false
    end.

Record Reconciliation := {
  total : nat;
  alreadySet : nat;
  missing : Z
}.

(** The counters [showScanResult] computes and returns. *)
Definition showScanResult (foundVars : ScanResult)
    (existingEnv : Map jsstring) : Reconciliation :=
  let total := Map_size foundVars in
  let alreadySet :=
    length (filter (hasUsableValue existingEnv) (Map_keys foundVars)) in
  {| total := total;
     alreadySet := alreadySet;
     missing := (Z.of_nat total - Z.of_nat alreadySet)%Z |}.

(** [varsToFill] of [processFolder] in the mode that fills missing keys. *)
Definition varsToFillMissing (foundVars : ScanResult)
    (existingEnv : Map jsstring) : list jsstring :=
  filter (fun k => negb (hasUsableValue existingEnv k)) (Map_keys foundVars).

End Ui.

Import Writer Scanner Ui.

(* ================================================================== *)
(** ** writer.js: the example file and the gitignore check *)

Module Example.

(** The lines a new example file starts with. *)
Definition EXAMPLE_HEADER : list jsstring :=
  [str "# Environment Variables";
   str "# Copy this file to .env and fill in the values";
   []].

(** One iteration of the loop of [syncToEnvExample] that collects the keys
    the example file has. *)
Definition existingKeyStep (existingKeys : JSSet) (line : jsstring) : JSSet :=
  let trimmed := trim line in
  if isEmpty trimmed || startsWith HASH trimmed then existingKeys
  else
    match indexOf EQUALS trimmed with
    | None => existingKeys
    | Some eqIndex =>
        let key := trim (substringTo eqIndex trimmed) in
        if negb (isEmpty key) then Set_add existingKeys key
        else existingKeys
    end.

(** The blank line pushed before the new keys: here the last line is
    trimmed before it is compared with the empty string. *)
Definition blankBeforeKeys (lines : list jsstring) : list jsstring :=
  match rev lines with
  | [] => []
  | lastLine :: _ => if negb (isEmpty (trim lastLine)) then [[]] else []
  end.

(** [syncToEnvExample(keys)], on the file system and the resolved path of
    the example file: the new file system and the number of keys added. *)
Definition syncToEnvExample (fs : FS) (examplePath : jsstring)
    (keys : list jsstring) : FS * nat :=
  let '(existingKeys, lines) :=
    match fs examplePath with
    | Some content =>
        (fold_left existingKeyStep (split_nl content) [], split_nl content)
    | None => ([], EXAMPLE_HEADER)
    end in
  let keysToAdd := filter (fun k => negb (Set_has existingKeys k)) keys in
  match keysToAdd with
  | [] => (fs, O)
  | _ :: _ =>
      let lines := lines ++ blankBeforeKeys lines in
      let lines := lines ++ List.map (fun key => key ++ [EQUALS]) keysToAdd in
      (writeFileSync fs examplePath (finalContent lines), length keysToAdd)
  end.

(** The test of one trimmed line of the gitignore file. *)
Definition ignoresEnvFile (envBasename envFilePath line : jsstring) : bool :=
  if startsWith HASH line then false
  else streq line envBasename || streq line envFilePath
       || streq line (str ".env*") || streq line (str ".env").

(** [ensureGitignore(envFilePath)], on the file system, the resolved path of
    the gitignore file and [path.basename(envFilePath)]; [None] is the
    [undefined] of the early return. *)
Definition ensureGitignore (fs : FS) (gitignorePath envBasename
    envFilePath : jsstring) : option bool :=
  match fs gitignorePath with
  | None => None
  | Some content =>
      let lines := List.map trim (split_nl content) in
      let isIgnored :=
        existsb (ignoresEnvFile envBasename envFilePath) lines in
      if negb isIgnored then Some false else Some true
  end.

End Example.

(* ================================================================== *)
(** ** ui.js: bulk input and masking *)

Module Bulk.

Definition SLASH : cu := 47.
Definition BULLET : cu := 8226.

(** [s.startsWith(p)] for a string [p]. *)
Fixpoint hasPrefix (p s : jsstring) : bool :=
  match p with
  | [] => true
  | c :: p' =>
      match s with
      | [] => false
      | x :: s' => (x =? c) && hasPrefix p' s'
      end
  end.

(** [s.indexOf(p)] for a string [p]; [None] stands for [-1]. *)
Fixpoint indexOfStr (p s : jsstring) : option nat :=
  if hasPrefix p s then Some O
  else
    match s with
    | [] => None
    | _ :: s' =>
        match indexOfStr p s' with
        | Some i => Some (S i)
        | None => None
        end
    end.

(** [s.split(/\r?\n/)]: a newline ends a line, and so does a carriage
    return with the newline after it. *)
Fixpoint split_lines (s : jsstring) : list jsstring :=
  match s with
  | [] => [[]]
  | c :: r =>
      if c =? NL then [] :: split_lines r
      else
        match r with
        | n :: r' =>
            if (c =? CR) && (n =? NL) then [] :: split_lines r'
            else
              match split_lines r with
              | [] => [[c]]
              | l :: ls => (c :: l) :: ls
              end
        | [] => [[c]]
        end
  end.

Definition isLetter (c : cu) : bool := isUpper c || isLower c.

(** The test of a key against [/^[A-Za-z_][A-Za-z0-9_]*$/]: a letter or an
    underscore, then letters, digits and underscores up to the end. *)
Definition isIdentifier (key : jsstring) : bool :=
  match key with
  | [] => false
  | c :: r =>
      (isLetter c || (c =? UNDERSCORE))
      && forallb (fun x => isLetter x || isDigit x || (x =? UNDERSCORE)) r
  end.

(** One iteration of the loop of [parseBulkInput]. *)
Definition bulkLine (result : Map jsstring) (line : jsstring)
    : Map jsstring :=
  let trimmed := trim line in
  if isEmpty trimmed || startsWith HASH trimmed
     || hasPrefix [SLASH; SLASH] trimmed then result
  else
    match indexOf EQUALS trimmed with
    | None => result
    | Some eqIndex =>
        let key := trim (substringTo eqIndex trimmed) in
        let value := trim (substringFrom (eqIndex + 1) trimmed) in
        if isEmpty key || negb (isIdentifier key) then result
        else
          let value :=
            if (startsWith DQUOTE value && endsWith DQUOTE value)
               || (startsWith SQUOTE value && endsWith SQUOTE value)
            then slice_1_m1 value
            else value in
          let value :=
            match indexOfStr [SPACE; HASH] value with
            | Some commentIdx => trim (substringTo commentIdx value)
            | None => value
            end in
          Map_set result key value
    end.

Definition parseBulkInput (raw : jsstring) : Map jsstring :=
  fold_left bulkLine (split_lines raw) [].

(** [maskValue(value)]: the text handed to the styling function [dim]. *)
Definition maskValue (value : jsstring) : jsstring :=
  if isEmpty value then str "(empty)"
  else if (length value <=? 6)%nat then repeat BULLET 6
  else substringTo 3 value ++ repeat BULLET 4
       ++ substringFrom (length value - 2) value.

End Bulk.

(* ================================================================== *)
(** ** index.js: saving a confirmed value *)

Module Session.

(** What the callback of [processFolder] reads and writes: the file
    system, the in-memory configuration and the count of saved values. *)
Record State := {
  st_disk : FS;                    (* the files *)
  st_existingEnv : Map jsstring;   (* [existingEnv] *)
  st_savedCount : nat              (* [savedCount] *)
}.

(** The callback handed to [promptForValues]: write the one entry, add the
    returned count, record the value in memory. *)
Definition onSetValue (fullEnvPath : jsstring) (st : State)
    (key value : jsstring) : State :=
  let '(fs', written) :=
    writeEnvFile (st_disk st) fullEnvPath [(key, value)]
      (st_existingEnv st) in
  {| st_disk := fs';
     st_existingEnv := Map_set (st_existingEnv st) key value;
     st_savedCount := (st_savedCount st + written)%nat |}.

End Session.

(* ================================================================== *)
(** ** scanner.js: folder discovery *)

Module Discover.

(** A directory tree: what [existsSync] and [readdirSync] see.  A
    directory that cannot be listed has [readable = false]. *)
#[warnings="-register-all"]
Inductive Node :=
| FileNode
| DirNode (readable : bool) (entries : list (jsstring * Node)).

Definition DOT : cu := 46.

Definition ENV_NAMES : list jsstring := List.map str [
  ".env"; ".env.local"; ".env.development"; ".env.production";
  ".env.example"; ".env.sample"; ".env.template"
]%string.

Definition SKIP_DIRS : JSSet := List.map str [
  "node_modules"; ".git"; "dist"; "build"; ".next"; ".nuxt";
  ".output"; "coverage"; "__pycache__"; "vendor"; ".venv";
  "venv"; "target"; ".cache"; ".turbo"
]%string.

(** An entry of the result; the directory is kept as the names from the
    root down to it, from which both paths of the source are built. *)
Record ProjectFolder := {
  segments : list jsstring;
  envFiles : list jsstring
}.

(** [path.relative(cwd, dir)] with the fallback to a dot for the root. *)
Definition relPathOf (segs : list jsstring) : jsstring :=
  match segs with
  | [] => [DOT]
  | first :: rest =>
      fold_left (fun acc seg => acc ++ Bulk.SLASH :: seg) rest first
  end.

Definition hasEntry (entries : list (jsstring * Node)) (name : jsstring)
    : bool :=
  existsb (fun e => streq (fst e) name) entries.

(** [walk(dir, depth)]: the entries pushed to [results], in order. *)
Fixpoint walk (dir : Node) (segs : list jsstring) (depth : nat)
    : list ProjectFolder :=
  match dir with
  | FileNode => []
  | DirNode readable entries =>
      if (8 <? depth)%nat then []
      else
        let foundEnvFiles := filter (hasEntry entries) ENV_NAMES in
        let here :=
          match foundEnvFiles with
          | [] => []
          | _ :: _ => [{| segments := segs; envFiles := foundEnvFiles |}]
          end in
        let below :=
          if readable then
            flat_map
              (fun e =>
                 match e with
                 | (name, FileNode) => []
                 | (name, (DirNode _ _) as sub) =>
                     if Set_has SKIP_DIRS name then []
                     else if startsWith DOT name && negb (streq name [DOT])
                     then []
                     else walk sub (segs ++ [name]) (depth + 1)
                 end)
              entries
          else [] in
        here ++ below
  end.

Definition discoverEnvFolders (cwd : Node) : list ProjectFolder :=
  walk cwd [] O.

End Discover.

(* ================================================================== *)
(** ** Text files are UTF-8 *)

Module Utf8.

(** U+FFFD, the replacement character. *)
Definition REPLACEMENT : cu := 65533.

Definition isHighSurrogate (c : cu) : bool := (55296 <=? c) && (c <=? 56319).
Definition isLowSurrogate (c : cu) : bool := (56320 <=? c) && (c <=? 57343).

(** What [readFileSync(p, "utf-8")] gives for a file written by
    [writeFileSync(p, s, "utf-8")]: the encoder writes the replacement
    character for a surrogate that is not half of a pair, and decoding
    gives every other code unit back.  This is [s.toWellFormed()]. *)
Fixpoint toWellFormed (s : jsstring) : jsstring :=
  match s with
  | [] => []
  | c :: r =>
      if isHighSurrogate c then
        match r with
        | d :: r' =>
            if isLowSurrogate d then c :: d :: toWellFormed r'
            else REPLACEMENT :: toWellFormed r
        | [] => [REPLACEMENT]
        end
      else if isLowSurrogate c then REPLACEMENT :: toWellFormed r
      else c :: toWellFormed r
  end.

(** [s.isWellFormed()], read from the left: [afterHigh] says that the
    code unit before was a high surrogate, which a low one has to
    follow. *)
Fixpoint wellFormedFrom (afterHigh : bool) (s : jsstring) : bool :=
  match s with
  | [] => negb afterHigh
  | c :: r =>
      if afterHigh then isLowSurrogate c && wellFormedFrom false r
      else negb (isLowSurrogate c) && wellFormedFrom (isHighSurrogate c) r
  end.

Definition isWellFormed (s : jsstring) : bool := wellFormedFrom false s.

End Utf8.

Import Example Bulk Session Discover Utf8.

(* ================================================================== *)
(** ** Reference notions the properties are stated with *)

(** The key of a line under the line grammar shared by the parser and the
    writer: trim, skip blank and comment lines, cut at the first equals
    sign, trim. *)
Definition lineKey (l : jsstring) : option jsstring :=
  let line := trim l in
  if isEmpty line || startsWith HASH line then None
  else
    match indexOf EQUALS line with
    | None => None
    | Some eqIndex => Some (trim (substringTo eqIndex line))
    end.

Definition isComment (l : jsstring) : bool := startsWith HASH (trim l).

Definition hasKey (k : jsstring) (l : jsstring) : bool :=
  match lineKey l with
  | Some k' => streq k' k
  | None => false
  end.

Definition keyOccurs (k : jsstring) (lines : list jsstring) : bool :=
  existsb (hasKey k) lines.


(** The line the specification asks for in place of [l]. *)
Definition spec_replaceLine (newVars : Map jsstring) (l : jsstring)
    : jsstring :=
  match lineKey l with
  | Some k =>
      match Map_get newVars k with
      | Some v => keyLine k (Some v)
      | None => l
      end
  | None => l
  end.

(** The entries the specification asks to append: those whose key is on no
    line of the file, in the order of [newVars]. *)
Definition spec_absent (newVars : Map jsstring) (lines : list jsstring)
    : list (jsstring * jsstring) :=
  filter (fun kv => negb (keyOccurs (fst kv) lines)) newVars.

(** The characters section 4.4 of the specification lists as forcing
    quotes. *)
Definition spec_quoteTrigger (c : cu) : Prop :=
  isWhiteSpace c = true \/ c = HASH \/ c = EQUALS \/ c = BACKSLASH
  \/ c = DQUOTE \/ c = SQUOTE \/ c = BACKTICK \/ c = BANG \/ c = NL.

(** The characters that force quotes in the source: the same and the
    dollar sign. *)
Definition quoteTrigger (c : cu) : Prop :=
  spec_quoteTrigger c \/ c = DOLLAR.

Definition quoted (v : jsstring) : jsstring :=
  DQUOTE :: escapeValue v ++ [DQUOTE].

(** The shape [^[A-Z][A-Z0-9_]+$] of a variable name. *)
Definition isVariableName (s : jsstring) : bool :=
  match s with
  | c :: ((_ :: _) as r) => isUpper c && forallb isUpperDigitUnderscore r
  | _ => false
  end.

(** The first code unit, if any, is not whitespace. *)
Definition headOk (s : jsstring) : Prop :=
  match s with
  | [] => True
  | c :: _ => isWhiteSpace c = false
  end.

Definition noWsEnds (s : jsstring) : Prop := headOk s /\ headOk (rev s).

(** What the grammar guarantees of a key it reads off a line. *)
Definition cleanKey (k : jsstring) : Prop :=
  noWsEnds k /\ ~ In EQUALS k /\ startsWith HASH k = false.

(** The lines that survive the removal of the trailing newlines. *)
Fixpoint dropTrailingEmpty (ls : list jsstring) : list jsstring :=
  match ls with
  | [] => []
  | l :: rest =>
      match dropTrailingEmpty rest with
      | [] => if isEmpty l then [] else [l]
      | rest' => l :: rest'
      end
  end.

Definition noNewline (l : jsstring) : Prop := ~ In NL l.

(** A key as the grammar reads it off a line of a file. *)
Definition fileKey (k : jsstring) : Prop := cleanKey k /\ noNewline k.

(** The texts a sequence of atoms can consume, word boundaries apart. *)
Fixpoint accepts (atoms : list atom) (w : jsstring) : Prop :=
  match atoms with
  | [] => w = []
  | Lit s :: rest => exists w', w = s ++ w' /\ accepts rest w'
  | One k :: rest =>
      exists c w', w = c :: w' /\ inClass k c = true /\ accepts rest w'
  | Star k :: rest =>
      exists u w',
        w = u ++ w' /\ forallb (inClass k) u = true /\ accepts rest w'
  | Plus k :: rest =>
      exists c u w',
        w = c :: u ++ w' /\ inClass k c = true
        /\ forallb (inClass k) u = true /\ accepts rest w'
  | WordBoundary :: rest => accepts rest w
  end.

(** What deep mode guarantees of a name, and what shallow mode does. *)
Definition deepName (k : jsstring) : Prop :=
  isVariableName k = true /\ (3 <= length k)%nat
  /\ Set_has BLACKLIST k = false.

Definition shallowName (k : jsstring) : Prop :=
  isVariableName k = true /\ (2 <= length k)%nat
  /\ Set_has BLACKLIST k = false.

(* ================================================================== *)
(** ** Sample inputs *)

Module Samples.

Definition helloWorld : jsstring := str "hello world".
(** The value [say "hi"]. *)
Definition sayHi : jsstring :=
  str "say " ++ [DQUOTE] ++ str "hi" ++ [DQUOTE].
(** The text [say \"hi\"]. *)
Definition sayHiEscaped : jsstring :=
  str "say " ++ [BACKSLASH; DQUOTE] ++ str "hi" ++ [BACKSLASH; DQUOTE].
Definition KEY : jsstring := str "KEY".

Definition envPath : jsstring := str "/project/.env".

(** Keys A, B and C with a comment between them. *)
Definition abcContent : jsstring :=
  join_nl [str "A=1"; str "# the middle one"; str "B=2"; str "C=3"; []].

(** The key B on two lines. *)
Definition dupContent : jsstring :=
  join_nl [str "B=1"; str "A=0"; str "B=2"; []].

Definition fsWith (content : jsstring) : FS :=
  fun p => if streq p envPath then Some content else None.

Definition fsEmpty : FS := fun _ => None.

(** A new value for B and a new key D. *)
Definition updateB_addD : Map jsstring :=
  [(str "B", str "x y"); (str "D", str "4")].

(** A value with a dollar sign and none of the other special characters. *)
Definition dollarValue : jsstring := str "a$b".

(** The file of the end-to-end scenario of the specification. *)
Definition appPy : SourceFile :=
  {| relPath := str "app.py";
     basename := str "app.py";
     content :=
       Some (str "key = os.getenv(" ++ [DQUOTE] ++ str "API_KEY"
             ++ [DQUOTE] ++ str ")") |}.

(** The keys B and D, and values confirmed for them at the prompt. *)
Definition keysBD : list jsstring := [str "B"; str "D"].

Definition confirmedBD : list (jsstring * jsstring) :=
  [(str "B", str "x"); (str "D", str "4")].

(** A scan that found A and D. *)
Definition foundAD : ScanResult :=
  [(str "A", [str ".env"]); (str "D", [str ".env.example"])].

Definition examplePath : jsstring := str "/project/.env.example".

(** A pasted line with an inline comment, and a paste of two lines. *)
Definition commentedPaste : jsstring := str "KEY=a #b".
Definition twoLinePaste : jsstring := join_nl [str "A=1"; str "B=x y"].

Definition gitignorePath : jsstring := str "/project/.gitignore".

Definition fsGitignore : FS :=
  fun p => if streq p gitignorePath
           then Some (join_nl [str "node_modules"; str " .env "; []])
           else None.

(** A project with one env file that declares API_KEY. *)
Definition fsApiKey : FS := fsWith (join_nl [str "API_KEY=1"; []]).

Definition appJs : SourceFile :=
  {| relPath := str "src/app.js";
     basename := str "app.js";
     content := Some (str "const k = process.env.API_KEY;") |}.

(** A project with env files at the root, in [api] and in
    [node_modules]. *)
Definition projectTree : Node :=
  DirNode true
    [(str ".env", FileNode);
     (str "api", DirNode true [(str ".env.local", FileNode)]);
     (str "node_modules", DirNode true [(str ".env", FileNode)])].

Definition apiFolder : ProjectFolder :=
  {| segments := [str "api"]; envFiles := [str ".env.local"] |}.



End Samples.

Import Samples.

(* ================================================================== *)
(** ** Further reference notions *)

(** The lines [writeEnvFile] starts from: those of the file, or none. *)
Definition linesOf (file : option jsstring) : list jsstring :=
  match file with
  | Some content => split_nl content
  | None => []
  end.

(** The value of the last line that assigns the key [k]. *)
Fixpoint lastValue (k : jsstring) (lines : list jsstring) : option jsstring :=
  match lines with
  | [] => None
  | l :: rest =>
      match lastValue k rest with
      | Some v => Some v
      | None =>
          match parseLine l with
          | Some (k', v) => if streq k' k then Some v else None
          | None => None
          end
      end
  end.

(** The step of the parser's loop. *)
Definition parseStep (existing : Map jsstring) (line : jsstring)
    : Map jsstring :=
  match parseLine line with
  | Some (key, value) => Map_set existing key value
  | None => existing
  end.

(** The lines [syncToEnvExample] starts from and the keys it finds. *)
Definition exampleLines (file : option jsstring) : list jsstring :=
  match file with
  | Some content => split_nl content
  | None => EXAMPLE_HEADER
  end.

Definition exampleKeys (file : option jsstring) : JSSet :=
  match file with
  | Some content => fold_left existingKeyStep (split_nl content) []
  | None => []
  end.

Definition keysToAdd (file : option jsstring) (keys : list jsstring)
    : list jsstring :=
  filter (fun k => negb (Set_has (exampleKeys file) k)) keys.

(** The same text with Windows line endings: a carriage return before
    every newline. *)
Definition crlf (content : jsstring) : jsstring :=
  replaceAll NL [CR; NL] content.

(** Two lines that differ at most by a carriage return at the end. *)
Definition sameUpToCR (a b : jsstring) : Prop := a = b \/ a = b ++ [CR].

(** A letter, a digit or an underscore. *)
Definition isIdentChar (c : cu) : bool :=
  isLetter c || isDigit c || (c =? UNDERSCORE).

(** A line of pasted text on which the bulk parser has nothing of its own
    to do: no double-slash comment, an identifier as key, no inline
    comment in the value. *)
Definition plainLine (l : jsstring) : Prop :=
  hasPrefix [SLASH; SLASH] (trim l) = false
  /\ forall k v, parseLine l = Some (k, v) ->
                 isIdentifier k = true /\ indexOfStr [SPACE; HASH] v = None.

(** The occurrence set of a name in a scan result, empty when the name is
    not in it. *)
Definition filesOf (foundVars : ScanResult) (k : jsstring) : JSSet :=
  match Map_get foundVars k with
  | Some files => files
  | None => []
  end.

(** A name is in a scan result exactly when its occurrence set is not
    empty: the invariant of [record]. *)
Definition occurrencesOk (foundVars : ScanResult) : Prop :=
  Map_wf foundVars
  /\ forall k, Map_has foundVars k = true <-> filesOf foundVars k <> [].

(** The filters of the deep scan on a captured name. *)
Definition deepAccepts (varName : jsstring) : bool :=
  negb (isEmpty varName) && negb (Set_has BLACKLIST varName)
  && negb (length varName <? 3)%nat.

(** The names the patterns capture in a text. *)
Definition captured (patterns : list pattern) (text k : jsstring) : Prop :=
  exists regex, In regex patterns /\ In k (execAll regex [] text O).

(** The first code unit, if any, can continue a name. *)
Definition headIsName (s : jsstring) : bool :=
  match s with [] => false | c :: _ => isUpperDigitUnderscore c end.

(** No proper suffix of the literal starts the literal again. *)
Definition borderFree (lit : jsstring) : bool :=
  forallb (fun j => negb (hasPrefix (skipn j lit) lit))
          (seq 1 (length lit - 1)).

(** A literal before a name that no match of the name can run into. *)
Definition memberLit (lit : jsstring) : bool :=
  negb (isEmpty lit) && negb (headIsName lit) && borderFree lit.

(** The entries of a directory the walk goes into. *)
Definition descends (e : jsstring * Node) : bool :=
  match snd e with
  | FileNode => false
  | DirNode _ _ =>
      negb (Set_has SKIP_DIRS (fst e))
      && negb (startsWith DOT (fst e) && negb (streq (fst e) [DOT]))
  end.

(** [reach dir path target]: following the names of [path] from [dir]
    through directories that can be listed and entries the walk goes into
    ends at [target]. *)
Fixpoint reach (dir : Node) (path : list jsstring) (target : Node) : Prop :=
  match path with
  | [] => target = dir
  | name :: path' =>
      match dir with
      | DirNode true entries =>
          exists sub, In (name, sub) entries
                      /\ descends (name, sub) = true
                      /\ reach sub path' target
      | _ => False
      end
  end.

(** The text of a file as a read decodes it: it has no lone surrogate.
    Every file on disk is such, whatever its bytes. *)
Definition decodedText (file : option jsstring) : Prop :=
  match file with
  | Some content => isWellFormed content = true
  | None => True
  end.

(** Keys and values without lone surrogates: typed, pasted or scanned
    text. *)
Definition wellFormedEntries (m : Map jsstring) : Prop :=
  Forall (fun kv => isWellFormed (fst kv) = true
                    /\ isWellFormed (snd kv) = true) m.

(** A code unit that is not a surrogate. *)
Definition notSurrogate (c : cu) : Prop :=
  isHighSurrogate c = false /\ isLowSurrogate c = false.

(** The files as a later read gives them: what was written, encoded and
    decoded again. *)
Definition reread (fs : FS) : FS :=
  fun p => option_map toWellFormed (fs p).

(** Every file holds decoded text. *)
Definition decodedFS (fs : FS) : Prop := forall p, decodedText (fs p).

(** The files the deep scan reads. *)
Definition isScanned (skipSelfFiles : bool) (f : SourceFile) : bool :=
  negb (skipSelfFiles && Set_has SELF_IGNORE_FILES (relPath f))
  && negb (streq (basename f) (str ".env")
           || streq (basename f) (str ".env.local"))
  && match content f with Some _ => true | None => false end.

(** The text the parser gives back for a value the writer wrote. *)
Definition readBack (v : jsstring) : jsstring :=
  if needsQuotes (Some v) then escapeValue v else v.

(** A value without backslash, double quote and newline. *)
Definition plainValue (v : jsstring) : Prop :=
  ~ In BACKSLASH v /\ ~ In DQUOTE v /\ ~ In NL v.

(** The callback applied to the confirmed values, in the order in which
    the prompt loop confirms them. *)
Definition saveAll (path : jsstring) (st : State)
    (confirmed : list (jsstring * jsstring)) : State :=
  fold_left (fun st kv => onSetValue path st (fst kv) (snd kv)) confirmed st.

(** The state [processFolder] starts the prompt loop with. *)
Definition startState (fs : FS) (path : jsstring) : State :=
  {| st_disk := fs;
     st_existingEnv := parseExistingEnv fs path;
     st_savedCount := O |}.

(** The memory of a session and the file agree on the key [k]. *)
Definition agreeOn (st : State) (path k : jsstring) : Prop :=
  Map_get (st_existingEnv st) k
  = Map_get (parseExistingEnv (st_disk st) path) k.

(* ================================================================== *)
(** ** Strings: basic facts *)

(** Read a member's property off a [Forall]. *)
Ltac from_forall F H := exact (proj1 (Forall_forall _ _) F _ H).

Lemma streq_eq : forall a b, streq a b = true <-> a = b.
Proof.
  induction a as [|x a IH]; destruct b as [|y b]; simpl; split;
    try congruence; try reflexivity.
  - rewrite andb_true_iff, N.eqb_eq, IH. intros [-> ->]. reflexivity.
  - intros E. injection E as -> ->. rewrite N.eqb_refl.
    apply IH. reflexivity.
Qed.

Lemma streq_refl : forall a, streq a a = true.
Proof. intros a. apply streq_eq. reflexivity. Qed.

Lemma streq_neq : forall a b, streq a b = false <-> a <> b.
Proof.
  intros a b. rewrite <- streq_eq. destruct (streq a b); split; congruence.
Qed.

Lemma whitespace_NL : isWhiteSpace NL = true.
Proof. reflexivity. Qed.

Lemma quoteClass_iff : forall c, quoteClass c = true <-> quoteTrigger c.
Proof.
  intros c. unfold quoteClass, quoteTrigger, spec_quoteTrigger.
  repeat rewrite orb_true_iff. repeat rewrite N.eqb_eq.
  split.
  - intros H. repeat (destruct H as [H|H]); subst; auto 12.
  - intros [H|H]; [|auto 12].
    repeat (destruct H as [H|H]); subst; auto 12.
Qed.

Lemma needsQuotes_iff : forall v,
  needsQuotes (Some v) = true <-> exists c, In c v /\ quoteTrigger c.
Proof.
  intros v. unfold needsQuotes, includes.
  destruct v as [|x v]; simpl isEmpty; cbv iota.
  - split; [discriminate | intros (c & [] & _)].
  - rewrite orb_true_iff. repeat rewrite existsb_exists. split.
    + intros [(c & Hin & Hc) | (c & Hin & Hc)]; exists c; split; auto.
      * apply quoteClass_iff; exact Hc.
      * apply N.eqb_eq in Hc. subst c. left. left. reflexivity.
    + intros (c & Hin & Hc). left. exists c. split; auto.
      apply quoteClass_iff; exact Hc.
Qed.

Lemma formatValue_string : forall v,
  formatValue (Some v) = if needsQuotes (Some v) then quoted v else v.
Proof.
  intros v. unfold formatValue, quoted.
  destruct v as [|x v]; reflexivity.
Qed.

Lemma replaceAll_length : forall c by_ s,
  (1 <= length by_)%nat -> (length s <= length (replaceAll c by_ s))%nat.
Proof.
  intros c by_ s Hb. unfold replaceAll.
  induction s as [|a s IH]; simpl; [lia|].
  rewrite length_app. destruct (a =? c); simpl; lia.
Qed.

Lemma quoted_neq : forall v, quoted v <> v.
Proof.
  intros v E. apply (f_equal (@length cu)) in E. revert E.
  unfold quoted, escapeValue. simpl. rewrite length_app. simpl.
  set (s1 := replaceAll BACKSLASH [BACKSLASH; BACKSLASH] v).
  set (s2 := replaceAll DQUOTE [BACKSLASH; DQUOTE] s1).
  assert (H1 := replaceAll_length BACKSLASH [BACKSLASH; BACKSLASH] v).
  assert (H2 := replaceAll_length DQUOTE [BACKSLASH; DQUOTE] s1).
  assert (H3 := replaceAll_length NL [BACKSLASH; LOWER_N] s2).
  simpl in H1, H2, H3. fold s1 in H1. fold s2 in H2. lia.
Qed.

(* ================================================================== *)
(** ** Trimming *)

Lemma trimStart_headOk : forall s, headOk (trimStart s).
Proof.
  induction s as [|c s IH]; simpl; [exact I|].
  destruct (isWhiteSpace c) eqn:E; [exact IH | exact E].
Qed.

Lemma trimStart_fixed : forall s, headOk s -> trimStart s = s.
Proof.
  intros [|c s] H; simpl in *; [reflexivity | rewrite H; reflexivity].
Qed.

Lemma trimStart_decomp : forall s,
  exists p, s = p ++ trimStart s /\ Forall (fun c => isWhiteSpace c = true) p.
Proof.
  induction s as [|c s (p & E & F)]; simpl.
  - exists []. split; [reflexivity | constructor].
  - destruct (isWhiteSpace c) eqn:W.
    + exists (c :: p). split; [simpl; congruence | constructor; assumption].
    + exists []. split; [reflexivity | constructor].
Qed.

Lemma trimEnd_decomp : forall s,
  exists q, s = trimEnd s ++ q /\ Forall (fun c => isWhiteSpace c = true) q.
Proof.
  intros s. unfold trimEnd.
  destruct (trimStart_decomp (rev s)) as (p & E & F).
  exists (rev p). split.
  - rewrite <- rev_app_distr, <- E, rev_involutive. reflexivity.
  - apply Forall_rev. exact F.
Qed.

Lemma trimEnd_headOk_rev : forall s, headOk (rev (trimEnd s)).
Proof.
  intros s. unfold trimEnd. rewrite rev_involutive. apply trimStart_headOk.
Qed.

Lemma trimEnd_fixed : forall s, headOk (rev s) -> trimEnd s = s.
Proof.
  intros s H. unfold trimEnd. rewrite trimStart_fixed by exact H.
  apply rev_involutive.
Qed.

(** Trimming the end keeps a first code unit that is not whitespace. *)
Lemma trimEnd_keeps_head : forall c r,
  isWhiteSpace c = false -> exists r', trimEnd (c :: r) = c :: r'.
Proof.
  intros c r W. destruct (trimEnd_decomp (c :: r)) as (q & E & F).
  destruct (trimEnd (c :: r)) as [|c' r'] eqn:T; rewrite ?T in E.
  - simpl in E. subst q. inversion F; subst. congruence.
  - simpl in E. injection E as <- _. exists r'. reflexivity.
Qed.

Lemma trimEnd_headOk : forall s, headOk s -> headOk (trimEnd s).
Proof.
  intros [|c r] H; [exact I|]. simpl in H.
  destruct (trimEnd_keeps_head c r H) as (r' & ->). exact H.
Qed.

Lemma trim_noWsEnds : forall s, noWsEnds (trim s).
Proof.
  intros s. unfold trim. split.
  - apply trimEnd_headOk, trimStart_headOk.
  - apply trimEnd_headOk_rev.
Qed.

Lemma trim_fixed : forall s, noWsEnds s -> trim s = s.
Proof.
  intros s [H1 H2]. unfold trim. rewrite (trimStart_fixed s H1).
  apply trimEnd_fixed, H2.
Qed.

Lemma trim_idempotent : forall s, trim (trim s) = trim s.
Proof. intros s. apply trim_fixed, trim_noWsEnds. Qed.

Lemma trim_incl : forall s c, In c (trim s) -> In c s.
Proof.
  intros s c H. unfold trim in H.
  destruct (trimStart_decomp s) as (p & E & _).
  destruct (trimEnd_decomp (trimStart s)) as (q & E' & _).
  rewrite E, E'. apply in_or_app. right. apply in_or_app. left. exact H.
Qed.

Lemma trim_nil : trim [] = [].
Proof. reflexivity. Qed.

(** A non-empty trimmed string starts with the first code unit of the
    string when that one is not whitespace. *)
Lemma trim_keeps_head : forall c r,
  isWhiteSpace c = false -> exists r', trim (c :: r) = c :: r'.
Proof.
  intros c r W. unfold trim. rewrite trimStart_fixed by exact W.
  apply trimEnd_keeps_head, W.
Qed.

(* ================================================================== *)
(** ** The line grammar *)

Lemma indexOf_Some : forall c s i,
  indexOf c s = Some i ->
  ~ In c (firstn i s) /\ nth_error s i = Some c /\ (i < length s)%nat.
Proof.
  intros c. induction s as [|x s IH]; simpl; intros i H; [discriminate|].
  destruct (x =? c) eqn:E.
  - injection H as <-. simpl. apply N.eqb_eq in E. subst.
    repeat split; [tauto | lia].
  - destruct (indexOf c s) as [j|] eqn:J; [|discriminate].
    injection H as <-. destruct (IH j eq_refl) as (A & B & C).
    simpl. repeat split; [|exact B|lia].
    intros [->|H]; [rewrite N.eqb_refl in E; discriminate | tauto].
Qed.

Lemma indexOf_app : forall c k rest,
  ~ In c k -> indexOf c (k ++ c :: rest) = Some (length k).
Proof.
  intros c. induction k as [|x k IH]; simpl; intros rest H.
  - rewrite N.eqb_refl. reflexivity.
  - destruct (x =? c) eqn:E.
    + apply N.eqb_eq in E. tauto.
    + rewrite IH by tauto. reflexivity.
Qed.

Lemma lineKey_cleanKey : forall l k, lineKey l = Some k -> cleanKey k.
Proof.
  intros l k. unfold lineKey.
  assert (T := trim_noWsEnds l).
  destruct (trim l) as [|c r] eqn:L; [cbn; discriminate|].
  cbn [isEmpty orb].
  destruct (startsWith HASH (c :: r)) eqn:Hh; [discriminate|].
  destruct (indexOf EQUALS (c :: r)) as [i|] eqn:I; [|discriminate].
  intros E. injection E as <-. unfold substringTo.
  destruct (indexOf_Some _ _ _ I) as (A & _ & _).
  split; [apply trim_noWsEnds|]. split.
  - intros H. apply A. apply trim_incl. exact H.
  - destruct i as [|i]; [reflexivity|]. simpl firstn.
    destruct T as [T _]. simpl in T.
    destruct (trim_keeps_head c (firstn i r) T) as (r' & ->).
    exact Hh.
Qed.

Lemma headOk_app : forall a b, headOk a -> headOk b -> headOk (a ++ b).
Proof. intros [|x a] b Ha Hb; simpl; assumption. Qed.

(** A clean key followed by the equals sign and a text that does not end
    in whitespace reads back as that key. *)
Lemma lineKey_keyed : forall k rest,
  cleanKey k -> headOk (rev rest) -> lineKey (k ++ EQUALS :: rest) = Some k.
Proof.
  intros k rest ((K1 & K2) & K3 & K4) R. unfold lineKey.
  assert (T : trim (k ++ EQUALS :: rest) = k ++ EQUALS :: rest).
  { apply trim_fixed. split.
    - apply headOk_app; [exact K1 | reflexivity].
    - rewrite rev_app_distr. simpl. rewrite <- app_assoc.
      apply headOk_app; [exact R|]. simpl. reflexivity. }
  rewrite T.
  assert (N : isEmpty (k ++ EQUALS :: rest) = false)
    by (destruct k; reflexivity).
  assert (S : startsWith HASH (k ++ EQUALS :: rest) = false)
    by (destruct k; [reflexivity | exact K4]).
  rewrite N, S. simpl orb. cbv iota.
  rewrite indexOf_app by exact K3. unfold substringTo.
  rewrite firstn_app, firstn_all, Nat.sub_diag. simpl. rewrite app_nil_r.
  f_equal. apply trim_fixed. split; assumption.
Qed.

Lemma formatValue_no_trailing_ws : forall v, headOk (rev (formatValue v)).
Proof.
  intros [v|]; [|simpl; reflexivity].
  rewrite formatValue_string.
  destruct (needsQuotes (Some v)) eqn:Q.
  - unfold quoted. simpl. rewrite rev_app_distr. simpl. reflexivity.
  - destruct (rev v) as [|c r] eqn:E; [exact I|]. simpl.
    destruct (isWhiteSpace c) eqn:W; [|reflexivity].
    assert (needsQuotes (Some v) = true); [|congruence].
    apply needsQuotes_iff. exists c. split.
    + apply in_rev. rewrite E. left. reflexivity.
    + left. left. exact W.
Qed.

Lemma lineKey_keyLine : forall k v,
  cleanKey k -> lineKey (keyLine k v) = Some k.
Proof.
  intros k v K. unfold keyLine.
  apply lineKey_keyed; [exact K | apply formatValue_no_trailing_ws].
Qed.

(* ================================================================== *)
(** ** Maps and sets *)

Lemma Map_has_get : forall V (m : Map V) k,
  Map_has m k = true <-> exists v, Map_get m k = Some v.
Proof.
  intros V. induction m as [|[k' v'] m IH]; intros k; simpl.
  - split; [discriminate | intros (v & H); discriminate].
  - destruct (streq k' k); simpl; [|apply IH].
    split; [eexists; reflexivity | reflexivity].
Qed.

Lemma Map_has_false_get : forall V (m : Map V) k,
  Map_has m k = false <-> Map_get m k = None.
Proof.
  intros V m k. destruct (Map_has m k) eqn:E.
  - apply Map_has_get in E. destruct E as (v & ->). split; discriminate.
  - split; [intros _ | reflexivity].
    destruct (Map_get m k) as [v|] eqn:G; [|reflexivity].
    assert (Map_has m k = true) by (apply Map_has_get; eauto).
    congruence.
Qed.

Lemma Map_has_In : forall V (m : Map V) k,
  Map_has m k = true <-> In k (Map_keys m).
Proof.
  intros V. induction m as [|[k' v'] m IH]; intros k; simpl.
  - split; [discriminate | tauto].
  - rewrite orb_true_iff, streq_eq, IH. tauto.
Qed.

Lemma Map_get_In : forall V (m : Map V) k v,
  Map_wf m -> In (k, v) m -> Map_get m k = Some v.
Proof.
  intros V. induction m as [|[k' v'] m IH]; intros k v W H; [destruct H|].
  unfold Map_wf in W. simpl in W. inversion W as [|? ? N W']; subst.
  simpl. destruct H as [E|H].
  - injection E as -> ->. rewrite streq_refl. reflexivity.
  - destruct (streq k' k) eqn:E; [|apply IH; assumption].
    apply streq_eq in E. subst k'. exfalso. apply N.
    apply (in_map fst) in H. exact H.
Qed.

Lemma Set_has_In : forall s k, Set_has s k = true <-> In k s.
Proof.
  intros s k. unfold Set_has. rewrite existsb_exists. split.
  - intros (x & H & E). apply streq_eq in E. subst. exact H.
  - intros H. exists k. split; [exact H | apply streq_refl].
Qed.

Lemma Set_add_In : forall s k x, In x (Set_add s k) <-> In x s \/ x = k.
Proof.
  intros s k x. unfold Set_add. destruct (Set_has s k) eqn:E.
  - apply Set_has_In in E. split; [tauto | intros [H | ->]; assumption].
  - rewrite in_app_iff. simpl. intuition congruence.
Qed.

Lemma Set_add_NoDup : forall s k, NoDup s -> NoDup (Set_add s k).
Proof.
  intros s k H. unfold Set_add. destruct (Set_has s k) eqn:E; [exact H|].
  apply NoDup_app; [exact H | repeat constructor; simpl; tauto |].
  intros x Hx [<-|[]]. apply Set_has_In in Hx. congruence.
Qed.

(* ================================================================== *)
(** ** The update loop of the writer *)

Lemma hasKey_true : forall k l, hasKey k l = true <-> lineKey l = Some k.
Proof.
  intros k l. unfold hasKey. destruct (lineKey l) as [k'|].
  - rewrite streq_eq. split; congruence.
  - split; discriminate.
Qed.

Lemma keyOccurs_true : forall k lines,
  keyOccurs k lines = true <-> exists l, In l lines /\ lineKey l = Some k.
Proof.
  intros k lines. unfold keyOccurs. rewrite existsb_exists.
  split; intros (l & H & E); exists l; split; auto; apply hasKey_true; auto.
Qed.

Section UpdateLoop.

Variable newVars : Map jsstring.

(** One iteration of the loop, read off [updateLines]. *)
Lemma updateLines_cons : forall l rest u,
  updateLines newVars (l :: rest) u =
  match lineKey l with
  | Some key =>
      if Map_has newVars key then
        (keyLine key (Map_get newVars key)
           :: fst (updateLines newVars rest (Set_add u key)),
         snd (updateLines newVars rest (Set_add u key)))
      else (l :: fst (updateLines newVars rest u),
            snd (updateLines newVars rest u))
  | None => (l :: fst (updateLines newVars rest u),
             snd (updateLines newVars rest u))
  end.
Proof.
  intros l rest u. unfold lineKey. simpl updateLines.
  destruct (isEmpty (trim l) || startsWith HASH (trim l)).
  - destruct (updateLines newVars rest u); reflexivity.
  - destruct (indexOf EQUALS (trim l)) as [i|].
    + destruct (Map_has newVars (trim (substringTo i (trim l)))).
      * destruct (updateLines newVars rest _); reflexivity.
      * destruct (updateLines newVars rest u); reflexivity.
    + destruct (updateLines newVars rest u); reflexivity.
Qed.

Lemma updateLines_lines : forall lines u,
  fst (updateLines newVars lines u) = List.map (spec_replaceLine newVars) lines.
Proof.
  induction lines as [|l rest IH]; intros u; [reflexivity|].
  rewrite updateLines_cons. simpl List.map. unfold spec_replaceLine at 1.
  destruct (lineKey l) as [k|]; simpl; [|rewrite IH; reflexivity].
  destruct (Map_has newVars k) eqn:H; simpl; rewrite IH.
  - apply Map_has_get in H. destruct H as (v & ->). reflexivity.
  - apply Map_has_false_get in H. rewrite H. reflexivity.
Qed.

Lemma updateLines_keys : forall lines u k,
  In k (snd (updateLines newVars lines u)) <->
  In k u \/ (Map_has newVars k = true /\ keyOccurs k lines = true).
Proof.
  induction lines as [|l rest IH]; intros u k.
  - simpl. intuition discriminate.
  - rewrite updateLines_cons. unfold keyOccurs. simpl existsb.
    rewrite orb_true_iff, hasKey_true. fold (keyOccurs k rest).
    destruct (lineKey l) as [k'|]; simpl.
    + destruct (Map_has newVars k') eqn:H; simpl; rewrite IH.
      * rewrite Set_add_In. split.
        -- intros [[A| ->]|[A B]]; auto.
        -- intros [A|[A [B|B]]]; auto. injection B as ->. auto.
      * split; [tauto|]. intros [A|[A [B|B]]]; auto.
        injection B as ->. congruence.
    + rewrite IH. intuition discriminate.
Qed.

Lemma updateLines_NoDup : forall lines u,
  NoDup u -> NoDup (snd (updateLines newVars lines u)).
Proof.
  induction lines as [|l rest IH]; intros u H; [exact H|].
  rewrite updateLines_cons.
  destruct (lineKey l) as [k'|]; simpl; [|apply IH, H].
  destruct (Map_has newVars k'); simpl; apply IH; [|exact H].
  apply Set_add_NoDup, H.
Qed.

Lemma collectAppend_absent : forall lines,
  collectAppend newVars (snd (updateLines newVars lines [])) =
  spec_absent newVars lines.
Proof.
  intros lines. unfold collectAppend, spec_absent.
  apply filter_ext_in. intros [k v] H. simpl. f_equal.
  assert (M : Map_has newVars k = true).
  { apply Map_has_In. apply (in_map fst) in H. exact H. }
  destruct (keyOccurs k lines) eqn:O.
  - apply Set_has_In, updateLines_keys. right. split; assumption.
  - destruct (Set_has _ k) eqn:S; [|reflexivity].
    apply Set_has_In, updateLines_keys in S.
    destruct S as [[]|[_ S]]. congruence.
Qed.

End UpdateLoop.

(** The state of [writeEnvFile] before the join, for an existing file. *)
Lemma writeState_existing : forall content newVars,
  let lines := split_nl content in
  let st := writeState (Some content) newVars in
  ws_lines st =
    appendLines (List.map (spec_replaceLine newVars) lines)
      (spec_absent newVars lines)
  /\ ws_appendKeys st = spec_absent newVars lines
  /\ ws_updatedKeys st = snd (updateLines newVars lines []).
Proof.
  intros content newVars lines st. subst st. unfold writeState.
  fold lines.
  destruct (updateLines newVars lines []) as [ls u] eqn:E. simpl.
  assert (L := updateLines_lines newVars lines []).
  assert (A := collectAppend_absent newVars lines).
  rewrite E in L, A. simpl in L, A. subst ls. rewrite A. auto.
Qed.

Lemma writeState_append : forall file newVars,
  ws_appendKeys (writeState file newVars) =
  collectAppend newVars (ws_updatedKeys (writeState file newVars)).
Proof.
  intros file newVars. unfold writeState.
  destruct file as [content|]; [|reflexivity].
  destruct (updateLines newVars (split_nl content) []); reflexivity.
Qed.

(** The state of [writeEnvFile] before the join, for a missing file. *)
Lemma writeState_missing : forall newVars,
  let st := writeState None newVars in
  ws_lines st = List.map (fun kv => keyLine (fst kv) (Some (snd kv))) newVars
  /\ ws_appendKeys st = newVars
  /\ ws_updatedKeys st = [].
Proof.
  intros newVars. simpl. unfold collectAppend. simpl.
  assert (F : filter (fun _ : jsstring * jsstring => true) newVars = newVars).
  { induction newVars as [|a m IH]; simpl; congruence. }
  rewrite F. repeat split. unfold appendLines.
  destruct newVars; reflexivity.
Qed.

(** Replacing keeps the key of every line. *)
Lemma spec_replaceLine_key : forall newVars l,
  lineKey (spec_replaceLine newVars l) = lineKey l.
Proof.
  intros newVars l. unfold spec_replaceLine.
  destruct (lineKey l) as [k|] eqn:K; [|exact K].
  destruct (Map_get newVars k) as [v|]; [|exact K].
  apply lineKey_keyLine. apply (lineKey_cleanKey l). exact K.
Qed.


(* ================================================================== *)
(** ** Splitting, joining and the trailing newline *)

Lemma split_nl_not_nil : forall s, split_nl s <> [].
Proof.
  induction s as [|c s IH]; simpl; [discriminate|].
  destruct (c =? NL); [discriminate|].
  destruct (split_nl s); discriminate.
Qed.

Lemma split_nl_noNewline : forall s, Forall noNewline (split_nl s).
Proof.
  induction s as [|c s IH]; simpl.
  - constructor; [intros [] | constructor].
  - destruct (c =? NL) eqn:E.
    + constructor; [intros [] | exact IH].
    + destruct (split_nl s) as [|l ls]; [repeat constructor|].
      * intros [H|[]]. subst c. discriminate.
      * inversion IH as [|? ? H1 H2]; subst. constructor; [|exact H2].
        intros [H|H]; [subst c; discriminate | exact (H1 H)].
Qed.

Lemma split_nl_app : forall l s,
  noNewline l ->
  split_nl (l ++ s) =
  match split_nl s with
  | [] => [l]
  | x :: xs => (l ++ x) :: xs
  end.
Proof.
  induction l as [|c l IH]; intros s H; simpl.
  - destruct (split_nl s) eqn:E; [|reflexivity].
    exfalso. exact (split_nl_not_nil s E).
  - destruct (c =? NL) eqn:E.
    + apply N.eqb_eq in E. exfalso. apply H. left. auto.
    + rewrite IH by (intros A; apply H; right; exact A).
      destruct (split_nl s); reflexivity.
Qed.

Lemma split_nl_line : forall l, noNewline l -> split_nl l = [l].
Proof.
  intros l H. rewrite <- (app_nil_r l) at 1.
  rewrite split_nl_app by exact H. simpl. rewrite app_nil_r. reflexivity.
Qed.

Lemma split_join : forall ls,
  ls <> [] -> Forall noNewline ls -> split_nl (join_nl ls) = ls.
Proof.
  induction ls as [|l rest IH]; intros N F; [congruence|].
  inversion F as [|? ? Hl Hr]; subst.
  destruct rest as [|l2 rest].
  - simpl. apply split_nl_line, Hl.
  - change (join_nl (l :: l2 :: rest)) with (l ++ NL :: join_nl (l2 :: rest)).
    rewrite split_nl_app by exact Hl.
    change (split_nl (NL :: join_nl (l2 :: rest)))
      with ([] :: split_nl (join_nl (l2 :: rest))).
    cbv iota. rewrite app_nil_r, IH; [reflexivity | discriminate | exact Hr].
Qed.

Lemma split_nl_snoc : forall s, split_nl (s ++ [NL]) = split_nl s ++ [[]].
Proof.
  induction s as [|c s IH]; [reflexivity|]. simpl.
  destruct (c =? NL); rewrite IH; [reflexivity|].
  destruct (split_nl s) eqn:E; [|reflexivity].
  exfalso. exact (split_nl_not_nil s E).
Qed.

Lemma strip_noNewline : forall l, noNewline l -> stripTrailingNewlines l = l.
Proof.
  induction l as [|c l IH]; intros H; [reflexivity|]. simpl.
  rewrite IH by (intros A; apply H; right; exact A).
  destruct l; [|reflexivity].
  destruct (c =? NL) eqn:E; [|reflexivity].
  apply N.eqb_eq in E. exfalso. apply H. left. auto.
Qed.

Lemma strip_app : forall a b,
  stripTrailingNewlines (a ++ b) =
  match stripTrailingNewlines b with
  | [] => stripTrailingNewlines a
  | b' => a ++ b'
  end.
Proof.
  induction a as [|c a IH]; intros b; simpl.
  - destruct (stripTrailingNewlines b); reflexivity.
  - rewrite IH. destruct (stripTrailingNewlines b) as [|x b'] eqn:E.
    + reflexivity.
    + destruct a; reflexivity.
Qed.

Lemma dropTrailingEmpty_join_nil : forall ls,
  join_nl (dropTrailingEmpty ls) = [] -> dropTrailingEmpty ls = [].
Proof.
  induction ls as [|l rest IH]; [reflexivity|]. simpl.
  destruct (dropTrailingEmpty rest) as [|x xs] eqn:E.
  - destruct l; simpl; [reflexivity | discriminate].
  - change (join_nl (l :: x :: xs)) with (l ++ NL :: join_nl (x :: xs)).
    intros H. destruct l; discriminate.
Qed.

Lemma strip_join : forall ls,
  Forall noNewline ls ->
  stripTrailingNewlines (join_nl ls) = join_nl (dropTrailingEmpty ls).
Proof.
  induction ls as [|l rest IH]; intros F; [reflexivity|].
  inversion F as [|? ? Hl Hr]; subst. specialize (IH Hr).
  destruct rest as [|l2 rest].
  - simpl. rewrite strip_noNewline by exact Hl. destruct l; reflexivity.
  - change (join_nl (l :: l2 :: rest)) with (l ++ NL :: join_nl (l2 :: rest)).
    rewrite strip_app.
    change (stripTrailingNewlines (NL :: join_nl (l2 :: rest)))
      with (match stripTrailingNewlines (join_nl (l2 :: rest)) with
            | [] => if NL =? NL then [] else [NL]
            | r' => NL :: r'
            end).
    rewrite IH.
    change (dropTrailingEmpty (l :: l2 :: rest))
      with (match dropTrailingEmpty (l2 :: rest) with
            | [] => if isEmpty l then [] else [l]
            | rest' => l :: rest'
            end).
    destruct (dropTrailingEmpty (l2 :: rest)) as [|x xs] eqn:D.
    + simpl. rewrite strip_noNewline by exact Hl. destruct l; reflexivity.
    + destruct (join_nl (x :: xs)) as [|y ys] eqn:J.
      * assert (D' := dropTrailingEmpty_join_nil (l2 :: rest)).
        rewrite D in D'. discriminate (D' J).
      * change (join_nl (l :: x :: xs)) with (l ++ NL :: join_nl (x :: xs)).
        rewrite J. reflexivity.
Qed.

Lemma dropTrailingEmpty_nth : forall ls i l,
  nth_error ls i = Some l -> l <> [] ->
  nth_error (dropTrailingEmpty ls) i = Some l.
Proof.
  induction ls as [|x rest IH]; intros i l H N; [destruct i; discriminate|].
  simpl. destruct i as [|i]; simpl in H.
  - injection H as ->.
    destruct (dropTrailingEmpty rest); [|reflexivity].
    destruct l; [congruence | reflexivity].
  - specialize (IH i l H N).
    destruct (dropTrailingEmpty rest); [destruct i; discriminate|].
    exact IH.
Qed.

Lemma dropTrailingEmpty_length : forall ls,
  (length (dropTrailingEmpty ls) <= length ls)%nat.
Proof.
  induction ls as [|x rest IH]; simpl; [lia|].
  destruct (dropTrailingEmpty rest); [destruct (isEmpty x)|]; simpl in *; lia.
Qed.

(** Only empty lines are dropped, and only at the end. *)
Lemma dropTrailingEmpty_prefix : forall ls,
  exists n, ls = dropTrailingEmpty ls ++ repeat [] n.
Proof.
  induction ls as [|l rest (n & IH)]; [exists O; reflexivity|].
  simpl. destruct (dropTrailingEmpty rest) as [|x xs].
  - destruct l as [|c l]; simpl.
    + exists (S n). simpl. f_equal. exact IH.
    + exists n. f_equal. exact IH.
  - exists n. simpl. f_equal. exact IH.
Qed.

(** The lines of the written file, for lines without newline characters. *)
Lemma finalContent_lines : forall ls,
  Forall noNewline ls ->
  split_nl (finalContent ls) =
  match dropTrailingEmpty ls with
  | [] => [[]; []]
  | ls' => ls' ++ [[]]
  end.
Proof.
  intros ls F. unfold finalContent.
  rewrite split_nl_snoc, strip_join by exact F.
  destruct (dropTrailingEmpty ls) as [|x xs] eqn:D; [reflexivity|].
  rewrite split_join; [reflexivity | discriminate |].
  clear -F D. revert x xs D.
  induction ls as [|l rest IH]; intros x xs D; [discriminate|].
  inversion F as [|? ? Hl Hr]; subst. simpl in D.
  destruct (dropTrailingEmpty rest) as [|y ys] eqn:E.
  - destruct (isEmpty l); [discriminate|]. injection D as <- <-.
    repeat constructor. exact Hl.
  - injection D as <- <-. constructor; [exact Hl|].
    apply (IH Hr y ys eq_refl).
Qed.

Lemma finalContent_nth : forall ls i l,
  Forall noNewline ls -> nth_error ls i = Some l -> l <> [] ->
  nth_error (split_nl (finalContent ls)) i = Some l.
Proof.
  intros ls i l F H N. rewrite finalContent_lines by exact F.
  assert (D := dropTrailingEmpty_nth ls i l H N).
  destruct (dropTrailingEmpty ls) as [|x xs]; [destruct i; discriminate|].
  rewrite nth_error_app1; [exact D|].
  apply nth_error_Some. congruence.
Qed.

Lemma replaceAll_no_char : forall c by_ s,
  ~ In c by_ -> ~ In c (replaceAll c by_ s).
Proof.
  intros c by_ s H. unfold replaceAll. rewrite in_flat_map.
  intros (x & _ & Hx). destruct (x =? c) eqn:E; [tauto|].
  destruct Hx as [->|[]]. rewrite N.eqb_refl in E. discriminate.
Qed.

Lemma formatValue_noNewline : forall v, noNewline (formatValue v).
Proof.
  intros [v|]; [|intros [H|[H|[]]]; discriminate].
  rewrite formatValue_string. destruct (needsQuotes (Some v)) eqn:Q.
  - unfold quoted, escapeValue. intros [H|H]; [discriminate|].
    apply in_app_or in H. destruct H as [H|[H|[]]]; [|discriminate].
    revert H. apply replaceAll_no_char. intros [H|[H|[]]]; discriminate.
  - intros H. assert (needsQuotes (Some v) = true); [|congruence].
    apply needsQuotes_iff. exists NL. split; [exact H|].
    left. left. reflexivity.
Qed.

Lemma lineKey_incl : forall l k c, lineKey l = Some k -> In c k -> In c l.
Proof.
  intros l k c. unfold lineKey.
  destruct (isEmpty (trim l) || startsWith HASH (trim l)); [discriminate|].
  destruct (indexOf EQUALS (trim l)) as [i|]; [|discriminate].
  intros E H. injection E as <-. apply trim_incl in H.
  unfold substringTo in H. apply trim_incl.
  rewrite <- (firstn_skipn i (trim l)). apply in_or_app. left. exact H.
Qed.

Lemma spec_replaceLine_noNewline : forall newVars l,
  noNewline l -> noNewline (spec_replaceLine newVars l).
Proof.
  intros newVars l H. unfold spec_replaceLine.
  destruct (lineKey l) as [k|] eqn:K; [|exact H].
  destruct (Map_get newVars k) as [v|]; [|exact H].
  unfold keyLine. intros A. apply in_app_or in A. destruct A as [A|[A|A]].
  - apply H. eapply lineKey_incl; eassumption.
  - discriminate.
  - exact (formatValue_noNewline _ A).
Qed.

(* ================================================================== *)
(** ** The writer: what is written *)

Lemma writeEnvFile_written : forall fs path newVars existing,
  fst (writeEnvFile fs path newVars existing) path =
  Some (finalContent (ws_lines (writeState (fs path) newVars))).
Proof.
  intros. unfold writeEnvFile, writeFileSync. simpl.
  rewrite streq_refl. reflexivity.
Qed.

Lemma writeEnvFile_frame : forall fs path newVars existing q,
  q <> path -> fst (writeEnvFile fs path newVars existing) q = fs q.
Proof.
  intros fs path newVars existing q H. unfold writeEnvFile, writeFileSync.
  simpl. apply streq_neq in H. rewrite H. reflexivity.
Qed.


Lemma lineKey_not_blank : forall l k, lineKey l = Some k -> l <> [].
Proof. intros l k H ->. discriminate. Qed.

Lemma comment_no_key : forall l,
  isComment l = true -> lineKey l = None /\ l <> [].
Proof.
  intros l H. unfold isComment in H. unfold lineKey. rewrite H.
  rewrite orb_true_r. split; [reflexivity|]. intros ->. discriminate.
Qed.






Lemma NoDup_filter_keys : forall f (m : list (jsstring * jsstring)),
  NoDup (List.map fst m) -> NoDup (List.map fst (filter f m)).
Proof.
  intros f. induction m as [|a m IH]; intros W; [constructor|].
  simpl in *. inversion W as [|? ? N W']; subst.
  destruct (f a); [|apply IH, W'].
  simpl. constructor; [|apply IH, W'].
  intros H. apply N. apply in_map_iff in H.
  destruct H as (y & E & H). apply filter_In in H.
  apply in_map_iff. exists y. tauto.
Qed.




Lemma keyLine_noNewline : forall k v,
  noNewline k -> noNewline (keyLine k v).
Proof.
  intros k v H A. unfold keyLine in A. apply in_app_or in A.
  destruct A as [A|[A|A]]; [exact (H A) | discriminate |].
  exact (formatValue_noNewline _ A).
Qed.

Lemma blankBefore_noNewline : forall ls, Forall noNewline (blankBefore ls).
Proof.
  intros ls. unfold blankBefore. destruct (rev ls) as [|x r]; [constructor|].
  destruct (negb (isEmpty x)); repeat constructor. intros [].
Qed.

(** The lines the writer joins for an existing file: the replaced lines,
    then the blank line and the appended lines if an entry is absent. *)
Lemma writeState_shape : forall content newVars,
  let lines := split_nl content in
  let updated := List.map (spec_replaceLine newVars) lines in
  let absent := spec_absent newVars lines in
  ws_lines (writeState (Some content) newVars) =
    updated ++ match absent with
               | [] => []
               | _ :: _ =>
                   blankBefore updated
                   ++ List.map (fun kv => keyLine (fst kv) (Some (snd kv)))
                        absent
               end.
Proof.
  intros content newVars lines updated absent.
  destruct (writeState_existing content newVars) as (W1 & _).
  rewrite W1. fold lines. fold absent. fold updated. unfold appendLines.
  destruct absent; [rewrite app_nil_r | rewrite app_assoc]; reflexivity.
Qed.

(** Each line of the file is found, replaced, at its index. *)
Lemma writeState_nth : forall content newVars i l,
  nth_error (split_nl content) i = Some l ->
  nth_error (ws_lines (writeState (Some content) newVars)) i
  = Some (spec_replaceLine newVars l).
Proof.
  intros content newVars i l H. rewrite writeState_shape.
  rewrite nth_error_app1.
  - rewrite nth_error_map, H. reflexivity.
  - rewrite length_map. apply nth_error_Some. congruence.
Qed.

(** Keys without newline give lines without newline. *)
Lemma writeState_noNewline : forall content newVars,
  Forall noNewline (Map_keys newVars) ->
  Forall noNewline (ws_lines (writeState (Some content) newVars)).
Proof.
  intros content newVars K. rewrite writeState_shape.
  apply Forall_app. split.
  - apply Forall_forall. intros x Hx. apply in_map_iff in Hx.
    destruct Hx as (l & <- & Hl). apply spec_replaceLine_noNewline.
    from_forall (split_nl_noNewline content) Hl.
  - destruct (spec_absent newVars (split_nl content)) as [|a r] eqn:A;
      [constructor|].
    apply Forall_app. split; [apply blankBefore_noNewline|].
    rewrite <- A. apply Forall_forall. intros x Hx. apply in_map_iff in Hx.
    destruct Hx as ([k v] & <- & Hkv). apply keyLine_noNewline. simpl.
    apply filter_In in Hkv. destruct Hkv as [Hkv _].
    apply (in_map fst) in Hkv. from_forall K Hkv.
Qed.

(** C2.  Writing a value for the single key [B], already on a line of the
    file: nothing is appended; in the written file every comment line and
    every line of another key stands at its old position with its old
    bytes; the lines of [B] carry the new value; the lines of the written
    file are the lines of the old one in their order, the lines of [B]
    replaced and the trailing empty lines reduced to the one that ends the
    file; no other file changes. *)
Theorem C2_other_lines_untouched :
  forall (fs : FS) (path : jsstring) (existing : Map jsstring)
         (content B v : jsstring),
    fs path = Some content ->
    keyOccurs B (split_nl content) = true ->
    let lines := split_nl content in
    let fs' := fst (writeEnvFile fs path [(B, v)] existing) in
    exists out,
      fs' path = Some out
      /\ ws_appendKeys (writeState (fs path) [(B, v)]) = []
      /\ (forall i l,
            nth_error lines i = Some l ->
            isComment l = true \/ (exists k, lineKey l = Some k /\ k <> B) ->
            nth_error (split_nl out) i = Some l)
      /\ (forall i l,
            nth_error lines i = Some l -> lineKey l = Some B ->
            nth_error (split_nl out) i = Some (keyLine B (Some v)))
      /\ (forall i l,
            nth_error lines i = Some l -> l <> [] -> lineKey l = None ->
            nth_error (split_nl out) i = Some l)
      /\ (exists kept n,
            List.map (spec_replaceLine [(B, v)]) lines = kept ++ repeat [] n
            /\ split_nl out = kept ++ [[]])
      /\ (forall q, q <> path -> fs' q = fs q).
Proof.
  intros fs path existing content B v Hfs Occ lines fs'.
  assert (Wr := writeEnvFile_written fs path [(B, v)] existing).
  assert (Shape := writeState_shape content [(B, v)]). cbv zeta in Shape.
  destruct (writeState_existing content [(B, v)]) as (_ & App & _).
  rewrite Hfs in *. fold lines in Shape, App.
  set (updated := List.map (spec_replaceLine [(B, v)]) lines) in *.
  assert (Abs : spec_absent [(B, v)] lines = []).
  { unfold spec_absent. simpl. fold lines in Occ. rewrite Occ. reflexivity. }
  rewrite Abs in Shape, App. rewrite app_nil_r in Shape.
  assert (F : Forall noNewline updated).
  { subst updated. apply Forall_forall. intros x Hx.
    apply in_map_iff in Hx. destruct Hx as (l & <- & Hl).
    apply spec_replaceLine_noNewline.
    exact (proj1 (Forall_forall _ _) (split_nl_noNewline content) l Hl). }
  assert (Keep : forall i l, nth_error lines i = Some l -> l <> [] ->
                 lineKey l <> Some B ->
                 nth_error (split_nl (finalContent updated)) i = Some l).
  { intros i l H N K. apply finalContent_nth; [exact F| |exact N].
    subst updated. rewrite nth_error_map, H. simpl. f_equal.
    unfold spec_replaceLine. destruct (lineKey l) as [k|]; [|reflexivity].
    simpl. destruct (streq B k) eqn:E; [|reflexivity].
    apply streq_eq in E. congruence. }
  exists (finalContent updated).
  split; [subst fs'; rewrite Wr, Shape; reflexivity|].
  split; [exact App|].
  split.
  { intros i l H [C|(k & K & D)].
    - destruct (comment_no_key l C) as [K N].
      apply Keep; [exact H | exact N | congruence].
    - apply Keep; [exact H | exact (lineKey_not_blank l k K) | congruence]. }
  split.
  { intros i l H K. apply finalContent_nth; [exact F| |].
    - subst updated. rewrite nth_error_map, H. simpl. f_equal.
      unfold spec_replaceLine. rewrite K. simpl. rewrite streq_refl.
      reflexivity.
    - unfold keyLine. destruct B; discriminate. }
  split.
  { intros i l H N K. apply Keep; [exact H | exact N | congruence]. }
  split.
  { destruct (dropTrailingEmpty_prefix updated) as (n & P).
    exists (dropTrailingEmpty updated), n. split; [exact P|].
    rewrite finalContent_lines by exact F.
    destruct (dropTrailingEmpty updated) as [|x xs] eqn:E; [|reflexivity].
    exfalso. fold lines in Occ. apply keyOccurs_true in Occ.
    destruct Occ as (l & Hl & K). apply In_nth_error in Hl.
    destruct Hl as (i & Hi).
    assert (D := dropTrailingEmpty_nth updated i (keyLine B (Some v))).
    rewrite E in D. destruct i; discriminate D;
      try (subst updated; rewrite nth_error_map, Hi; simpl; f_equal;
           unfold spec_replaceLine; rewrite K; simpl; rewrite streq_refl;
           reflexivity);
      unfold keyLine; destruct B; discriminate. }
  intros q Hq. subst fs'. apply writeEnvFile_frame. exact Hq.
Qed.

(** C6 (as amended).  The lines [writeEnvFile] joins are the kept lines
    and, when at least one entry is appended, one empty line if the last
    kept line is not the empty string, then one line per appended entry.
    Nothing else is inserted: there is no separator comment line.  With no
    entry to append the kept lines stand alone, and a missing or empty file
    gets no empty line. *)
Theorem C6_blank_line_is_the_only_separator :
  forall (file : option jsstring) (newVars : Map jsstring),
    let st := writeState file newVars in
    let kept :=
      match file with
      | Some content => List.map (spec_replaceLine newVars) (split_nl content)
      | None => []
      end in
    let appended :=
      List.map (fun kv => keyLine (fst kv) (Some (snd kv)))
        (ws_appendKeys st) in
    ws_lines st =
      kept ++ match ws_appendKeys st with
              | [] => []
              | _ :: _ => blankBefore kept ++ appended
              end
    /\ (blankBefore kept = [[]]
        <-> exists front l, kept = front ++ [l] /\ l <> [])
    /\ (blankBefore kept = []
        <-> kept = [] \/ exists front, kept = front ++ [[]])
    /\ (file = None \/ file = Some [] -> blankBefore kept = [])
    /\ (ws_appendKeys st = [] -> ws_lines st = kept).
Proof.
  intros file newVars st kept appended.
  assert (Shape : ws_lines st =
            kept ++ match ws_appendKeys st with
                    | [] => []
                    | _ :: _ => blankBefore kept ++ appended
                    end).
  { subst st kept appended. destruct file as [content|].
    - destruct (writeState_existing content newVars) as (W1 & W2 & _).
      rewrite W1, W2. unfold appendLines.
      destruct (spec_absent newVars (split_nl content));
        [rewrite app_nil_r | rewrite app_assoc]; reflexivity.
    - destruct (writeState_missing newVars) as (W1 & W2 & _).
      rewrite W1, W2. destruct newVars; reflexivity. }
  assert (B : forall ls,
            (blankBefore ls = [[]]
             <-> exists front l, ls = front ++ [l] /\ l <> [])
            /\ (blankBefore ls = []
                <-> ls = [] \/ exists front, ls = front ++ [[]])).
  { intros ls. unfold blankBefore.
    destruct (rev ls) as [|x r] eqn:E.
    - apply (f_equal (@rev _)) in E. rewrite rev_involutive in E.
      simpl in E. subst ls. split; split; try discriminate; auto.
      intros (front & l & H & _). destruct front; discriminate.
    - apply (f_equal (@rev _)) in E. rewrite rev_involutive in E.
      simpl in E. subst ls. destruct x as [|c x]; simpl; split; split;
        try discriminate; eauto.
      + intros (front & l & H & N). apply app_inj_tail in H.
        destruct H as [_ <-]. congruence.
      + intros _. exists (rev r), (c :: x). split; [reflexivity | discriminate].
      + intros [H | (front & H)].
        * destruct (rev r); discriminate.
        * apply app_inj_tail in H. destruct H as [_ H]. discriminate. }
  split; [exact Shape|].
  split; [apply B|]. split; [apply B|]. split.
  - subst kept. intros [-> | ->]; reflexivity.
  - intros H. rewrite Shape, H, app_nil_r. reflexivity.
Qed.

(** C5 (as amended).  The empty string is formatted as the empty string:
    the line of a key confirmed with an empty value is the key and the
    equals sign.  The pair of double quotes is what a missing value gets. *)
Theorem C5_empty_value_written_bare :
  forall key : jsstring,
    formatValue (Some []) = []
    /\ keyLine key (Some []) = key ++ [EQUALS]
    /\ formatValue None = [DQUOTE; DQUOTE].
Proof. intros key. repeat split. Qed.

(** C9 (as amended).  A value is wrapped in double quotes, its content
    escaped, exactly when it contains whitespace (a newline included), a
    hash, an equals sign, a backslash, a dollar sign, one of the three quote
    characters or an exclamation mark; any other value is written as it
    is. *)
Theorem C9_quotes_exactly_on_trigger :
  forall v : jsstring,
    ((exists c, In c v /\ quoteTrigger c) -> formatValue (Some v) = quoted v)
    /\ (~ (exists c, In c v /\ quoteTrigger c) -> formatValue (Some v) = v)
    /\ quoted v <> v.
Proof.
  intros v. rewrite formatValue_string.
  split; [|split; [|apply quoted_neq]].
  - intros H. apply needsQuotes_iff in H. rewrite H. reflexivity.
  - intros H. destruct (needsQuotes (Some v)) eqn:Q; [|reflexivity].
    apply needsQuotes_iff in Q. tauto.
Qed.

(* ================================================================== *)
(** ** The parser on a line the writer produced *)

Lemma keyed_trim : forall k rest,
  cleanKey k -> headOk (rev rest) ->
  trim (k ++ EQUALS :: rest) = k ++ EQUALS :: rest.
Proof.
  intros k rest ((K1 & K2) & _) R. apply trim_fixed. split.
  - apply headOk_app; [exact K1 | reflexivity].
  - rewrite rev_app_distr. simpl. rewrite <- app_assoc.
    apply headOk_app; [exact R | reflexivity].
Qed.

Lemma skipn_keyed : forall (k : jsstring) c rest,
  skipn (length k + 1) (k ++ c :: rest) = rest.
Proof.
  induction k as [|x k IH]; intros c rest; [reflexivity|].
  simpl. apply IH.
Qed.

Lemma unquoted_no_trigger : forall v c,
  needsQuotes (Some v) = false -> In c v -> ~ quoteTrigger c.
Proof.
  intros v c Q H T.
  assert (needsQuotes (Some v) = true); [|congruence].
  apply needsQuotes_iff. exists c. split; assumption.
Qed.

Lemma formatValue_no_leading_ws : forall v, headOk (formatValue v).
Proof.
  intros [v|]; [|reflexivity]. rewrite formatValue_string.
  destruct (needsQuotes (Some v)) eqn:Q; [reflexivity|].
  destruct v as [|c v]; [exact I|]. simpl.
  destruct (isWhiteSpace c) eqn:W; [|reflexivity].
  exfalso. apply (unquoted_no_trigger (c :: v) c Q); [left; reflexivity|].
  left. left. exact W.
Qed.

Lemma slice_quoted : forall e, slice_1_m1 (DQUOTE :: e ++ [DQUOTE]) = e.
Proof.
  intros e. unfold slice_1_m1. simpl. rewrite length_app. simpl.
  replace (length e + 1 - 1)%nat with (length e + 0)%nat by lia.
  rewrite firstn_app_2. simpl. apply app_nil_r.
Qed.

(** The parser returns, for a line of the writer, the key and the escaped
    text of the value: it strips the quotes and undoes no escape. *)
Lemma parseLine_keyLine : forall k v,
  cleanKey k ->
  parseLine (keyLine k (Some v)) =
  Some (k, if needsQuotes (Some v) then escapeValue v else v).
Proof.
  intros k v K. unfold parseLine, keyLine.
  rewrite (keyed_trim k _ K (formatValue_no_trailing_ws _)).
  destruct K as ((K1 & K2) & K3 & K4).
  assert (N : isEmpty (k ++ EQUALS :: formatValue (Some v)) = false)
    by (destruct k; reflexivity).
  assert (S : startsWith HASH (k ++ EQUALS :: formatValue (Some v)) = false)
    by (destruct k; [reflexivity | exact K4]).
  rewrite N, S. cbn [orb]. rewrite indexOf_app by exact K3.
  unfold substringTo, substringFrom.
  rewrite firstn_app, firstn_all, Nat.sub_diag. simpl firstn.
  rewrite app_nil_r, skipn_keyed.
  rewrite (trim_fixed k) by (split; assumption).
  rewrite (trim_fixed (formatValue (Some v)))
    by (split; [apply formatValue_no_leading_ws
               | apply formatValue_no_trailing_ws]).
  rewrite formatValue_string.
  destruct (needsQuotes (Some v)) eqn:Q.
  - unfold quoted, endsWith. simpl rev. rewrite rev_app_distr.
    simpl. rewrite slice_quoted. reflexivity.
  - assert (D : startsWith DQUOTE v = false).
    { destruct v as [|c v]; [reflexivity|]. simpl.
      destruct (c =? DQUOTE) eqn:E; [|reflexivity].
      apply N.eqb_eq in E. exfalso.
      apply (unquoted_no_trigger (c :: v) c Q); [left; reflexivity|].
      left. unfold spec_quoteTrigger. tauto. }
    assert (D' : startsWith SQUOTE v = false).
    { destruct v as [|c v]; [reflexivity|]. simpl.
      destruct (c =? SQUOTE) eqn:E; [|reflexivity].
      apply N.eqb_eq in E. exfalso.
      apply (unquoted_no_trigger (c :: v) c Q); [left; reflexivity|].
      left. unfold spec_quoteTrigger. tauto. }
    rewrite D, D'. reflexivity.
Qed.

Lemma replaceAll_absent : forall c by_ s, ~ In c s -> replaceAll c by_ s = s.
Proof.
  intros c by_. unfold replaceAll.
  induction s as [|x s IH]; intros H; [reflexivity|]. simpl.
  destruct (x =? c) eqn:E.
  - apply N.eqb_eq in E. exfalso. apply H. left. exact E.
  - simpl. f_equal. apply IH. intros A. apply H. right. exact A.
Qed.

Lemma escapeValue_plain : forall v,
  ~ In BACKSLASH v -> ~ In DQUOTE v -> ~ In NL v -> escapeValue v = v.
Proof.
  intros v B D N. unfold escapeValue.
  rewrite (replaceAll_absent BACKSLASH) by exact B.
  rewrite (replaceAll_absent DQUOTE) by exact D.
  apply replaceAll_absent. exact N.
Qed.

Lemma parseExistingEnv_missing : forall fs envPath,
  existsSync fs envPath = false -> parseExistingEnv fs envPath = [].
Proof.
  intros fs envPath H. unfold parseExistingEnv. rewrite H. reflexivity.
Qed.

(** C4 (as amended).  [hello world] is written between double quotes and
    [say "hi"] between double quotes with a backslash before each inner
    quote.  The parser gives back [hello world]; for [say "hi"] it gives the
    escaped text, backslashes included, since it only strips the outer
    quotes.  In general the parser gives back the escaped text of a quoted
    value, which is the value itself when the value holds no backslash, no
    double quote and no newline. *)
Theorem C4_quoting_and_parse_back :
  formatValue (Some helloWorld) = DQUOTE :: helloWorld ++ [DQUOTE]
  /\ formatValue (Some sayHi) = DQUOTE :: sayHiEscaped ++ [DQUOTE]
  /\ parseContent (keyLine KEY (Some helloWorld)) = [(KEY, helloWorld)]
  /\ parseContent (keyLine KEY (Some sayHi)) = [(KEY, sayHiEscaped)]
  /\ (forall k v,
        cleanKey k ->
        parseLine (keyLine k (Some v)) =
        Some (k, if needsQuotes (Some v) then escapeValue v else v))
  /\ (forall v,
        ~ In BACKSLASH v -> ~ In DQUOTE v -> ~ In NL v -> escapeValue v = v).
Proof.
  split; [reflexivity|]. split; [reflexivity|].
  split; [reflexivity|]. split; [reflexivity|].
  split; [exact parseLine_keyLine | exact escapeValue_plain].
Qed.

(** C7, the parser at a line with an empty key.  The line [=foo] gives an
    entry under the empty key, where the key extraction of the shallow scan
    skips the same line. *)
Theorem C7_parser_keeps_empty_key :
  parseExistingEnv (fsWith (str "=foo")) envPath = [([], str "foo")]
  /\ Map_has (parseExistingEnv (fsWith (str "=foo")) envPath) [] = true
  /\ extractEnvKeysFromContent (str "=foo") = []
  /\ parseExistingEnv fsEmpty envPath = [].
Proof. repeat split. Qed.

Lemma filter_negb_length : forall (A : Type) (f : A -> bool) (l : list A),
  (length (filter f l) + length (filter (fun x => negb (f x)) l))%nat
  = length l.
Proof.
  intros A f. induction l as [|a l IH]; [reflexivity|].
  simpl. destruct (f a); simpl; lia.
Qed.

(** C3.  A discovered key is already set exactly when the existing
    configuration has it with a value that is not empty after trimming; a
    key with an empty or blank value and an absent key are both missing;
    the total is the number of discovered keys and the missing count is
    the total minus the already-set count, the number of keys that are not
    already set. *)
Theorem C3_reconciliation_counts :
  forall (foundVars : ScanResult) (existingEnv : Map jsstring),
    let r := showScanResult foundVars existingEnv in
    (forall k,
       hasUsableValue existingEnv k = true
       <-> exists v, Map_get existingEnv k = Some v /\ trim v <> [])
    /\ (forall k, Map_has existingEnv k = false ->
                  hasUsableValue existingEnv k = false)
    /\ (forall k v, Map_get existingEnv k = Some v -> trim v = [] ->
                    hasUsableValue existingEnv k = false)
    /\ total r = length (Map_keys foundVars)
    /\ alreadySet r =
         length (filter (hasUsableValue existingEnv) (Map_keys foundVars))
    /\ missing r = (Z.of_nat (total r) - Z.of_nat (alreadySet r))%Z
    /\ missing r =
         Z.of_nat (length (varsToFillMissing foundVars existingEnv))
    /\ hasUsableValue (parseContent (str "FOO=")) (str "FOO") = false
    /\ hasUsableValue (parseContent (str "FOO=bar")) (str "FOO") = true.
Proof.
  intros foundVars existingEnv r.
  assert (U : forall k,
            hasUsableValue existingEnv k = true
            <-> exists v, Map_get existingEnv k = Some v /\ trim v <> []).
  { intros k. unfold hasUsableValue.
    destruct (Map_has existingEnv k) eqn:H; simpl.
    - apply Map_has_get in H. destruct H as (v & G). rewrite G.
      rewrite Nat.ltb_lt. split.
      + intros L. exists v. split; [reflexivity|].
        intros E. rewrite E in L. simpl in L. lia.
      + intros (v' & E & N). injection E as <-.
        destruct (trim v); [congruence | simpl; lia].
    - apply Map_has_false_get in H. rewrite H. split; [discriminate|].
      intros (v & E & _). discriminate. }
  split; [exact U|]. split.
  { intros k H. unfold hasUsableValue. rewrite H. reflexivity. }
  split.
  { intros k v G T. destruct (hasUsableValue existingEnv k) eqn:E;
      [|reflexivity].
    apply U in E. destruct E as (v' & G' & N). congruence. }
  split; [subst r; simpl; unfold Map_size, Map_keys; rewrite length_map;
          reflexivity|].
  split; [reflexivity|]. split; [reflexivity|]. split.
  { subst r. simpl. unfold Map_size, varsToFillMissing.
    assert (L := filter_negb_length _ (hasUsableValue existingEnv)
                   (Map_keys foundVars)).
    unfold Map_keys in *. rewrite length_map in L. lia. }
  split; reflexivity.
Qed.

(* ================================================================== *)
(** ** The matcher: what a match consumes *)

Lemma matchLit_sound : forall lit left right left' right',
  matchLit lit left right = Some (left', right') ->
  right = lit ++ right' /\ left' = rev lit ++ left.
Proof.
  induction lit as [|c lit IH]; intros left right left' right' H; simpl in H.
  - injection H as <- <-. split; reflexivity.
  - destruct right as [|x right]; [discriminate|].
    destruct (x =? c) eqn:E; [|discriminate].
    apply N.eqb_eq in E. subst x.
    destruct (IH _ _ _ _ H) as [-> ->]. simpl.
    rewrite <- app_assoc. split; reflexivity.
Qed.

Section Continuations.

(** The type of what the continuation of a match returns. *)
Variable R : Type.

Lemma matchStar_sound : forall k right left
    (cont : jsstring -> jsstring -> option R) r,
  matchStar k left right cont = Some r ->
  exists u right',
    right = u ++ right' /\ forallb (inClass k) u = true
    /\ cont (rev u ++ left) right' = Some r.
Proof.
  intros k. induction right as [|x right IH]; intros left cont r H;
    simpl in H.
  - exists [], []. auto.
  - destruct (inClass k x) eqn:C.
    + destruct (matchStar k (x :: left) right cont) as [r'|] eqn:M.
      * injection H as <-. destruct (IH _ _ _ M) as (u & right' & -> & F & K).
        exists (x :: u), right'. simpl. rewrite C, F, <- app_assoc.
        auto.
      * exists [], (x :: right). auto.
    + exists [], (x :: right). auto.
Qed.

Lemma matchAtoms_sound : forall atoms left right
    (cont : jsstring -> jsstring -> option R) r,
  matchAtoms atoms left right cont = Some r ->
  exists w right',
    right = w ++ right' /\ accepts atoms w
    /\ cont (rev w ++ left) right' = Some r.
Proof.
  induction atoms as [|a rest IH]; intros left right cont r H.
  - exists [], right. simpl in *. auto.
  - destruct a as [s|k|k|k|]; simpl in H.
    + destruct (matchLit s left right) as [[l' r']|] eqn:L; [|discriminate].
      destruct (matchLit_sound _ _ _ _ _ L) as [-> ->].
      destruct (IH _ _ _ _ H) as (w & right' & -> & A & K).
      exists (s ++ w), right'. rewrite rev_app_distr, <- !app_assoc.
      repeat split; [|exact K]. exists w. auto.
    + destruct right as [|x right]; [discriminate|].
      destruct (inClass k x) eqn:C; [|discriminate].
      destruct (IH _ _ _ _ H) as (w & right' & -> & A & K).
      exists (x :: w), right'. simpl. rewrite <- app_assoc.
      repeat split; [|exact K]. exists x, w. auto.
    + destruct (matchStar_sound _ _ _ _ _ H) as (u & r1 & -> & F & H1).
      destruct (IH _ _ _ _ H1) as (w & right' & -> & A & K).
      exists (u ++ w), right'. rewrite rev_app_distr, <- !app_assoc.
      repeat split; [|exact K]. exists u, w. auto.
    + destruct right as [|x right]; [discriminate|].
      destruct (inClass k x) eqn:C; [|discriminate].
      destruct (matchStar_sound _ _ _ _ _ H) as (u & r1 & -> & F & H1).
      destruct (IH _ _ _ _ H1) as (w & right' & -> & A & K).
      exists (x :: u ++ w), right'.
      replace (rev (x :: u ++ w) ++ left) with (rev w ++ rev u ++ x :: left)
        by (simpl; rewrite rev_app_distr, <- !app_assoc; reflexivity).
      split; [simpl; rewrite <- app_assoc; reflexivity|].
      split; [exists x, u, w; auto | exact K].
    + destruct (atWordBoundary left right); [|discriminate].
      destruct (IH _ _ _ _ H) as (w & right' & -> & A & K).
      exists w, right'. auto.
Qed.

End Continuations.

(** The capture of a match is a text the group accepts, and the match ends
    in the input. *)
Lemma matchAt_capture : forall p left right m,
  matchAt p left right = Some m ->
  accepts (group p) (capture m)
  /\ exists w, right = w ++ endRight m.
Proof.
  intros p left right m H. unfold matchAt in H.
  apply matchAtoms_sound in H. destruct H as (w1 & r1 & -> & _ & H).
  apply matchAtoms_sound in H. destruct H as (w2 & r2 & -> & A & H).
  apply matchAtoms_sound in H. destruct H as (w3 & r3 & -> & _ & H).
  injection H as <-. simpl. split.
  - rewrite !length_app, length_rev.
    replace (length w2 + (length (rev w1) + length left)
             - (length (rev w1) + length left))%nat
      with (length (rev w2) + 0)%nat by (rewrite length_rev; lia).
    rewrite firstn_app_2. simpl. rewrite app_nil_r, rev_involutive. exact A.
  - exists (w1 ++ w2 ++ w3). rewrite <- !app_assoc. reflexivity.
Qed.

Lemma execAll_captures : forall p right left skip c,
  In c (execAll p left right skip) -> accepts (group p) c.
Proof.
  intros p. induction right as [|x right IH]; intros left skip c H.
  - simpl in H. destruct skip; [|destruct H].
    destruct (matchAt p left []) as [m|] eqn:M; [|destruct H].
    destruct H as [<-|[]]. apply (matchAt_capture _ _ _ _ M).
  - simpl in H. destruct skip as [|n]; [|exact (IH _ _ _ H)].
    destruct (matchAt p left (x :: right)) as [m|] eqn:M;
      [|exact (IH _ _ _ H)].
    destruct H as [<-|H]; [|exact (IH _ _ _ H)].
    apply (matchAt_capture _ _ _ _ M).
Qed.

(** *** The groups of [ENV_PATTERNS] *)

Lemma isVariableName_length : forall s,
  isVariableName s = true -> (2 <= length s)%nat.
Proof.
  intros [|c [|d s]] H; simpl in *; try discriminate. lia.
Qed.

Lemma isVariableName_parts : forall c r,
  isUpper c = true -> r <> [] -> forallb isUpperDigitUnderscore r = true ->
  isVariableName (c :: r) = true.
Proof.
  intros c [|d r] U N F; [congruence|].
  unfold isVariableName. rewrite U, F. reflexivity.
Qed.

Lemma accepts_VAR : forall w, accepts VAR w -> isVariableName w = true.
Proof.
  intros w (c & w' & -> & U & d & u & w'' & -> & D & F & ->).
  rewrite app_nil_r.
  apply isVariableName_parts; [exact U | discriminate|].
  change (isUpperDigitUnderscore d
          && forallb (inClass UpperDigitUnderscore) u = true).
  change (isUpperDigitUnderscore d = true) in D.
  rewrite D, F. reflexivity.
Qed.

Lemma accepts_prefixed : forall prefix w,
  isVariableName (str prefix ++ [UNDERSCORE]) = true ->
  accepts (group (prefixed prefix)) w -> isVariableName w = true.
Proof.
  intros prefix w P (w' & -> & d & u & w'' & -> & D & F & ->).
  rewrite app_nil_r. simpl in D.
  destruct (str prefix) as [|c r]; [discriminate|].
  simpl in P |- *.
  destruct (r ++ [UNDERSCORE]) as [|e r'] eqn:E;
    [destruct r; discriminate|].
  apply andb_true_iff in P. destruct P as [U P].
  rewrite <- E in P. rewrite forallb_app in P.
  apply andb_true_iff in P. destruct P as [P _].
  apply isVariableName_parts; [exact U | destruct r; discriminate|].
  rewrite forallb_app, P.
  change (isUpperDigitUnderscore d
          && forallb (inClass UpperDigitUnderscore) u = true).
  rewrite D, F. reflexivity.
Qed.

Lemma ENV_PATTERNS_groups :
  Forall (fun p => forall w, accepts (group p) w -> isVariableName w = true)
         ENV_PATTERNS.
Proof.
  unfold ENV_PATTERNS.
  repeat (constructor;
          [first [ exact accepts_VAR
                 | intros w; apply accepts_prefixed; reflexivity ]|]).
  constructor.
Qed.

Lemma matchStar_greedy : forall R k right left
    (cont : jsstring -> jsstring -> option R) r,
  forallb (inClass k) right = true ->
  cont (rev right ++ left) [] = Some r ->
  matchStar k left right cont = Some r.
Proof.
  intros R k. induction right as [|x right IH]; intros left cont r F H.
  - exact H.
  - simpl in F. apply andb_true_iff in F. destruct F as [C F].
    simpl. rewrite C. rewrite (IH (x :: left) cont r F); [reflexivity|].
    simpl in H. rewrite <- app_assoc in H. exact H.
Qed.

Lemma testVarName_shape : forall key,
  testVarName key = true -> isVariableName key = true.
Proof.
  intros key H. unfold testVarName in H.
  destruct (matchAtoms VAR [] key _) as [[]|] eqn:M; [|discriminate].
  apply matchAtoms_sound in M. destruct M as (w & r & -> & A & K).
  destruct r; [|discriminate]. rewrite app_nil_r. apply accepts_VAR, A.
Qed.

(** The anchored test of the source is the shape test. *)
Lemma testVarName_iff : forall key, testVarName key = isVariableName key.
Proof.
  intros key. destruct (isVariableName key) eqn:S.
  - destruct key as [|c [|d u]]; try discriminate S.
    simpl in S. apply andb_true_iff in S. destruct S as [U F].
    apply andb_true_iff in F. destruct F as [D F].
    unfold testVarName, VAR. simpl. rewrite U.
    change (inClass UpperDigitUnderscore d) with (isUpperDigitUnderscore d).
    rewrite D.
    rewrite (matchStar_greedy _ UpperDigitUnderscore u [d; c] _ tt);
      [reflexivity | exact F | reflexivity].
  - destruct (testVarName key) eqn:T; [|reflexivity].
    apply testVarName_shape in T. congruence.
Qed.

(* ================================================================== *)
(** ** The scan results *)

Lemma fold_left_invariant : forall (A B : Type) (Inv : A -> Prop)
    (f : A -> B -> A) (l : list B) (init : A),
  (forall acc x, In x l -> Inv acc -> Inv (f acc x)) ->
  Inv init -> Inv (fold_left f l init).
Proof.
  intros A B Inv f. induction l as [|x l IH]; intros init Step H; [exact H|].
  simpl. apply IH.
  - intros acc y Hy. apply Step. right. exact Hy.
  - apply Step; [left; reflexivity | exact H].
Qed.

Lemma Map_set_keys : forall V (m : Map V) x v k,
  In k (Map_keys (Map_set m x v)) -> In k (Map_keys m) \/ k = x.
Proof.
  intros V. induction m as [|[k' v'] m IH]; intros x v k H; simpl in *.
  - destruct H as [<-|[]]. auto.
  - destruct (streq k' x); simpl in H.
    + destruct H; auto.
    + destruct H as [H|H]; [auto|]. destruct (IH _ _ _ H); auto.
Qed.

Lemma record_keys : forall foundVars x file k,
  In k (Map_keys (record foundVars x file)) ->
  In k (Map_keys foundVars) \/ k = x.
Proof.
  intros foundVars x file k H. unfold record in H.
  set (fv := if negb (Map_has foundVars x) then Map_set foundVars x []
             else foundVars) in H.
  assert (F : In k (Map_keys fv) -> In k (Map_keys foundVars) \/ k = x).
  { subst fv. destruct (negb (Map_has foundVars x)); [|auto].
    apply Map_set_keys. }
  destruct (Map_get fv x) as [files|]; [|auto].
  apply Map_set_keys in H. destruct H; auto.
Qed.

Lemma record_invariant : forall (P : jsstring -> Prop) foundVars x file,
  P x -> Forall P (Map_keys foundVars) ->
  Forall P (Map_keys (record foundVars x file)).
Proof.
  intros P foundVars x file Px F. apply Forall_forall. intros k H.
  apply record_keys in H. destruct H as [H| ->]; [|exact Px].
  from_forall F H.
Qed.

Lemma scanMatch_invariant : forall file foundVars varName,
  isVariableName varName = true ->
  Forall deepName (Map_keys foundVars) ->
  Forall deepName (Map_keys (scanMatch file foundVars varName)).
Proof.
  intros file foundVars varName S F. unfold scanMatch.
  destruct (isEmpty varName); [exact F|].
  destruct (Set_has BLACKLIST varName) eqn:B; [exact F|].
  destruct (length varName <? 3)%nat eqn:L; [exact F|].
  apply record_invariant; [|exact F].
  apply Nat.ltb_ge in L. repeat split; assumption.
Qed.

Lemma scanFile_invariant : forall skipSelfFiles foundVars f,
  Forall deepName (Map_keys foundVars) ->
  Forall deepName (Map_keys (scanFile skipSelfFiles foundVars f)).
Proof.
  intros skipSelfFiles foundVars f F. unfold scanFile.
  destruct (skipSelfFiles && Set_has SELF_IGNORE_FILES (relPath f));
    [exact F|].
  destruct (streq (basename f) (str ".env")
            || streq (basename f) (str ".env.local")); [exact F|].
  destruct (content f) as [text|]; [|exact F].
  apply (fold_left_invariant _ _
           (fun fv => Forall deepName (Map_keys fv))); [|exact F].
  intros acc regex Hr Hacc.
  apply (fold_left_invariant _ _
           (fun fv => Forall deepName (Map_keys fv))); [|exact Hacc].
  intros acc' varName Hv Hacc'. apply scanMatch_invariant; [|exact Hacc'].
  apply (proj1 (Forall_forall _ _) ENV_PATTERNS_groups regex Hr).
  apply (execAll_captures _ _ _ _ _ Hv).
Qed.

Lemma extractLine_invariant : forall keys line,
  Forall shallowName keys -> Forall shallowName (extractLine keys line).
Proof.
  intros keys line F. unfold extractLine.
  destruct (isEmpty (trim line) || startsWith HASH (trim line)); [exact F|].
  destruct (indexOf EQUALS (trim line)) as [i|]; [|exact F].
  set (key := trim (substringTo i (trim line))).
  destruct (isEmpty key); [exact F|].
  destruct (testVarName key) eqn:T; cbn [negb]; [|exact F].
  destruct (Set_has BLACKLIST key) eqn:B; [exact F|].
  apply Forall_forall. intros k H. apply Set_add_In in H.
  destruct H as [H| ->]; [from_forall F H|].
  apply testVarName_shape in T.
  repeat split; [exact T | apply isVariableName_length, T | exact B].
Qed.

Lemma extractEnvKeysFromContent_names : forall content,
  Forall shallowName (extractEnvKeysFromContent content).
Proof.
  intros content. unfold extractEnvKeysFromContent.
  apply (fold_left_invariant _ _ (Forall shallowName)); [|constructor].
  intros acc line _ H. apply extractLine_invariant, H.
Qed.

(** C8 (as amended).  Every name of a deep scan has the shape of an
    upper-case letter followed by one or more upper-case letters, digits or
    underscores, has at least three code units and is not on the deny-list.
    Every name of a shallow scan has that shape, hence at least two code
    units, and is not on the deny-list. *)
Theorem C8_scan_names_filtered :
  (forall (skipSelfFiles : bool) (files : list SourceFile) (k : jsstring),
     In k (Map_keys (scanCodebase skipSelfFiles files)) ->
     isVariableName k = true /\ (3 <= length k)%nat
     /\ Set_has BLACKLIST k = false)
  /\ (forall (fs : FS) (cwd k : jsstring),
        In k (Map_keys (scanEnvFilesOnly fs cwd)) ->
        isVariableName k = true /\ (2 <= length k)%nat
        /\ Set_has BLACKLIST k = false).
Proof.
  split.
  - intros skipSelfFiles files k H.
    assert (F : Forall deepName (Map_keys (scanCodebase skipSelfFiles files))).
    { unfold scanCodebase.
      apply (fold_left_invariant _ _
               (fun fv => Forall deepName (Map_keys fv))); [|constructor].
      intros acc f _ Hacc. apply scanFile_invariant, Hacc. }
    from_forall F H.
  - intros fs cwd k H.
    assert (F : Forall shallowName (Map_keys (scanEnvFilesOnly fs cwd))).
    { unfold scanEnvFilesOnly.
      apply (fold_left_invariant _ _
               (fun fv => Forall shallowName (Map_keys fv))); [|constructor].
      intros acc file _ Hacc.
      destruct (fs (pathJoin cwd file)) as [text|]; [|exact Hacc].
      apply (fold_left_invariant _ _
               (fun fv => Forall shallowName (Map_keys fv))); [|exact Hacc].
      intros acc' key Hk Hacc'. apply record_invariant; [|exact Hacc'].
      from_forall (extractEnvKeysFromContent_names text) Hk. }
    from_forall F H.
Qed.

(* ================================================================== *)
(** ** The properties at the sample inputs *)

Lemma fileKey_B : fileKey (str "B").
Proof.
  repeat split; try reflexivity; simpl; intros [H|[]]; discriminate.
Defined.

Lemma fileKey_D : fileKey (str "D").
Proof.
  repeat split; try reflexivity; simpl; intros [H|[]]; discriminate.
Defined.

Lemma cleanKey_KEY : cleanKey KEY.
Proof.
  repeat split; try reflexivity. simpl. intros [H|[H|[H|[]]]]; discriminate.
Qed.

(** C2 at the same file: the comment line stands where it stood. *)
Lemma C2_witness :
  fsWith abcContent envPath = Some abcContent
  /\ keyOccurs (str "B") (split_nl abcContent) = true
  /\ exists out,
       fst (writeEnvFile (fsWith abcContent) envPath
              [(str "B", str "new")] []) envPath = Some out
       /\ nth_error (split_nl out) 1 = Some (str "# the middle one")
       /\ nth_error (split_nl out) 3 = Some (str "C=3").
Proof.
  split; [reflexivity|]. split; [reflexivity|].
  destruct (C2_other_lines_untouched
              (fsWith abcContent) envPath [] abcContent (str "B") (str "new")
              eq_refl eq_refl)
    as (out & W & _ & Keep & _).
  exists out. split; [exact W|]. split.
  - apply (Keep 1%nat (str "# the middle one")); [reflexivity|].
    left. reflexivity.
  - apply (Keep 3%nat (str "C=3")); [reflexivity|].
    right. exists (str "C"). split; [reflexivity | discriminate].
Defined.

(** C3 at a configuration that declares FOO with no value. *)
Lemma C3_witness :
  Map_get (parseContent (str "FOO=")) (str "FOO") = Some []
  /\ hasUsableValue (parseContent (str "FOO=")) (str "FOO") = false
  /\ hasUsableValue (parseContent (str "FOO=")) (str "BAR") = false.
Proof.
  split; [reflexivity|].
  destruct (C3_reconciliation_counts [] (parseContent (str "FOO=")))
    as (_ & Absent & Blank & _).
  split.
  - apply (Blank (str "FOO") []); reflexivity.
  - apply (Absent (str "BAR")). reflexivity.
Defined.

(** C4 (as amended) at the key KEY and the value [hello world]. *)
Lemma C4_witness :
  parseLine (keyLine KEY (Some helloWorld)) = Some (KEY, helloWorld)
  /\ escapeValue helloWorld = helloWorld.
Proof.
  destruct C4_quoting_and_parse_back as (_ & _ & _ & _ & Parse & Plain).
  split.
  - exact (Parse KEY helloWorld cleanKey_KEY).
  - apply Plain; simpl; intuition discriminate.
Defined.

(** C4: the parser does not give back the value [say "hi"]. *)
Lemma C4_counterexample :
  formatValue (Some sayHi) = DQUOTE :: sayHiEscaped ++ [DQUOTE]
  /\ Map_get (parseContent (keyLine KEY (Some sayHi))) KEY
     = Some sayHiEscaped
  /\ Map_get (parseContent (keyLine KEY (Some sayHi))) KEY <> Some sayHi.
Proof.
  split; [reflexivity|]. split; [reflexivity|]. discriminate.
Qed.

(** C5: the empty string is not written as a pair of double quotes. *)
Lemma C5_counterexample :
  formatValue (Some []) <> [DQUOTE; DQUOTE]
  /\ keyLine KEY (Some []) = str "KEY=".
Proof. split; [discriminate | reflexivity]. Qed.

(** C6 (as amended) at a missing file and at a file ending in a key line. *)
Lemma C6_witness :
  ws_lines (writeState None updateB_addD) =
    [str "B=" ++ [DQUOTE] ++ str "x y" ++ [DQUOTE]; str "D=4"]
  /\ blankBefore [] = [].
Proof.
  destruct (C6_blank_line_is_the_only_separator None updateB_addD)
    as (Shape & _ & _ & Missing & _).
  split; [exact Shape|].
  apply Missing. left. reflexivity.
Defined.

(** C6: a key is appended to a non-empty file and no comment line is
    inserted; the written file is the old line, an empty line and the new
    line. *)
Lemma C6_counterexample :
  ws_appendKeys (writeState (Some (str "A=1")) [(str "D", str "4")])
    = [(str "D", str "4")]
  /\ ws_lines (writeState (Some (str "A=1")) [(str "D", str "4")])
     = [str "A=1"; []; str "D=4"]
  /\ existsb isComment
       (ws_lines (writeState (Some (str "A=1")) [(str "D", str "4")]))
     = false
  /\ fst (writeEnvFile (fsWith (str "A=1")) envPath [(str "D", str "4")] [])
       envPath
     = Some (join_nl [str "A=1"; []; str "D=4"; []]).
Proof. repeat split. Qed.

(** C8 (as amended) at the file of the end-to-end scenario. *)
Lemma C8_witness :
  In (str "API_KEY") (Map_keys (scanCodebase false [appPy]))
  /\ isVariableName (str "API_KEY") = true
  /\ (3 <= length (str "API_KEY"))%nat
  /\ Set_has BLACKLIST (str "API_KEY") = false.
Proof.
  assert (H : In (str "API_KEY") (Map_keys (scanCodebase false [appPy])))
    by (left; reflexivity).
  split; [exact H|].
  exact (proj1 C8_scan_names_filtered false [appPy] (str "API_KEY") H).
Defined.

(** C8: a shallow scan keeps the two-letter name AB. *)
Lemma C8_counterexample :
  In (str "AB") (Map_keys (scanEnvFilesOnly (fsWith (str "AB=1"))
                             (str "/project")))
  /\ length (str "AB") = 2%nat
  /\ ~ (3 <= length (str "AB"))%nat.
Proof.
  split; [left; reflexivity|]. split; [reflexivity|]. simpl. lia.
Qed.

(** C9 (as amended) at a value with a dollar sign. *)
Lemma C9_witness :
  formatValue (Some dollarValue) = quoted dollarValue
  /\ formatValue (Some KEY) = KEY.
Proof.
  split.
  - apply (proj1 (C9_quotes_exactly_on_trigger dollarValue)).
    exists DOLLAR. split; [right; left; reflexivity | right; reflexivity].
  - apply (proj1 (proj2 (C9_quotes_exactly_on_trigger KEY))).
    intros (c & H & T). assert (Q : needsQuotes (Some KEY) = true)
      by (apply needsQuotes_iff; exists c; split; assumption).
    discriminate Q.
Defined.

(** C9: a value with a dollar sign holds none of the characters the claim
    lists and is written between quotes. *)
Lemma C9_counterexample :
  (forall c, In c dollarValue -> ~ spec_quoteTrigger c)
  /\ formatValue (Some dollarValue) = DQUOTE :: dollarValue ++ [DQUOTE]
  /\ formatValue (Some dollarValue) <> dollarValue.
Proof.
  split; [|split; [reflexivity | discriminate]].
  intros c H T. simpl in H.
  destruct H as [<-|[<-|[<-|[]]]];
    unfold spec_quoteTrigger in T;
    repeat (destruct T as [T|T]; try discriminate T).
Qed.

(* ================================================================== *)
(** ** The writer on any file state *)

Lemma spec_absent_nil : forall newVars, spec_absent newVars [] = newVars.
Proof.
  intros newVars. unfold spec_absent.
  induction newVars as [|a m IH]; [reflexivity|].
  cbn. f_equal. exact IH.
Qed.

(** The lines joined, the appended entries and the updated keys, whether
    the file exists or not. *)
Lemma writeState_any : forall file newVars,
  let lines := linesOf file in
  let st := writeState file newVars in
  ws_lines st =
    List.map (spec_replaceLine newVars) lines
    ++ match spec_absent newVars lines with
       | [] => []
       | _ :: _ =>
           blankBefore (List.map (spec_replaceLine newVars) lines)
           ++ List.map (fun kv => keyLine (fst kv) (Some (snd kv)))
                (spec_absent newVars lines)
       end
  /\ ws_appendKeys st = spec_absent newVars lines
  /\ NoDup (ws_updatedKeys st)
  /\ (forall k, In k (ws_updatedKeys st) <->
                Map_has newVars k = true /\ keyOccurs k lines = true).
Proof.
  intros [content|] newVars; cbv zeta.
  - destruct (writeState_existing content newVars) as (_ & W2 & W3).
    split; [apply writeState_shape|]. split; [exact W2|].
    rewrite W3. split; [apply updateLines_NoDup; constructor|].
    intros k. rewrite updateLines_keys. simpl. tauto.
  - destruct (writeState_missing newVars) as (W1 & W2 & W3).
    rewrite W1, W2, W3. simpl linesOf. rewrite spec_absent_nil.
    split; [destruct newVars; reflexivity|].
    split; [reflexivity|]. split; [constructor|].
    intros k. simpl. intuition discriminate.
Qed.

(** The updated keys and the appended entries split the entries. *)
Lemma updated_appended_count : forall (newVars : Map jsstring) (u : JSSet),
  Map_wf newVars -> NoDup u ->
  (forall k, In k u -> In k (Map_keys newVars)) ->
  (length u + length (collectAppend newVars u))%nat = length newVars.
Proof.
  intros newVars u Wf ND Sub.
  assert (P : length u =
              length (filter (fun kv : jsstring * jsstring =>
                                Set_has u (fst kv)) newVars)).
  { apply Nat.le_antisymm.
    - rewrite <- (length_map fst (filter _ newVars)).
      apply NoDup_incl_length; [exact ND|].
      intros x Hx. specialize (Sub x Hx). unfold Map_keys in Sub.
      apply in_map_iff in Sub. destruct Sub as ([x' w] & <- & Hin).
      apply in_map_iff. exists (x', w). split; [reflexivity|].
      apply filter_In. split; [exact Hin|]. apply Set_has_In. exact Hx.
    - rewrite <- (length_map fst).
      apply NoDup_incl_length; [apply NoDup_filter_keys; exact Wf|].
      intros x Hx. apply in_map_iff in Hx.
      destruct Hx as ([x' w] & <- & H). apply filter_In in H.
      apply Set_has_In. tauto. }
  rewrite P. unfold collectAppend. clear.
  induction newVars as [|a m IH]; [reflexivity|].
  simpl. destruct (Set_has u (fst a)); simpl; lia.
Qed.

(** X1.  Whatever the file holds, and whether it exists or not, the count
    [writeEnvFile] returns is the number of entries it was given: every
    entry is either updated in place or appended, never both and never
    neither. *)
Theorem X1_writeEnvFile_returns_number_of_entries :
  forall (fs : FS) (path : jsstring) (newVars existing : Map jsstring),
    Map_wf newVars ->
    snd (writeEnvFile fs path newVars existing) = Map_size newVars.
Proof.
  intros fs path newVars existing Wf. unfold writeEnvFile. simpl snd.
  rewrite writeState_append. unfold Set_size, Map_size.
  destruct (writeState_any (fs path) newVars) as (_ & _ & ND & Keys).
  apply updated_appended_count; [exact Wf | exact ND|].
  intros k Hk. apply Keys in Hk. apply Map_has_In. tauto.
Qed.

Lemma strip_not_ending_NL : forall s,
  endsWith NL (stripTrailingNewlines s) = false.
Proof.
  unfold endsWith.
  induction s as [|c s IH]; [reflexivity|]. simpl.
  destruct (stripTrailingNewlines s) as [|x r] eqn:E.
  - destruct (c =? NL) eqn:C; [reflexivity|]. simpl. exact C.
  - change (rev (c :: x :: r)) with (rev (x :: r) ++ [c]).
    destruct (rev (x :: r)) as [|y t] eqn:R.
    + apply (f_equal (@length _)) in R. rewrite length_rev in R.
      discriminate R.
    + exact IH.
Qed.

(** X2.  The file [writeEnvFile] writes ends with exactly one newline: the
    content is a body that does not end in a newline, followed by one. *)
Theorem X2_written_file_ends_with_one_newline :
  forall (fs : FS) (path : jsstring) (newVars existing : Map jsstring),
    exists body,
      fst (writeEnvFile fs path newVars existing) path = Some (body ++ [NL])
      /\ endsWith NL body = false.
Proof.
  intros fs path newVars existing.
  exists (stripTrailingNewlines
            (join_nl (ws_lines (writeState (fs path) newVars)))).
  split; [apply writeEnvFile_written | apply strip_not_ending_NL].
Qed.

(* ================================================================== *)
(** ** Looking a key up in the parsed configuration *)

Lemma streq_sym : forall a b, streq a b = streq b a.
Proof.
  intros a b. destruct (streq a b) eqn:E.
  - apply streq_eq in E. subst. symmetry. apply streq_refl.
  - destruct (streq b a) eqn:E'; [|reflexivity].
    apply streq_eq in E'. subst. rewrite streq_refl in E. discriminate.
Qed.

Lemma Map_get_set : forall V (m : Map V) k v k',
  Map_get (Map_set m k v) k' = if streq k k' then Some v else Map_get m k'.
Proof.
  intros V. induction m as [|[k0 v0] m IH]; intros k v k'; simpl.
  - reflexivity.
  - destruct (streq k0 k) eqn:E; simpl.
    + apply streq_eq in E. subst k0. destruct (streq k k'); reflexivity.
    + rewrite IH. destruct (streq k0 k') eqn:E'; [|reflexivity].
      apply streq_eq in E'. subst k0. rewrite streq_sym, E. reflexivity.
Qed.

Lemma Map_set_keys_eq : forall V (m : Map V) k v,
  Map_keys (Map_set m k v) =
  if Map_has m k then Map_keys m else Map_keys m ++ [k].
Proof.
  intros V. induction m as [|[k0 v0] m IH]; intros k v; simpl.
  - reflexivity.
  - destruct (streq k0 k) eqn:E; simpl; [reflexivity|].
    rewrite IH. destruct (Map_has m k); reflexivity.
Qed.

Lemma Map_set_wf : forall V (m : Map V) k v,
  Map_wf m -> Map_wf (Map_set m k v).
Proof.
  intros V m k v W. unfold Map_wf in *. rewrite Map_set_keys_eq.
  destruct (Map_has m k) eqn:H; [exact W|].
  apply NoDup_app; [exact W | repeat constructor; simpl; tauto|].
  intros x Hx [<-|[]]. apply Map_has_In in Hx. congruence.
Qed.

Lemma Map_get_In_rev : forall V (m : Map V) k v,
  Map_get m k = Some v -> In (k, v) m.
Proof.
  intros V. induction m as [|[k0 v0] m IH]; intros k v H; simpl in H.
  - discriminate.
  - destruct (streq k0 k) eqn:E.
    + apply streq_eq in E. injection H as <-. subst. left. reflexivity.
    + right. apply IH, H.
Qed.

Lemma parseContent_fold : forall content,
  parseContent content = fold_left parseStep (split_nl content) [].
Proof. reflexivity. Qed.

Lemma parse_fold_get : forall lines m k,
  Map_get (fold_left parseStep lines m) k =
  match lastValue k lines with
  | Some v => Some v
  | None => Map_get m k
  end.
Proof.
  induction lines as [|l rest IH]; intros m k; [reflexivity|].
  simpl. rewrite IH. destruct (lastValue k rest); [reflexivity|].
  unfold parseStep. destruct (parseLine l) as [[k' v]|]; [|reflexivity].
  rewrite Map_get_set. destruct (streq k' k); reflexivity.
Qed.

Lemma parse_fold_wf : forall lines m,
  Map_wf m -> Map_wf (fold_left parseStep lines m).
Proof.
  induction lines as [|l rest IH]; intros m W; [exact W|].
  simpl. apply IH. unfold parseStep.
  destruct (parseLine l) as [[k v]|]; [apply Map_set_wf, W | exact W].
Qed.

(** The parser and the writer read the key of a line the same way. *)
Lemma parseLine_lineKey : forall l,
  lineKey l = option_map fst (parseLine l).
Proof.
  intros l. unfold lineKey, parseLine.
  destruct (isEmpty (trim l) || startsWith HASH (trim l)); [reflexivity|].
  destruct (indexOf EQUALS (trim l)); reflexivity.
Qed.

Lemma lastValue_app : forall k a b,
  lastValue k (a ++ b) =
  match lastValue k b with
  | Some v => Some v
  | None => lastValue k a
  end.
Proof.
  intros k. induction a as [|l a IH]; intros b; simpl.
  - destruct (lastValue k b); reflexivity.
  - rewrite IH. destruct (lastValue k b); reflexivity.
Qed.

Lemma lastValue_None : forall k lines,
  lastValue k lines = None <-> keyOccurs k lines = false.
Proof.
  intros k. unfold keyOccurs.
  induction lines as [|l rest IH]; simpl; [tauto|].
  unfold hasKey at 1. rewrite parseLine_lineKey.
  rewrite orb_false_iff, <- IH.
  destruct (lastValue k rest) as [v|].
  - split; [discriminate | intros [_ H]; discriminate].
  - destruct (parseLine l) as [[k' v]|]; simpl; [|tauto].
    destruct (streq k' k); split; try tauto; try discriminate.
    intros [H _]. discriminate.
Qed.

Lemma parseContent_get : forall content k,
  Map_get (parseContent content) k = lastValue k (split_nl content).
Proof.
  intros content k. rewrite parseContent_fold, parse_fold_get.
  destruct (lastValue k (split_nl content)); reflexivity.
Qed.

Lemma parseContent_has : forall content k,
  Map_has (parseContent content) k = keyOccurs k (split_nl content).
Proof.
  intros content k.
  destruct (keyOccurs k (split_nl content)) eqn:O.
  - apply Map_has_get. rewrite parseContent_get.
    destruct (lastValue k (split_nl content)) as [v|] eqn:L; [eauto|].
    apply lastValue_None in L. congruence.
  - apply Map_has_false_get. rewrite parseContent_get.
    apply lastValue_None. exact O.
Qed.

Lemma parseExistingEnv_existing : forall fs path content,
  fs path = Some content -> parseExistingEnv fs path = parseContent content.
Proof.
  intros fs path content H. unfold parseExistingEnv, existsSync.
  rewrite H. reflexivity.
Qed.

(** X3.  The parser and the writer agree on what is in a file: the parsed
    configuration has each key once, and has a key exactly when a line of
    the file carries it; the writer updates in place exactly the entries
    whose key the parser reports and appends exactly the others. *)
Theorem X3_writer_appends_what_parser_does_not_report :
  forall (fs : FS) (path content : jsstring) (newVars : Map jsstring),
    fs path = Some content ->
    let parsed := parseExistingEnv fs path in
    let st := writeState (fs path) newVars in
    Map_wf parsed
    /\ (forall k, Map_has parsed k = true
                  <-> exists l, In l (split_nl content) /\ lineKey l = Some k)
    /\ (forall k, In k (ws_updatedKeys st)
                  <-> Map_has newVars k = true /\ Map_has parsed k = true)
    /\ ws_appendKeys st
       = filter (fun kv => negb (Map_has parsed (fst kv))) newVars.
Proof.
  intros fs path content newVars Hfs parsed st. subst parsed st.
  rewrite (parseExistingEnv_existing fs path content Hfs), Hfs.
  destruct (writeState_any (Some content) newVars) as (_ & App & _ & Keys).
  simpl linesOf in App, Keys.
  split; [rewrite parseContent_fold; apply parse_fold_wf; constructor|].
  split; [intros k; rewrite parseContent_has; apply keyOccurs_true|].
  split.
  - intros k. rewrite Keys, parseContent_has. tauto.
  - rewrite App. unfold spec_absent. apply filter_ext.
    intros kv. rewrite parseContent_has. reflexivity.
Qed.

(** X4.  The last assignment wins: the parsed value of a key is the value
    of the last line of the file that carries the key. *)
Theorem X4_parser_last_assignment_wins :
  forall (content : jsstring) (before after : list jsstring)
         (l k v : jsstring),
    split_nl content = before ++ l :: after ->
    parseLine l = Some (k, v) ->
    keyOccurs k after = false ->
    Map_get (parseContent content) k = Some v.
Proof.
  intros content before after l k v S P O.
  rewrite parseContent_get, S, lastValue_app. simpl.
  apply lastValue_None in O. rewrite O, P, streq_refl.
  reflexivity.
Qed.

(* ================================================================== *)
(** ** Reading a written file back *)

Lemma fileKey_split : forall keys,
  Forall fileKey keys -> Forall cleanKey keys /\ Forall noNewline keys.
Proof.
  intros keys F. split; apply Forall_forall; intros x Hx;
    apply (proj1 (Forall_forall _ _) F x Hx).
Qed.

Lemma linesOf_noNewline : forall file, Forall noNewline (linesOf file).
Proof.
  intros [content|]; [apply split_nl_noNewline | constructor].
Qed.

Lemma writeState_noNewline_any : forall file newVars,
  Forall noNewline (Map_keys newVars) ->
  Forall noNewline (ws_lines (writeState file newVars)).
Proof.
  intros file newVars K.
  destruct (writeState_any file newVars) as (Shape & _). rewrite Shape.
  apply Forall_app. split.
  - apply Forall_forall. intros x Hx. apply in_map_iff in Hx.
    destruct Hx as (l & <- & Hl). apply spec_replaceLine_noNewline.
    from_forall (linesOf_noNewline file) Hl.
  - destruct (spec_absent newVars (linesOf file)) as [|a r] eqn:A;
      [constructor|].
    apply Forall_app. split; [apply blankBefore_noNewline|].
    rewrite <- A. apply Forall_forall. intros x Hx. apply in_map_iff in Hx.
    destruct Hx as ([k v] & <- & Hkv). apply keyLine_noNewline. simpl.
    apply filter_In in Hkv. destruct Hkv as [Hkv _].
    apply (in_map fst) in Hkv. from_forall K Hkv.
Qed.

Lemma lastValue_repeat_nil : forall k n, lastValue k (repeat [] n) = None.
Proof. intros k. induction n as [|n IH]; simpl; [|rewrite IH]; reflexivity. Qed.

(** Joining, trimming the end and splitting again loses no assignment. *)
Lemma lastValue_written : forall k ls,
  Forall noNewline ls ->
  lastValue k (split_nl (finalContent ls)) = lastValue k ls.
Proof.
  intros k ls F. rewrite finalContent_lines by exact F.
  destruct (dropTrailingEmpty_prefix ls) as (n & P).
  rewrite P at 2. rewrite lastValue_app, lastValue_repeat_nil.
  destruct (dropTrailingEmpty ls) as [|x xs]; [reflexivity|].
  rewrite lastValue_app. reflexivity.
Qed.

Lemma lastValue_all_same : forall k line w lines,
  parseLine line = Some (k, w) ->
  (forall l, In l lines -> lineKey l = Some k -> l = line) ->
  (exists l, In l lines /\ lineKey l = Some k) ->
  lastValue k lines = Some w.
Proof.
  intros k line w. induction lines as [|l rest IH]; intros P Same Ex.
  - destruct Ex as (l & [] & _).
  - simpl. destruct (keyOccurs k rest) eqn:O.
    + rewrite IH; [reflexivity | exact P | |].
      * intros l' Hl'. apply Same. right. exact Hl'.
      * apply keyOccurs_true. exact O.
    + apply lastValue_None in O. rewrite O.
      destruct Ex as (l' & [<-|Hl'] & K).
      * rewrite (Same l (or_introl eq_refl) K), P, streq_refl. reflexivity.
      * exfalso. apply lastValue_None in O.
        assert (T : keyOccurs k rest = true)
          by (apply keyOccurs_true; eauto).
        congruence.
Qed.

(** The lines of a written key all carry the written value. *)
Lemma written_lines_of_key : forall file newVars k v l,
  Forall cleanKey (Map_keys newVars) -> Map_wf newVars ->
  Map_get newVars k = Some v ->
  In l (ws_lines (writeState file newVars)) -> lineKey l = Some k ->
  l = keyLine k (Some v).
Proof.
  intros file newVars k v l Clean Wf G Hl K.
  destruct (writeState_any file newVars) as (Shape & _).
  rewrite Shape in Hl. apply in_app_or in Hl. destruct Hl as [Hl|Hl].
  - apply in_map_iff in Hl. destruct Hl as (l0 & <- & _).
    rewrite spec_replaceLine_key in K. unfold spec_replaceLine.
    rewrite K, G. reflexivity.
  - destruct (spec_absent newVars (linesOf file)) as [|a r] eqn:A;
      [destruct Hl|].
    apply in_app_or in Hl. destruct Hl as [Hl|Hl].
    + unfold blankBefore in Hl.
      destruct (rev _) as [|x t]; [destruct Hl|].
      destruct (negb (isEmpty x)); [|destruct Hl].
      destruct Hl as [<-|[]]. discriminate K.
    + rewrite <- A in Hl. apply in_map_iff in Hl.
      destruct Hl as ([k' v'] & <- & Hkv). simpl in *.
      apply filter_In in Hkv. destruct Hkv as [Hkv _].
      assert (C : cleanKey k')
        by (apply (in_map fst) in Hkv; from_forall Clean Hkv).
      rewrite (lineKey_keyLine k' (Some v') C) in K. injection K as ->.
      rewrite (Map_get_In _ newVars k v' Wf Hkv) in G. injection G as ->.
      reflexivity.
Qed.

(** A written key is on a line. *)
Lemma written_key_present : forall file newVars k v,
  Forall cleanKey (Map_keys newVars) ->
  Map_get newVars k = Some v ->
  exists l, In l (ws_lines (writeState file newVars)) /\ lineKey l = Some k.
Proof.
  intros file newVars k v Clean G.
  destruct (writeState_any file newVars) as (Shape & _). rewrite Shape.
  destruct (keyOccurs k (linesOf file)) eqn:O.
  - apply keyOccurs_true in O. destruct O as (l0 & Hl0 & K).
    exists (spec_replaceLine newVars l0). split.
    + apply in_or_app. left. apply in_map. exact Hl0.
    + rewrite spec_replaceLine_key. exact K.
  - assert (Hin : In (k, v) (spec_absent newVars (linesOf file))).
    { apply filter_In. split; [apply Map_get_In_rev, G|]. simpl.
      rewrite O. reflexivity. }
    exists (keyLine k (Some v)). split.
    + apply in_or_app. right.
      destruct (spec_absent newVars (linesOf file)) as [|a r] eqn:A;
        [destruct Hin|].
      apply in_or_app. right. rewrite <- A in *.
      apply (in_map (fun kv : jsstring * jsstring =>
                       keyLine (fst kv) (Some (snd kv))) _ (k, v)).
      exact Hin.
    + apply lineKey_keyLine.
      apply Map_get_In_rev in G. apply (in_map fst) in G.
      from_forall Clean G.
Qed.

Lemma lastValue_skip : forall k (lines : list jsstring),
  (forall l, In l lines -> lineKey l <> Some k) -> lastValue k lines = None.
Proof.
  intros k lines H. apply lastValue_None.
  destruct (keyOccurs k lines) eqn:O; [|reflexivity].
  apply keyOccurs_true in O. destruct O as (l & Hl & K).
  exfalso. exact (H l Hl K).
Qed.

Lemma lastValue_replace_other : forall newVars k lines,
  Map_has newVars k = false ->
  lastValue k (List.map (spec_replaceLine newVars) lines) = lastValue k lines.
Proof.
  intros newVars k lines H. induction lines as [|l rest IH]; [reflexivity|].
  simpl. rewrite IH. destruct (lastValue k rest); [reflexivity|].
  unfold spec_replaceLine. destruct (lineKey l) as [k0|] eqn:K; [|reflexivity].
  destruct (Map_get newVars k0) as [v0|] eqn:G; [|reflexivity].
  assert (N : streq k0 k = false).
  { apply streq_neq. intros ->. apply Map_has_false_get in H. congruence. }
  assert (C := lineKey_cleanKey l k0 K).
  rewrite (parseLine_keyLine k0 v0 C), N.
  rewrite parseLine_lineKey in K.
  destruct (parseLine l) as [[k1 v1]|]; [|reflexivity].
  simpl in K. injection K as ->. rewrite N. reflexivity.
Qed.

(** The lines of the written file assign to a key that is not written what
    the lines of the old file assign to it. *)
Lemma written_other_key : forall file newVars k,
  Forall cleanKey (Map_keys newVars) ->
  Map_has newVars k = false ->
  lastValue k (ws_lines (writeState file newVars)) = lastValue k (linesOf file).
Proof.
  intros file newVars k Clean H.
  destruct (writeState_any file newVars) as (Shape & _). rewrite Shape.
  rewrite lastValue_app, lastValue_replace_other by exact H.
  rewrite lastValue_skip; [reflexivity|].
  intros l Hl K.
  destruct (spec_absent newVars (linesOf file)) as [|a r] eqn:A;
    [destruct Hl|].
  apply in_app_or in Hl. destruct Hl as [Hl|Hl].
  - unfold blankBefore in Hl.
    destruct (rev _) as [|x t]; [destruct Hl|].
    destruct (negb (isEmpty x)); [|destruct Hl].
    destruct Hl as [<-|[]]. discriminate K.
  - rewrite <- A in Hl. apply in_map_iff in Hl.
    destruct Hl as ([k' v'] & <- & Hkv). simpl in *.
    apply filter_In in Hkv. destruct Hkv as [Hkv _].
    apply (in_map fst) in Hkv. simpl in Hkv.
    assert (C : cleanKey k') by from_forall Clean Hkv.
    rewrite (lineKey_keyLine k' (Some v') C) in K. injection K as ->.
    apply Map_has_In in Hkv. congruence.
Qed.

Lemma parse_written : forall fs path newVars existing k,
  Forall noNewline (Map_keys newVars) ->
  Map_get (parseExistingEnv (fst (writeEnvFile fs path newVars existing)) path) k
  = lastValue k (ws_lines (writeState (fs path) newVars)).
Proof.
  intros fs path newVars existing k NoNl.
  rewrite (parseExistingEnv_existing _ path _
             (writeEnvFile_written fs path newVars existing)).
  rewrite parseContent_get.
  apply lastValue_written, writeState_noNewline_any, NoNl.
Qed.

Lemma parse_lastValue_any : forall fs path k,
  Map_get (parseExistingEnv fs path) k = lastValue k (linesOf (fs path)).
Proof.
  intros fs path k. destruct (fs path) as [content|] eqn:E.
  - rewrite (parseExistingEnv_existing fs path content E).
    apply parseContent_get.
  - rewrite parseExistingEnv_missing; [reflexivity|].
    unfold existsSync. rewrite E. reflexivity.
Qed.

Lemma read_back_key : forall fs path newVars existing k v,
  Forall fileKey (Map_keys newVars) -> Map_wf newVars ->
  Map_get newVars k = Some v ->
  Map_get (parseExistingEnv (fst (writeEnvFile fs path newVars existing)) path) k
  = Some (readBack v).
Proof.
  intros fs path newVars existing k v FK Wf G.
  destruct (fileKey_split _ FK) as [Clean NoNl].
  rewrite parse_written by exact NoNl.
  apply (lastValue_all_same k (keyLine k (Some v))).
  - apply parseLine_keyLine.
    apply Map_get_In_rev in G. apply (in_map fst) in G.
    from_forall Clean G.
  - intros l Hl K.
    exact (written_lines_of_key (fs path) newVars k v l Clean Wf G Hl K).
  - exact (written_key_present (fs path) newVars k v Clean G).
Qed.

Lemma read_back_other : forall fs path newVars existing k,
  Forall fileKey (Map_keys newVars) ->
  Map_has newVars k = false ->
  Map_get (parseExistingEnv (fst (writeEnvFile fs path newVars existing)) path) k
  = Map_get (parseExistingEnv fs path) k.
Proof.
  intros fs path newVars existing k FK H.
  destruct (fileKey_split _ FK) as [Clean NoNl].
  rewrite parse_written by exact NoNl.
  rewrite parse_lastValue_any.
  apply written_other_key; assumption.
Qed.

Lemma readBack_plain : forall v, plainValue v -> readBack v = v.
Proof.
  intros v (B & D & N). unfold readBack.
  destruct (needsQuotes (Some v)); [|reflexivity].
  apply escapeValue_plain; assumption.
Qed.

(* ================================================================== *)
(** ** Writing the same entries again *)

Lemma dropTrailingEmpty_idem : forall ls,
  dropTrailingEmpty (dropTrailingEmpty ls) = dropTrailingEmpty ls.
Proof.
  induction ls as [|l rest IH]; [reflexivity|]. simpl.
  destruct (dropTrailingEmpty rest) as [|x xs] eqn:E.
  - destruct l; reflexivity.
  - change (dropTrailingEmpty (l :: x :: xs))
      with (match dropTrailingEmpty (x :: xs) with
            | [] => if isEmpty l then [] else [l]
            | rest' => l :: rest'
            end).
    rewrite IH. reflexivity.
Qed.

Lemma dropTrailingEmpty_snoc_nil : forall ls,
  dropTrailingEmpty (ls ++ [[]]) = dropTrailingEmpty ls.
Proof.
  induction ls as [|l rest IH]; [reflexivity|].
  simpl. rewrite IH. reflexivity.
Qed.

Lemma dropTrailingEmpty_In : forall ls l,
  In l (dropTrailingEmpty ls) -> In l ls.
Proof.
  intros ls l H. destruct (dropTrailingEmpty_prefix ls) as (n & P).
  rewrite P. apply in_or_app. left. exact H.
Qed.

Lemma dropTrailingEmpty_keeps : forall ls l,
  In l ls -> l <> [] -> In l (dropTrailingEmpty ls).
Proof.
  intros ls l H N. apply In_nth_error in H. destruct H as (i & H).
  apply (nth_error_In _ i). apply dropTrailingEmpty_nth; assumption.
Qed.

(** The lines of a written file, as the next call splits them. *)
Lemma written_lines_again : forall ls l,
  Forall noNewline ls ->
  In l (split_nl (finalContent ls)) -> l = [] \/ In l ls.
Proof.
  intros ls l F H. rewrite finalContent_lines in H by exact F.
  destruct (dropTrailingEmpty ls) as [|x xs] eqn:E.
  - left. destruct H as [<-|[<-|[]]]; reflexivity.
  - apply in_app_or in H. destruct H as [H|[<-|[]]]; [|left; reflexivity].
    right. apply dropTrailingEmpty_In. rewrite E. exact H.
Qed.

Lemma written_lines_kept : forall ls l,
  Forall noNewline ls -> In l ls -> l <> [] ->
  In l (split_nl (finalContent ls)).
Proof.
  intros ls l F H N. rewrite finalContent_lines by exact F.
  assert (K := dropTrailingEmpty_keeps ls l H N).
  destruct (dropTrailingEmpty ls) as [|x xs]; [destruct K|].
  apply in_or_app. left. exact K.
Qed.

(** Normalising the end of a written file again changes nothing. *)
Lemma finalContent_again : forall ls,
  Forall noNewline ls ->
  finalContent (split_nl (finalContent ls)) = finalContent ls.
Proof.
  intros ls F. unfold finalContent at 1.
  rewrite strip_join by apply split_nl_noNewline.
  rewrite finalContent_lines by exact F.
  unfold finalContent. rewrite strip_join by exact F.
  destruct (dropTrailingEmpty ls) as [|x xs] eqn:E; [reflexivity|].
  rewrite dropTrailingEmpty_snoc_nil, <- E, dropTrailingEmpty_idem.
  reflexivity.
Qed.

Lemma filter_none : forall (A : Type) (f : A -> bool) (l : list A),
  (forall x, In x l -> f x = false) -> filter f l = [].
Proof.
  intros A f. induction l as [|a l IH]; intros H; [reflexivity|].
  simpl. rewrite (H a (or_introl eq_refl)). apply IH.
  intros x Hx. apply H. right. exact Hx.
Qed.

(** A second call finds every line as it would write it and every key on
    a line. *)
Lemma write_again_state : forall file newVars,
  Forall fileKey (Map_keys newVars) -> Map_wf newVars ->
  ws_lines (writeState
              (Some (finalContent (ws_lines (writeState file newVars))))
              newVars)
  = split_nl (finalContent (ws_lines (writeState file newVars))).
Proof.
  intros file newVars FK Wf.
  destruct (fileKey_split _ FK) as [Clean NoNl].
  set (L1 := ws_lines (writeState file newVars)).
  assert (F1 : Forall noNewline L1)
    by (apply writeState_noNewline_any; exact NoNl).
  rewrite writeState_shape. cbv zeta.
  set (lines2 := split_nl (finalContent L1)).
  assert (Fixed : List.map (spec_replaceLine newVars) lines2 = lines2).
  { rewrite <- (map_id lines2) at 2. apply map_ext_in. intros l Hl.
    destruct (written_lines_again L1 l F1 Hl) as [->|Hin]; [reflexivity|].
    unfold spec_replaceLine. destruct (lineKey l) as [k|] eqn:K; [|reflexivity].
    destruct (Map_get newVars k) as [v|] eqn:G; [|reflexivity].
    symmetry.
    exact (written_lines_of_key file newVars k v l Clean Wf G Hin K). }
  assert (NoAbsent : spec_absent newVars lines2 = []).
  { apply filter_none. intros [k v] Hkv. simpl.
    assert (G : exists v', Map_get newVars k = Some v').
    { apply Map_has_get, Map_has_In. apply (in_map fst) in Hkv. exact Hkv. }
    destruct G as (v' & G).
    destruct (written_key_present file newVars k v' Clean G) as (l & Hl & K).
    assert (O : keyOccurs k lines2 = true).
    { apply keyOccurs_true. exists l. split; [|exact K].
      apply written_lines_kept;
        [exact F1 | exact Hl | exact (lineKey_not_blank l k K)]. }
    rewrite O. reflexivity. }
  rewrite Fixed, NoAbsent. apply app_nil_r.
Qed.

(* ================================================================== *)
(** ** Saving confirmed values *)

Lemma onSetValue_disk : forall path st key value,
  st_disk (onSetValue path st key value)
  = fst (writeEnvFile (st_disk st) path [(key, value)] (st_existingEnv st)).
Proof.
  intros. unfold onSetValue. destruct (writeEnvFile _ _ _ _). reflexivity.
Qed.

Lemma onSetValue_env : forall path st key value,
  st_existingEnv (onSetValue path st key value)
  = Map_set (st_existingEnv st) key value.
Proof.
  intros. unfold onSetValue. destruct (writeEnvFile _ _ _ _). reflexivity.
Qed.

Lemma onSetValue_count : forall path st key value,
  st_savedCount (onSetValue path st key value) = S (st_savedCount st).
Proof.
  intros path st key value. unfold onSetValue.
  assert (C : snd (writeEnvFile (st_disk st) path [(key, value)]
                     (st_existingEnv st)) = 1%nat).
  { unfold writeEnvFile. simpl snd. rewrite writeState_append.
    apply (updated_appended_count [(key, value)]).
    - unfold Map_wf. simpl. constructor; [intros [] | constructor].
    - apply (writeState_any (st_disk st path) [(key, value)]).
    - intros k Hk.
      apply (writeState_any (st_disk st path) [(key, value)]) in Hk.
      apply Map_has_In. tauto. }
  destruct (writeEnvFile _ _ _ _) as [fs' written]. simpl in *.
  subst written. lia.
Qed.

Lemma singleton_keys : forall key value : jsstring,
  fileKey key ->
  Forall fileKey (Map_keys [(key, value)]) /\ Map_wf [(key, value)].
Proof.
  intros key value FK. split; [constructor; [exact FK | constructor]|].
  unfold Map_wf. simpl. constructor; [intros [] | constructor].
Qed.

(** One save keeps the memory and the file in agreement. *)
Lemma onSetValue_agree : forall path st key value k,
  fileKey key -> plainValue value ->
  (k <> key -> agreeOn st path k) ->
  agreeOn (onSetValue path st key value) path k.
Proof.
  intros path st key value k FK P A. unfold agreeOn.
  rewrite onSetValue_disk, onSetValue_env, Map_get_set.
  destruct (singleton_keys key value FK) as [FKs Wf].
  destruct (streq key k) eqn:E.
  - apply streq_eq in E. subst k.
    rewrite (read_back_key _ path [(key, value)] _ key value FKs Wf);
      [|simpl; rewrite streq_refl; reflexivity].
    rewrite (readBack_plain value P). reflexivity.
  - rewrite read_back_other; [|exact FKs|simpl; rewrite E; reflexivity].
    apply A. apply streq_neq in E. congruence.
Qed.

Lemma hasUsableValue_get : forall env k,
  hasUsableValue env k =
  match Map_get env k with
  | Some v => (0 <? length (trim v))%nat
  | None => false
  end.
Proof.
  intros env k. unfold hasUsableValue.
  destruct (Map_has env k) eqn:H; simpl; [reflexivity|].
  apply Map_has_false_get in H. rewrite H. reflexivity.
Qed.

Lemma filter_one_more : forall (f g : jsstring -> bool) key ks,
  NoDup ks -> In key ks -> f key = false -> g key = true ->
  (forall k, k <> key -> g k = f k) ->
  length (filter g ks) = S (length (filter f ks)).
Proof.
  intros f g key. induction ks as [|a ks IH]; intros ND Hin Ff Gk Same;
    [destruct Hin|].
  inversion ND as [|? ? Na ND']; subst. simpl.
  destruct Hin as [->|Hin].
  - rewrite Ff, Gk. simpl. f_equal.
    f_equal. apply filter_ext_in. intros k Hk. apply Same.
    intros ->. exact (Na Hk).
  - assert (a <> key) by (intros ->; exact (Na Hin)).
    rewrite (Same a H).
    destruct (f a); simpl; rewrite (IH ND' Hin Ff Gk Same); reflexivity.
Qed.

(** X9.  Progress after a save: when a discovered key that counted as
    missing is saved with a value that is not blank, the next summary has
    the same total, one more key already set and one fewer missing. *)
Theorem X9_saving_a_missing_key_moves_one_count :
  forall (path : jsstring) (st : State) (foundVars : ScanResult)
         (key value : jsstring),
    Map_wf foundVars ->
    In key (Map_keys foundVars) ->
    hasUsableValue (st_existingEnv st) key = false ->
    trim value <> [] ->
    let before := showScanResult foundVars (st_existingEnv st) in
    let after :=
      showScanResult foundVars
        (st_existingEnv (onSetValue path st key value)) in
    total after = total before
    /\ alreadySet after = S (alreadySet before)
    /\ missing after = (missing before - 1)%Z.
Proof.
  intros path st foundVars key value Wf Hin Miss NB before after.
  subst before after. rewrite onSetValue_env.
  assert (A : length (filter (hasUsableValue
                                (Map_set (st_existingEnv st) key value))
                             (Map_keys foundVars))
              = S (length (filter (hasUsableValue (st_existingEnv st))
                                  (Map_keys foundVars)))).
  { apply (filter_one_more _ _ key); [exact Wf | exact Hin | exact Miss | |].
    - rewrite hasUsableValue_get, Map_get_set, streq_refl.
      destruct (trim value); [congruence | reflexivity].
    - intros k Hk. rewrite !hasUsableValue_get, Map_get_set.
      destruct (streq key k) eqn:E; [|reflexivity].
      apply streq_eq in E. congruence. }
  unfold showScanResult. simpl. rewrite A.
  split; [reflexivity|]. split; [reflexivity|]. lia.
Qed.

(* ================================================================== *)
(** ** The example file *)

Lemma existingKeyStep_keys : forall line u k,
  In k (existingKeyStep u line) <->
  In k u \/ (k <> [] /\ lineKey line = Some k).
Proof.
  intros line u k. unfold existingKeyStep, lineKey.
  destruct (isEmpty (trim line) || startsWith HASH (trim line)).
  - split; [tauto | intros [H|[_ H]]; [exact H | discriminate]].
  - destruct (indexOf EQUALS (trim line)) as [i|].
    + set (key := trim (substringTo i (trim line))).
      destruct key as [|c key'] eqn:E; simpl.
      * split; [tauto | intros [H|[N H]]; [exact H|]].
        injection H as <-. congruence.
      * rewrite Set_add_In. split.
        -- intros [H| ->]; [tauto|]. right. split; [discriminate | reflexivity].
        -- intros [H|[_ H]]; [tauto|]. injection H as <-. tauto.
    + split; [tauto | intros [H|[_ H]]; [exact H | discriminate]].
Qed.

Lemma existingKeys_spec : forall lines u k,
  In k (fold_left existingKeyStep lines u) <->
  In k u \/ (k <> [] /\ keyOccurs k lines = true).
Proof.
  induction lines as [|l rest IH]; intros u k; simpl.
  - unfold keyOccurs. simpl. intuition discriminate.
  - rewrite IH, existingKeyStep_keys. unfold keyOccurs. simpl.
    rewrite orb_true_iff, hasKey_true. fold (keyOccurs k rest). tauto.
Qed.

Lemma syncToEnvExample_eq : forall fs examplePath keys,
  syncToEnvExample fs examplePath keys =
  match keysToAdd (fs examplePath) keys with
  | [] => (fs, O)
  | _ :: _ =>
      (writeFileSync fs examplePath
         (finalContent
            ((exampleLines (fs examplePath)
              ++ blankBeforeKeys (exampleLines (fs examplePath)))
             ++ List.map (fun key => key ++ [EQUALS])
                  (keysToAdd (fs examplePath) keys))),
       length (keysToAdd (fs examplePath) keys))
  end.
Proof.
  intros fs examplePath keys. unfold syncToEnvExample, keysToAdd.
  destruct (fs examplePath) as [content|]; reflexivity.
Qed.

Lemma includes_noNewline : forall l, includes NL l = false -> noNewline l.
Proof.
  intros l H A. unfold includes in H.
  assert (T : existsb (fun x => x =? NL) l = true).
  { apply existsb_exists. exists NL. split; [exact A | reflexivity]. }
  congruence.
Qed.

Lemma exampleLines_noNewline : forall file,
  Forall noNewline (exampleLines file).
Proof.
  intros [content|]; [apply split_nl_noNewline|].
  repeat constructor; apply includes_noNewline; reflexivity.
Qed.

Lemma syncLines_noNewline : forall file toAdd,
  Forall noNewline toAdd ->
  Forall noNewline
    ((exampleLines file ++ blankBeforeKeys (exampleLines file))
     ++ List.map (fun key : jsstring => key ++ [EQUALS]) toAdd).
Proof.
  intros file toAdd F. apply Forall_app. split.
  - apply Forall_app. split; [apply exampleLines_noNewline|].
    unfold blankBeforeKeys. destruct (rev _) as [|x r]; [constructor|].
    destruct (negb (isEmpty (trim x))); repeat constructor. intros [].
  - apply Forall_forall. intros x Hx. apply in_map_iff in Hx.
    destruct Hx as (k & <- & Hk). intros A. apply in_app_or in A.
    destruct A as [A|[A|[]]]; [|discriminate].
    exact (proj1 (Forall_forall _ _) F k Hk A).
Qed.

Lemma filter_noNewline : forall (f : jsstring -> bool) keys,
  Forall noNewline keys -> Forall noNewline (filter f keys).
Proof.
  intros f keys F. apply Forall_forall. intros x Hx.
  apply filter_In in Hx. from_forall F (proj1 Hx).
Qed.

(** After the call every key handed over is on a line of the example
    file. *)
Lemma sync_declares : forall fs examplePath keys k,
  Forall fileKey keys -> In k keys -> k <> [] ->
  exists content,
    fst (syncToEnvExample fs examplePath keys) examplePath = Some content
    /\ keyOccurs k (split_nl content) = true.
Proof.
  intros fs examplePath keys k FK Hk N.
  destruct (fileKey_split _ FK) as [Clean NoNl].
  rewrite syncToEnvExample_eq.
  destruct (Set_has (exampleKeys (fs examplePath)) k) eqn:Known.
  - (* the key was in the file *)
    apply Set_has_In in Known.
    destruct (fs examplePath) as [content|] eqn:E; [|destruct Known].
    simpl exampleKeys in Known. apply existingKeys_spec in Known.
    destruct Known as [[]|[_ O]].
    destruct (keysToAdd (Some content) keys) as [|a r] eqn:A.
    + exists content. split; [exact E | exact O].
    + eexists. split.
      * cbn [fst]. unfold writeFileSync. rewrite streq_refl. reflexivity.
      * apply keyOccurs_true in O. destruct O as (l & Hl & K).
        apply keyOccurs_true. exists l. split; [|exact K].
        apply written_lines_kept.
        -- rewrite <- A. apply (syncLines_noNewline (Some content)).
           apply filter_noNewline, NoNl.
        -- apply in_or_app. left. apply in_or_app. left. exact Hl.
        -- exact (lineKey_not_blank l k K).
  - (* the key is added *)
    assert (Add : In k (keysToAdd (fs examplePath) keys)).
    { apply filter_In. split; [exact Hk|]. rewrite Known. reflexivity. }
    destruct (keysToAdd (fs examplePath) keys) as [|a r] eqn:A;
      [destruct Add|].
    eexists. split.
    + cbn [fst]. unfold writeFileSync. rewrite streq_refl. reflexivity.
    + apply keyOccurs_true. exists (k ++ [EQUALS]). split.
      * apply written_lines_kept.
        -- rewrite <- A. apply syncLines_noNewline.
           apply filter_noNewline, NoNl.
        -- apply in_or_app. right.
           apply (in_map (fun key : jsstring => key ++ [EQUALS])).
           exact Add.
        -- destruct k; discriminate.
      * apply lineKey_keyed; [from_forall Clean Hk | exact I].
Qed.



(* ================================================================== *)
(** ** Windows line endings *)

Lemma trimStart_snoc_ws : forall c b,
  isWhiteSpace c = true ->
  trimStart (b ++ [c]) =
  match trimStart b with
  | [] => []
  | t => t ++ [c]
  end.
Proof.
  intros c b W. induction b as [|x b IH]; simpl.
  - rewrite W. reflexivity.
  - destruct (isWhiteSpace x); [exact IH | reflexivity].
Qed.

Lemma trimEnd_snoc_ws : forall c t,
  isWhiteSpace c = true -> trimEnd (t ++ [c]) = trimEnd t.
Proof.
  intros c t W. unfold trimEnd. rewrite rev_app_distr. simpl.
  rewrite W. reflexivity.
Qed.

Lemma trim_snoc_ws : forall c b,
  isWhiteSpace c = true -> trim (b ++ [c]) = trim b.
Proof.
  intros c b W. unfold trim. rewrite (trimStart_snoc_ws c b W).
  destruct (trimStart b) as [|x t]; [reflexivity|].
  apply trimEnd_snoc_ws, W.
Qed.

Lemma sameUpToCR_trim : forall a b, sameUpToCR a b -> trim a = trim b.
Proof.
  intros a b [->| ->]; [reflexivity|]. apply trim_snoc_ws. reflexivity.
Qed.

Lemma split_crlf : forall content,
  Forall2 sameUpToCR (split_nl (crlf content)) (split_nl content).
Proof.
  unfold crlf, replaceAll. intros text.
  induction text as [|x r IH]; simpl.
  - constructor; [left; reflexivity | constructor].
  - destruct (x =? NL) eqn:E; simpl.
    + constructor; [right; reflexivity | exact IH].
    + rewrite E.
      set (f := fun x : N => if x =? NL then [CR; NL] else [x]) in *.
      destruct (split_nl (flat_map f r)) as [|l ls];
        destruct (split_nl r) as [|l0 ls0]; inversion IH; subst.
      * constructor; [left; reflexivity | constructor].
      * constructor; [|assumption].
        match goal with
        | H : sameUpToCR l l0 |- _ => destruct H as [->| ->]
        end; [left | right]; reflexivity.
Qed.

Lemma fold_left_Forall2 : forall (A B : Type) (f : A -> B -> A) (l l' : list B),
  Forall2 (fun a b => forall acc, f acc a = f acc b) l l' ->
  forall init, fold_left f l init = fold_left f l' init.
Proof.
  intros A B f l l' H. induction H as [|a b l l' Hab _ IH]; intros init.
  - reflexivity.
  - simpl. rewrite Hab. apply IH.
Qed.

Lemma Forall2_weaken : forall (A : Type) (P Q : A -> A -> Prop) l l',
  (forall a b, P a b -> Q a b) -> Forall2 P l l' -> Forall2 Q l l'.
Proof.
  intros A P Q l l' H F. induction F; constructor; auto.
Qed.

(** X13.  Windows line endings make no difference to what is read: a file
    with a carriage return before every newline parses to the same
    configuration, and the shallow scan extracts the same keys from it. *)
Theorem X13_parser_ignores_windows_line_endings :
  forall (fs : FS) (path content : jsstring),
    fs path = Some content ->
    parseExistingEnv (writeFileSync fs path (crlf content)) path
    = parseExistingEnv fs path
    /\ extractEnvKeysFromContent (crlf content)
       = extractEnvKeysFromContent content.
Proof.
  intros fs path content Hfs. split.
  - rewrite (parseExistingEnv_existing fs path content Hfs).
    rewrite (parseExistingEnv_existing _ path (crlf content))
      by (unfold writeFileSync; rewrite streq_refl; reflexivity).
    rewrite !parseContent_fold. apply fold_left_Forall2.
    apply (Forall2_weaken _ sameUpToCR); [|apply split_crlf].
    intros a b S acc. unfold parseStep, parseLine.
    rewrite (sameUpToCR_trim a b S). reflexivity.
  - unfold extractEnvKeysFromContent. apply fold_left_Forall2.
    apply (Forall2_weaken _ sameUpToCR); [|apply split_crlf].
    intros a b S acc. unfold extractLine.
    rewrite (sameUpToCR_trim a b S). reflexivity.
Qed.

Lemma map_trim_crlf : forall content,
  List.map trim (split_nl (crlf content)) = List.map trim (split_nl content).
Proof.
  intros content. assert (H := split_crlf content).
  induction H as [|a b l l' Hab _ IH]; [reflexivity|].
  simpl. rewrite (sameUpToCR_trim a b Hab), IH. reflexivity.
Qed.

(** X14.  The gitignore check answers nothing when there is no gitignore
    file, and otherwise answers yes exactly when some line, once trimmed,
    is not a comment and is the base name of the env file, its path as
    given, [.env] or [.env*]; Windows line endings do not change the
    answer. *)
Theorem X14_gitignore_check :
  forall (fs : FS) (gitignorePath envBasename envFilePath : jsstring),
    (ensureGitignore fs gitignorePath envBasename envFilePath = None
     <-> fs gitignorePath = None)
    /\ (ensureGitignore fs gitignorePath envBasename envFilePath = Some true
        <-> exists content line,
              fs gitignorePath = Some content
              /\ In line (split_nl content)
              /\ startsWith HASH (trim line) = false
              /\ (trim line = envBasename \/ trim line = envFilePath
                  \/ trim line = str ".env*" \/ trim line = str ".env"))
    /\ (forall content,
          fs gitignorePath = Some content ->
          ensureGitignore (writeFileSync fs gitignorePath (crlf content))
            gitignorePath envBasename envFilePath
          = ensureGitignore fs gitignorePath envBasename envFilePath).
Proof.
  intros fs gitignorePath envBasename envFilePath.
  unfold ensureGitignore. split; [|split].
  - destruct (fs gitignorePath) as [content|]; [|tauto].
    destruct (negb _); split; discriminate.
  - destruct (fs gitignorePath) as [content|].
    + destruct (existsb _ _) eqn:Ex; simpl.
      * split; [intros _ | reflexivity].
        apply existsb_exists in Ex. destruct Ex as (t & Ht & M).
        apply in_map_iff in Ht. destruct Ht as (line & <- & Hl).
        exists content, line. unfold ignoresEnvFile in M.
        destruct (startsWith HASH (trim line)); [discriminate|].
        repeat split; [exact Hl|].
        repeat rewrite orb_true_iff in M. repeat rewrite streq_eq in M.
        tauto.
      * split; [discriminate|]. intros (c & line & E & Hl & NC & M).
        injection E as <-.
        assert (T : existsb (ignoresEnvFile envBasename envFilePath)
                      (List.map trim (split_nl content)) = true).
        { apply existsb_exists. exists (trim line).
          split; [apply in_map; exact Hl|].
          unfold ignoresEnvFile. rewrite NC.
          repeat rewrite orb_true_iff. repeat rewrite streq_eq. tauto. }
        congruence.
    + split; [discriminate|]. intros (c & line & E & _). discriminate.
  - intros content Hfs. unfold writeFileSync. rewrite streq_refl, Hfs.
    rewrite map_trim_crlf. reflexivity.
Qed.

(* ================================================================== *)
(** ** Bulk input *)

Ltac reflect_chars :=
  repeat match goal with
         | H : _ || _ = true |- _ => apply orb_true_iff in H; destruct H as [H|H]
         | H : _ && _ = true |- _ => apply andb_true_iff in H; destruct H
         | H : (_ <=? _) = true |- _ => apply N.leb_le in H
         | H : (_ =? _) = true |- _ => apply N.eqb_eq in H
         end.

Lemma identChar_plain : forall c,
  isIdentChar c = true ->
  isWhiteSpace c = false /\ c <> EQUALS /\ c <> HASH /\ c <> NL.
Proof.
  intros c H. unfold isIdentChar, isLetter, isUpper, isLower, isDigit in H.
  unfold EQUALS, HASH, NL, UNDERSCORE in *.
  destruct (isWhiteSpace c) eqn:W.
  - exfalso. unfold isWhiteSpace in W. reflect_chars; lia.
  - reflect_chars; repeat split; lia.
Qed.

Lemma isIdentifier_chars : forall k,
  isIdentifier k = true -> k <> [] /\ forallb isIdentChar k = true.
Proof.
  intros [|c r] H; [discriminate|]. split; [discriminate|].
  unfold isIdentifier in H. apply andb_true_iff in H. destruct H as [H1 H2].
  simpl. apply andb_true_iff. split; [|exact H2]. unfold isIdentChar.
  apply orb_true_iff in H1. destruct H1 as [->| ->];
    [reflexivity | apply orb_true_r].
Qed.

(** An identifier is a key the line grammar reads back. *)
Lemma isIdentifier_fileKey : forall k, isIdentifier k = true -> fileKey k.
Proof.
  intros k H. destruct (isIdentifier_chars k H) as [N F].
  assert (P : forall c, In c k ->
              isWhiteSpace c = false /\ c <> EQUALS /\ c <> HASH /\ c <> NL).
  { intros c Hc. apply identChar_plain.
    exact (proj1 (forallb_forall _ _) F c Hc). }
  repeat split.
  - destruct k as [|c r]; [exact I|]. apply (P c). left. reflexivity.
  - destruct (rev k) as [|c r] eqn:R; [exact I|].
    apply (P c). apply in_rev. rewrite R. left. reflexivity.
  - intros A. destruct (P EQUALS A) as (_ & E & _). apply E. reflexivity.
  - destruct k as [|c r]; [reflexivity|]. simpl.
    destruct (c =? HASH) eqn:E; [|reflexivity].
    apply N.eqb_eq in E. exfalso.
    destruct (P c (or_introl eq_refl)) as (_ & _ & E' & _). exact (E' E).
  - intros A. destruct (P NL A) as (_ & _ & _ & E). apply E. reflexivity.
Qed.

Lemma isVariableName_identifier : forall k,
  isVariableName k = true -> isIdentifier k = true.
Proof.
  intros [|c [|d r]] H; try discriminate. simpl in H.
  apply andb_true_iff in H. destruct H as [U F].
  change (forallb isUpperDigitUnderscore (d :: r) = true) in F.
  unfold isIdentifier, isLetter. rewrite U. cbn [orb andb].
  apply forallb_forall. intros x Hx.
  assert (Ux : isUpperDigitUnderscore x = true)
    by exact (proj1 (forallb_forall _ _) F x Hx).
  unfold isUpperDigitUnderscore in Ux.
  apply orb_true_iff in Ux. destruct Ux as [Ux| ->]; [|apply orb_true_r].
  apply orb_true_iff in Ux. destruct Ux as [->| ->]; simpl;
    [reflexivity | rewrite orb_true_r; reflexivity].
Qed.

Lemma bulkLine_invariant : forall result line,
  Map_wf result /\ Forall (fun k => isIdentifier k = true) (Map_keys result) ->
  Map_wf (bulkLine result line)
  /\ Forall (fun k => isIdentifier k = true) (Map_keys (bulkLine result line)).
Proof.
  intros result line [W F]. unfold bulkLine.
  destruct (isEmpty (trim line) || startsWith HASH (trim line)
            || hasPrefix [SLASH; SLASH] (trim line)); [tauto|].
  destruct (indexOf EQUALS (trim line)) as [i|]; [|tauto].
  set (key := trim (substringTo i (trim line))).
  destruct (isEmpty key); [tauto|]. cbn [orb].
  destruct (isIdentifier key) eqn:Id; cbn [negb]; [|tauto].
  split; [apply Map_set_wf, W|].
  apply Forall_forall. intros k Hk. apply Map_set_keys in Hk.
  destruct Hk as [Hk| ->]; [from_forall F Hk | exact Id].
Qed.

Lemma parseBulkInput_invariant : forall raw,
  Map_wf (parseBulkInput raw)
  /\ Forall (fun k => isIdentifier k = true) (Map_keys (parseBulkInput raw)).
Proof.
  intros raw. unfold parseBulkInput.
  apply (fold_left_invariant _ _
           (fun m => Map_wf m
                     /\ Forall (fun k => isIdentifier k = true) (Map_keys m))).
  - intros acc line _ H. apply bulkLine_invariant, H.
  - split; constructor.
Qed.

Lemma parseBulkInput_fileKeys : forall raw,
  Forall fileKey (Map_keys (parseBulkInput raw)).
Proof.
  intros raw. destruct (parseBulkInput_invariant raw) as [_ F].
  apply Forall_forall. intros k Hk. apply isIdentifier_fileKey.
  from_forall F Hk.
Qed.

Lemma hasPrefix_decomp : forall p s,
  hasPrefix p s = true <-> exists b, s = p ++ b.
Proof.
  induction p as [|c p IH]; intros s; simpl.
  - split; [intros _; exists s; reflexivity | reflexivity].
  - destruct s as [|x s].
    + split; [discriminate | intros (b & H); discriminate].
    + rewrite andb_true_iff, N.eqb_eq, IH. split.
      * intros [-> (b & ->)]. exists b. reflexivity.
      * intros (b & H). injection H as -> ->. split; [reflexivity | eauto].
Qed.

Lemma indexOfStr_eq : forall p s,
  indexOfStr p s =
  if hasPrefix p s then Some O
  else match s with
       | [] => None
       | _ :: s' => match indexOfStr p s' with
                    | Some i => Some (S i)
                    | None => None
                    end
       end.
Proof. intros p [|x s]; reflexivity. Qed.

(** [indexOf] gives the first place where the text occurs. *)
Lemma indexOfStr_first : forall p s i a b,
  indexOfStr p s = Some i -> s = a ++ p ++ b -> (i <= length a)%nat.
Proof.
  intros p. induction s as [|x s IH]; intros i a b H E.
  - simpl in H. destruct (hasPrefix p []); [|discriminate].
    injection H as <-. lia.
  - simpl in H. destruct (hasPrefix p (x :: s)) eqn:P.
    + injection H as <-. lia.
    + destruct (indexOfStr p s) as [j|] eqn:J; [|discriminate].
      injection H as <-. destruct a as [|y a].
      * exfalso. assert (T : hasPrefix p (x :: s) = true)
          by (apply hasPrefix_decomp; exists b; exact E).
        congruence.
      * simpl in E. injection E as -> E. simpl.
        apply le_n_S. exact (IH j a b eq_refl E).
Qed.

Lemma indexOfStr_None_intro : forall p s,
  (forall a b, s <> a ++ p ++ b) -> indexOfStr p s = None.
Proof.
  intros p. induction s as [|x s IH]; intros H.
  - simpl. destruct (hasPrefix p []) eqn:P; [|reflexivity].
    apply hasPrefix_decomp in P. destruct P as (b & E).
    exfalso. exact (H [] b E).
  - simpl. destruct (hasPrefix p (x :: s)) eqn:P.
    + apply hasPrefix_decomp in P. destruct P as (b & E).
      exfalso. exact (H [] b E).
    + rewrite IH; [reflexivity|]. intros a b E.
      apply (H (x :: a) b). simpl. rewrite E. reflexivity.
Qed.

Lemma indexOfStr_None_elim : forall p s a b,
  indexOfStr p s = None -> s <> a ++ p ++ b.
Proof.
  intros p s a b H E.
  destruct (indexOfStr p (a ++ p ++ b)) as [i|] eqn:I.
  - rewrite E in H. congruence.
  - clear H E. revert I. induction a as [|y a IH]; intros I.
    + assert (T : hasPrefix p (p ++ b) = true)
        by (apply hasPrefix_decomp; exists b; reflexivity).
      rewrite indexOfStr_eq in I. simpl app in I. rewrite T in I.
      discriminate.
    + rewrite indexOfStr_eq in I. simpl app in I.
      destruct (hasPrefix p (y :: a ++ p ++ b)); [discriminate|].
      destruct (indexOfStr p (a ++ p ++ b)); [discriminate|].
      apply IH. reflexivity.
Qed.

Lemma noComment_before : forall p s i,
  p <> [] -> indexOfStr p s = Some i -> indexOfStr p (firstn i s) = None.
Proof.
  intros p s i N H. apply indexOfStr_None_intro. intros a b E.
  assert (L : (i <= length a)%nat).
  { apply (indexOfStr_first p s i a (b ++ skipn i s) H).
    rewrite <- (firstn_skipn i s) at 1. rewrite E, <- !app_assoc.
    reflexivity. }
  apply (f_equal (@length _)) in E. rewrite !length_app in E.
  assert (length (firstn i s) <= i)%nat by apply firstn_le_length.
  destruct p; [congruence | simpl in E; lia].
Qed.

Lemma noComment_trim : forall p t,
  indexOfStr p t = None -> indexOfStr p (trim t) = None.
Proof.
  intros p t H. apply indexOfStr_None_intro. intros a b E.
  destruct (trimStart_decomp t) as (pre & E1 & _).
  destruct (trimEnd_decomp (trimStart t)) as (post & E2 & _).
  fold (trim t) in E2.
  apply (indexOfStr_None_elim p t (pre ++ a) (b ++ post) H).
  rewrite E1 at 1. rewrite E2, E, <- !app_assoc. reflexivity.
Qed.

Lemma bulkLine_values : forall result line,
  Forall (fun kv => indexOfStr [SPACE; HASH] (snd kv) = None) result ->
  Forall (fun kv => indexOfStr [SPACE; HASH] (snd kv) = None)
         (bulkLine result line).
Proof.
  intros result line F. unfold bulkLine.
  destruct (isEmpty (trim line) || startsWith HASH (trim line)
            || hasPrefix [SLASH; SLASH] (trim line)); [exact F|].
  destruct (indexOf EQUALS (trim line)) as [i|]; [|exact F].
  set (key := trim (substringTo i (trim line))).
  destruct (isEmpty key || negb (isIdentifier key)); [exact F|].
  match goal with
  | |- Forall _ (Map_set _ _ ?v) => set (value := v)
  end.
  assert (V : indexOfStr [SPACE; HASH] value = None).
  { subst value.
    match goal with
    | |- indexOfStr _ (match indexOfStr _ ?w with _ => _ end) = None =>
        destruct (indexOfStr [SPACE; HASH] w) as [j|] eqn:J
    end; [|exact J].
    apply noComment_trim. unfold substringTo.
    apply noComment_before; [discriminate | exact J]. }
  clearbody value. clear -F V.
  induction result as [|[k0 v0] m IH]; simpl.
  - repeat constructor. exact V.
  - inversion F; subst. destruct (streq k0 key).
    + constructor; [exact V | assumption].
    + constructor; [assumption | apply IH; assumption].
Qed.

(** X16.  The bulk parser cuts every value at the first space followed by
    a hash, also when the value was between quotes: no value it returns
    holds a space followed by a hash. *)
Theorem X16_bulk_values_hold_no_inline_comment :
  forall (raw k v : jsstring),
    Map_get (parseBulkInput raw) k = Some v ->
    forall a b, v <> a ++ [SPACE; HASH] ++ b.
Proof.
  intros raw k v G a b.
  assert (F : Forall (fun kv => indexOfStr [SPACE; HASH] (snd kv) = None)
                     (parseBulkInput raw)).
  { unfold parseBulkInput.
    apply (fold_left_invariant _ _
             (Forall (fun kv => indexOfStr [SPACE; HASH] (snd kv) = None)));
      [|constructor].
    intros acc line _ H. apply bulkLine_values, H. }
  apply Map_get_In_rev in G.
  apply indexOfStr_None_elim.
  exact (proj1 (Forall_forall _ _) F (k, v) G).
Qed.

(** The lines the bulk parser sees are the lines of the text, a carriage
    return at the end apart. *)
Lemma split_lines_split_nl : forall s,
  Forall2 sameUpToCR (split_nl s) (split_lines s).
Proof.
  assert (G : forall s,
            Forall2 sameUpToCR (split_nl s) (split_lines s)
            /\ forall x, Forall2 sameUpToCR (split_nl (x :: s))
                                 (split_lines (x :: s))).
  { induction s as [|n r [IH1 IH2]].
    - split; [repeat constructor|]. intros x. simpl.
      destruct (x =? NL); repeat constructor.
    - split; [apply IH2|]. intros x.
      change (split_nl (x :: n :: r))
        with (if x =? NL then [] :: split_nl (n :: r)
              else match split_nl (n :: r) with
                   | [] => [[x]]
                   | l :: ls => (x :: l) :: ls
                   end).
      change (split_lines (x :: n :: r))
        with (if x =? NL then [] :: split_lines (n :: r)
              else if (x =? CR) && (n =? NL) then [] :: split_lines r
              else match split_lines (n :: r) with
                   | [] => [[x]]
                   | l :: ls => (x :: l) :: ls
                   end).
      destruct (x =? NL) eqn:X.
      + constructor; [left; reflexivity | apply IH2].
      + destruct ((x =? CR) && (n =? NL)) eqn:C.
        * apply andb_true_iff in C. destruct C as [Cx Cn].
          apply N.eqb_eq in Cx, Cn. subst x n.
          change (split_nl (NL :: r)) with ([] :: split_nl r).
          constructor; [right; reflexivity | exact IH1].
        * specialize (IH2 n).
          destruct (split_nl (n :: r)) as [|l ls];
            destruct (split_lines (n :: r)) as [|l' ls'];
            inversion IH2; subst.
          -- repeat constructor.
          -- constructor; [|assumption].
             match goal with
             | H : sameUpToCR l l' |- _ => destruct H as [->| ->]
             end; [left | right]; reflexivity. }
  intros s. apply G.
Qed.

Lemma fold_left_Forall2_two : forall (A B : Type) (f g : A -> B -> A)
    (l l' : list B),
  Forall2 (fun a b => forall acc, f acc a = g acc b) l l' ->
  forall init, fold_left f l init = fold_left g l' init.
Proof.
  intros A B f g l l' H. induction H as [|a b l l' Hab _ IH]; intros init.
  - reflexivity.
  - simpl. rewrite Hab. apply IH.
Qed.

Lemma bulkLine_plain : forall a b acc,
  sameUpToCR a b -> plainLine a -> parseStep acc a = bulkLine acc b.
Proof.
  intros a b acc S [NoSlash Plain].
  unfold parseStep, bulkLine. rewrite <- (sameUpToCR_trim a b S).
  unfold parseLine in *. rewrite NoSlash, orb_false_r.
  destruct (isEmpty (trim a) || startsWith HASH (trim a)); [reflexivity|].
  destruct (indexOf EQUALS (trim a)) as [i|]; [|reflexivity].
  destruct (Plain _ _ eq_refl) as [Id NoC].
  rewrite Id, NoC.
  destruct (isEmpty (trim (substringTo i (trim a)))) eqn:E; [|reflexivity].
  destruct (trim (substringTo i (trim a))); discriminate.
Qed.

(** X17.  On pasted text without double-slash comments, with identifiers
    as keys and without inline comments, the bulk parser gives what the
    configuration parser gives for the same text as a file. *)
Theorem X17_bulk_parser_agrees_with_file_parser :
  forall raw : jsstring,
    (forall l, In l (split_nl raw) -> plainLine l) ->
    parseBulkInput raw = parseContent raw.
Proof.
  intros raw H. symmetry. rewrite parseContent_fold. unfold parseBulkInput.
  apply fold_left_Forall2_two.
  assert (F := split_lines_split_nl raw).
  revert H. induction F as [|a b l l' Hab _ IH]; intros H; constructor.
  - intros acc. apply bulkLine_plain; [exact Hab|].
    apply H. left. reflexivity.
  - apply IH. intros x Hx. apply H. right. exact Hx.
Qed.

(* ================================================================== *)
(** ** Occurrence sets *)

Lemma Map_has_set : forall V (m : Map V) k v k',
  Map_has (Map_set m k v) k' = Map_has m k' || streq k k'.
Proof.
  intros V m k v k'.
  destruct (Map_has m k' || streq k k') eqn:E.
  - apply Map_has_get. rewrite Map_get_set.
    destruct (streq k k'); [eauto|]. rewrite orb_false_r in E.
    apply Map_has_get. exact E.
  - apply orb_false_iff in E. destruct E as [E1 E2].
    apply Map_has_false_get. rewrite Map_get_set, E2.
    apply Map_has_false_get. exact E1.
Qed.

Lemma record_filesOf : forall foundVars x file k,
  filesOf (record foundVars x file) k =
  if streq x k then Set_add (filesOf foundVars x) file
  else filesOf foundVars k.
Proof.
  intros foundVars x file k. unfold record, filesOf.
  destruct (Map_has foundVars x) eqn:H; cbn [negb].
  - apply Map_has_get in H. destruct H as (files & G). rewrite G.
    rewrite Map_get_set. destruct (streq x k); reflexivity.
  - rewrite Map_get_set, streq_refl, Map_get_set, Map_get_set.
    apply Map_has_false_get in H. rewrite H.
    destruct (streq x k); reflexivity.
Qed.

Lemma record_has : forall foundVars x file k,
  Map_has (record foundVars x file) k = Map_has foundVars k || streq x k.
Proof.
  intros foundVars x file k. unfold record.
  destruct (Map_has foundVars x) eqn:H; cbn [negb].
  - destruct (Map_has_get _ foundVars x) as [G _].
    destruct (G H) as (files & ->). apply Map_has_set.
  - rewrite Map_get_set, streq_refl, !Map_has_set.
    destruct (Map_has foundVars k), (streq x k); reflexivity.
Qed.

Lemma record_wf : forall foundVars x file,
  Map_wf foundVars -> Map_wf (record foundVars x file).
Proof.
  intros foundVars x file W. unfold record.
  destruct (Map_has foundVars x) eqn:H; cbn [negb].
  - destruct (Map_get foundVars x); [apply Map_set_wf, W | exact W].
  - rewrite Map_get_set, streq_refl. apply Map_set_wf, Map_set_wf, W.
Qed.

Lemma record_ok : forall foundVars x file,
  occurrencesOk foundVars -> occurrencesOk (record foundVars x file).
Proof.
  intros foundVars x file [W Ok]. split; [apply record_wf, W|].
  intros k. rewrite record_has, record_filesOf, orb_true_iff.
  destruct (streq x k) eqn:E.
  - split; [intros _ | auto]. unfold Set_add.
    destruct (Set_has (filesOf foundVars x) file) eqn:S.
    + apply Set_has_In in S. intros Z. rewrite Z in S. destruct S.
    + destruct (filesOf foundVars x); discriminate.
  - rewrite Ok. split; [intros [H|H]; [exact H | discriminate] | auto].
Qed.

Lemma record_files_In : forall foundVars x file k f,
  In f (filesOf (record foundVars x file) k) <->
  In f (filesOf foundVars k) \/ (x = k /\ f = file).
Proof.
  intros foundVars x file k f. rewrite record_filesOf.
  destruct (streq x k) eqn:E.
  - apply streq_eq in E. subst k. rewrite Set_add_In. tauto.
  - apply streq_neq in E. tauto.
Qed.

(** Recording the names found in one file. *)
Lemma record_all_In : forall file (names : list jsstring) foundVars k f,
  In f (filesOf (fold_left (fun fv name => record fv name file)
                   names foundVars) k) <->
  In f (filesOf foundVars k) \/ (In k names /\ f = file).
Proof.
  intros file. induction names as [|n names IH]; intros foundVars k f; simpl.
  - tauto.
  - rewrite IH, record_files_In. intuition (subst; auto).
Qed.

Lemma record_all_ok : forall file (names : list jsstring) foundVars,
  occurrencesOk foundVars ->
  occurrencesOk (fold_left (fun fv name => record fv name file)
                   names foundVars).
Proof.
  intros file names foundVars H.
  apply (fold_left_invariant _ _ occurrencesOk); [|exact H].
  intros acc n _ Hacc. apply record_ok, Hacc.
Qed.

Lemma extractLine_keys : forall line u k,
  In k (extractLine u line) <->
  In k u \/ (lineKey line = Some k /\ isVariableName k = true
             /\ Set_has BLACKLIST k = false).
Proof.
  intros line u k. unfold extractLine, lineKey.
  destruct (isEmpty (trim line) || startsWith HASH (trim line)).
  - split; [tauto | intros [H|[H _]]; [exact H | discriminate]].
  - destruct (indexOf EQUALS (trim line)) as [i|].
    + set (key := trim (substringTo i (trim line))).
      rewrite testVarName_iff.
      destruct (isEmpty key) eqn:E.
      * split; [tauto | intros [H|[H [S _]]]; [exact H|]].
        injection H as <-. destruct key; discriminate.
      * destruct (isVariableName key) eqn:S; cbn [negb].
        -- destruct (Set_has BLACKLIST key) eqn:B.
           ++ split; [tauto | intros [H|[H [_ B']]]; [exact H|]].
              injection H as <-. congruence.
           ++ rewrite Set_add_In. split.
              ** intros [H| ->]; auto.
              ** intros [H|[H _]]; [auto|]. injection H as <-. auto.
        -- split; [tauto | intros [H|[H [S' _]]]; [exact H|]].
           injection H as <-. congruence.
    + split; [tauto | intros [H|[H _]]; [exact H | discriminate]].
Qed.

Lemma extract_keys : forall lines u k,
  In k (fold_left extractLine lines u) <->
  In k u \/ (keyOccurs k lines = true /\ isVariableName k = true
             /\ Set_has BLACKLIST k = false).
Proof.
  induction lines as [|l rest IH]; intros u k; simpl.
  - unfold keyOccurs. simpl. intuition discriminate.
  - rewrite IH, extractLine_keys. unfold keyOccurs. simpl.
    rewrite orb_true_iff, hasKey_true. fold (keyOccurs k rest). tauto.
Qed.

Lemma extractEnvKeys_spec : forall text k,
  In k (extractEnvKeysFromContent text) <->
  keyOccurs k (split_nl text) = true /\ isVariableName k = true
  /\ Set_has BLACKLIST k = false.
Proof.
  intros text k. unfold extractEnvKeysFromContent. rewrite extract_keys.
  simpl. tauto.
Qed.

(** X18.  The shallow scan is exact: a file is in the occurrence set of a
    name exactly when it is one of the conventional env files, it can be
    read, and one of its lines carries the name as key, the name having the
    variable shape and not being on the deny-list; and the names of the
    result are the names with a non-empty occurrence set, each once. *)
Theorem X18_shallow_scan_is_exact :
  forall (fs : FS) (cwd k file : jsstring),
    let found := scanEnvFilesOnly fs cwd in
    (In file (filesOf found k)
     <-> In file ENV_SOURCE_FILES
         /\ exists text,
              fs (pathJoin cwd file) = Some text
              /\ (exists l, In l (split_nl text) /\ lineKey l = Some k)
              /\ isVariableName k = true
              /\ Set_has BLACKLIST k = false)
    /\ (In k (Map_keys found) <-> filesOf found k <> [])
    /\ Map_wf found.
Proof.
  intros fs cwd k file found. subst found. unfold scanEnvFilesOnly.
  set (step := fun (foundVars : ScanResult) (file : jsstring) =>
                 match fs (pathJoin cwd file) with
                 | Some text =>
                     fold_left (fun fv key => record fv key file)
                       (extractEnvKeysFromContent text) foundVars
                 | None => foundVars
                 end).
  assert (Files : forall names (fv : ScanResult),
            In file (filesOf (fold_left step names fv) k)
            <-> In file (filesOf fv k)
                \/ (In file names
                    /\ exists text,
                         fs (pathJoin cwd file) = Some text
                         /\ In k (extractEnvKeysFromContent text))).
  { induction names as [|n names IH]; intros fv; simpl.
    - split; [tauto | intros [H|[[] _]]; exact H].
    - rewrite IH. unfold step.
      destruct (fs (pathJoin cwd n)) as [text|] eqn:E.
      + rewrite record_all_In. split.
        * intros [[H|[Hk ->]]|[Hn Ex]].
          -- left. exact H.
          -- right. split; [left; reflexivity | eauto].
          -- right. split; [right; exact Hn | exact Ex].
        * intros [H|[[->|Hn] (t & Et & Hk)]].
          -- left. left. exact H.
          -- left. right. rewrite E in Et. injection Et as <-. auto.
          -- right. split; [exact Hn | eauto].
      + split.
        * intros [H|[Hn Ex]];
            [left; exact H | right; split; [right; exact Hn | exact Ex]].
        * intros [H|[[->|Hn] (t & Et & Hk)]];
            [left; exact H | congruence | right; split; [exact Hn | eauto]]. }
  assert (Ok : occurrencesOk (fold_left step ENV_SOURCE_FILES [])).
  { apply (fold_left_invariant _ _ occurrencesOk).
    - intros acc n _ Hacc. unfold step.
      destruct (fs (pathJoin cwd n)); [apply record_all_ok|]; exact Hacc.
    - split; [constructor|]. intros x. unfold filesOf. simpl.
      split; [discriminate | congruence]. }
  split; [|split].
  - rewrite Files. unfold filesOf at 1. simpl. split.
    + intros [[]|[Hf (text & E & Hk)]]. split; [exact Hf|].
      exists text. split; [exact E|]. apply extractEnvKeys_spec in Hk.
      rewrite keyOccurs_true in Hk. exact Hk.
    + intros [Hf (text & E & Hk)]. right. split; [exact Hf|].
      exists text. split; [exact E|]. apply extractEnvKeys_spec.
      rewrite keyOccurs_true. exact Hk.
  - rewrite <- Map_has_In. apply Ok.
  - apply Ok.
Qed.

(* ================================================================== *)
(** ** The deep scan, file by file *)

Lemma scanMatch_eq : forall file foundVars varName,
  scanMatch file foundVars varName =
  if deepAccepts varName then record foundVars varName file else foundVars.
Proof.
  intros file foundVars varName. unfold scanMatch, deepAccepts.
  destruct (isEmpty varName); [reflexivity|].
  destruct (Set_has BLACKLIST varName); [reflexivity|].
  destruct (length varName <? 3)%nat; reflexivity.
Qed.

Lemma scanMatches_In : forall file names foundVars k f,
  In f (filesOf (fold_left (scanMatch file) names foundVars) k) <->
  In f (filesOf foundVars k)
  \/ (In k names /\ deepAccepts k = true /\ f = file).
Proof.
  intros file. induction names as [|n names IH]; intros foundVars k f; simpl.
  - tauto.
  - rewrite IH, scanMatch_eq. destruct (deepAccepts n) eqn:D.
    + rewrite record_files_In. split.
      * intros [[H|[-> ->]]|[Hk [Dk ->]]]; auto.
      * intros [H|[[->|Hk] [Dk ->]]]; auto.
    + split.
      * intros [H|[Hk [Dk ->]]]; auto.
      * intros [H|[[->|Hk] [Dk ->]]]; auto. congruence.
Qed.

Lemma scanMatches_ok : forall file names foundVars,
  occurrencesOk foundVars ->
  occurrencesOk (fold_left (scanMatch file) names foundVars).
Proof.
  intros file names foundVars H.
  apply (fold_left_invariant _ _ occurrencesOk); [|exact H].
  intros acc n _ Hacc. rewrite scanMatch_eq.
  destruct (deepAccepts n); [apply record_ok|]; exact Hacc.
Qed.

Lemma scanPatterns_In : forall file text patterns foundVars k f,
  In f (filesOf
          (fold_left
             (fun fv regex =>
                fold_left (scanMatch file) (execAll regex [] text O) fv)
             patterns foundVars) k) <->
  In f (filesOf foundVars k)
  \/ (captured patterns text k /\ deepAccepts k = true /\ f = file).
Proof.
  intros file text. unfold captured.
  induction patterns as [|p patterns IH]; intros foundVars k f; simpl.
  - split; [tauto | intros [H|[(r & [] & _) _]]; exact H].
  - rewrite IH, scanMatches_In. split.
    + intros [[H|[Hk [D ->]]]|[(r & Hr & Hk) [D ->]]].
      * left. exact H.
      * right. split; [exists p; auto | auto].
      * right. split; [exists r; auto | auto].
    + intros [H|[(r & [<-|Hr] & Hk) [D ->]]].
      * left. left. exact H.
      * left. right. auto.
      * right. split; [exists r; auto | auto].
Qed.

Lemma scanFile_In : forall skipSelfFiles foundVars file0 k f,
  In f (filesOf (scanFile skipSelfFiles foundVars file0) k) <->
  In f (filesOf foundVars k)
  \/ (isScanned skipSelfFiles file0 = true
      /\ (exists text, content file0 = Some text
                       /\ captured ENV_PATTERNS text k)
      /\ deepAccepts k = true /\ f = relPath file0).
Proof.
  intros skipSelfFiles foundVars file0 k f. unfold scanFile, isScanned.
  destruct (skipSelfFiles && Set_has SELF_IGNORE_FILES (relPath file0)).
  - simpl. split; [tauto | intros [H|[H _]]; [exact H | discriminate]].
  - destruct (streq (basename file0) (str ".env")
              || streq (basename file0) (str ".env.local")).
    + simpl. split; [tauto | intros [H|[H _]]; [exact H | discriminate]].
    + destruct (content file0) as [text|].
      * rewrite scanPatterns_In. simpl. split.
        -- intros [H|[C [D ->]]]; [left; exact H|].
           right. repeat split; eauto.
        -- intros [H|[_ [(t & E & C) [D ->]]]]; [left; exact H|].
           injection E as <-. right. auto.
      * simpl. split; [tauto | intros [H|[H _]]; [exact H | discriminate]].
Qed.

Lemma scanFile_ok : forall skipSelfFiles foundVars file0,
  occurrencesOk foundVars ->
  occurrencesOk (scanFile skipSelfFiles foundVars file0).
Proof.
  intros skipSelfFiles foundVars file0 H. unfold scanFile.
  destruct (skipSelfFiles && Set_has SELF_IGNORE_FILES (relPath file0));
    [exact H|].
  destruct (streq (basename file0) (str ".env")
            || streq (basename file0) (str ".env.local")); [exact H|].
  destruct (content file0) as [text|]; [|exact H].
  apply (fold_left_invariant _ _ occurrencesOk); [|exact H].
  intros acc regex _ Hacc. apply scanMatches_ok, Hacc.
Qed.

Lemma scanCodebase_In : forall skipSelfFiles files k f,
  In f (filesOf (scanCodebase skipSelfFiles files) k) <->
  exists file0 text,
    In file0 files /\ relPath file0 = f
    /\ isScanned skipSelfFiles file0 = true
    /\ content file0 = Some text
    /\ captured ENV_PATTERNS text k
    /\ deepAccepts k = true.
Proof.
  intros skipSelfFiles files k f. unfold scanCodebase.
  assert (G : forall (fv : ScanResult),
            In f (filesOf (fold_left (scanFile skipSelfFiles) files fv) k)
            <-> In f (filesOf fv k)
                \/ exists file0 text,
                     In file0 files /\ relPath file0 = f
                     /\ isScanned skipSelfFiles file0 = true
                     /\ content file0 = Some text
                     /\ captured ENV_PATTERNS text k
                     /\ deepAccepts k = true).
  { induction files as [|x files IH]; intros fv; simpl.
    - split; [tauto | intros [H|(f0 & t & [] & _)]; exact H].
    - rewrite IH, scanFile_In. split.
      + intros [[H|(S & (t & E & C) & D & ->)]|(f0 & t & Hin & R)].
        * left. exact H.
        * right. exists x, t. auto 10.
        * right. exists f0, t. tauto.
      + intros [H|(f0 & t & [<-|Hin] & R & S & E & C & D)].
        * left. left. exact H.
        * left. right. subst f. eauto 10.
        * right. exists f0, t. auto 10. }
  rewrite G. unfold filesOf at 1. simpl. split; [intros [[]|H]; exact H | auto].
Qed.

Lemma scanCodebase_ok : forall skipSelfFiles files,
  occurrencesOk (scanCodebase skipSelfFiles files).
Proof.
  intros skipSelfFiles files. unfold scanCodebase.
  apply (fold_left_invariant _ _ occurrencesOk).
  - intros acc f _ Hacc. apply scanFile_ok, Hacc.
  - split; [constructor|]. intros x. unfold filesOf. simpl.
    split; [discriminate | congruence].
Qed.

(** X19.  The deep scan is exact: a path is in the occurrence set of a
    name exactly when it is the relative path of a file that was read (not
    one of the tool's own files when those are skipped, not named [.env] or
    [.env.local], readable) in whose text some pattern captures the name,
    the name being non-empty, not on the deny-list and of length three or
    more; and the names of the result are the names with a non-empty
    occurrence set, each once. *)
Theorem X19_deep_scan_is_exact :
  forall (skipSelfFiles : bool) (files : list SourceFile) (k f : jsstring),
    let found := scanCodebase skipSelfFiles files in
    (In f (filesOf found k)
     <-> exists file0 text,
           In file0 files /\ relPath file0 = f
           /\ isScanned skipSelfFiles file0 = true
           /\ content file0 = Some text
           /\ (exists regex, In regex ENV_PATTERNS
                             /\ In k (execAll regex [] text O))
           /\ k <> [] /\ Set_has BLACKLIST k = false
           /\ (3 <= length k)%nat)
    /\ (In k (Map_keys found) <-> filesOf found k <> [])
    /\ Map_wf found.
Proof.
  intros skipSelfFiles files k f found. subst found.
  destruct (scanCodebase_ok skipSelfFiles files) as [W Ok].
  split; [|split; [rewrite <- Map_has_In; apply Ok | exact W]].
  rewrite scanCodebase_In. unfold captured, deepAccepts.
  split; intros (file0 & text & Hin & R & S & E & C & D);
    exists file0, text; repeat split; try assumption.
  - destruct k; [discriminate | discriminate].
  - destruct (Set_has BLACKLIST k); [|reflexivity].
    rewrite andb_false_r in D. discriminate.
  - destruct (length k <? 3)%nat eqn:L; [|apply Nat.ltb_ge; exact L].
    rewrite andb_false_r in D. discriminate.
  - destruct D as (N & B & L). destruct k; [congruence|].
    rewrite B. apply Nat.ltb_ge in L. rewrite L. reflexivity.
Qed.

(* ================================================================== *)
(** ** The deep scan finds member accesses *)

Lemma matchLit_app : forall lit left rest,
  matchLit lit left (lit ++ rest) = Some (rev lit ++ left, rest).
Proof.
  induction lit as [|c lit IH]; intros left rest; simpl; [reflexivity|].
  rewrite N.eqb_refl, IH, <- app_assoc. reflexivity.
Qed.

Lemma matchStar_run : forall R k u left rest
    (cont : jsstring -> jsstring -> option R) r,
  forallb (inClass k) u = true ->
  cont (rev u ++ left) rest = Some r ->
  matchStar k left (u ++ rest) cont = Some r
  \/ exists c rest', rest = c :: rest' /\ inClass k c = true.
Proof.
  intros R k. induction u as [|x u IH]; intros left rest cont r F H.
  - simpl in *. destruct rest as [|c rest']; [left; exact H|].
    destruct (inClass k c) eqn:C; [right; eauto|].
    left. simpl. rewrite C. exact H.
  - simpl in F. apply andb_true_iff in F. destruct F as [C F].
    simpl in H. rewrite <- app_assoc in H.
    destruct (IH (x :: left) rest cont r F H) as [M|M]; [|right; exact M].
    left. simpl. rewrite C, M. reflexivity.
Qed.

Lemma capture_of : forall (w l1 : jsstring),
  rev (firstn (length (rev w ++ l1) - length l1) (rev w ++ l1)) = w.
Proof.
  intros w l1. rewrite length_app.
  replace (length (rev w) + length l1 - length l1)%nat
    with (length (rev w) + 0)%nat by lia.
  rewrite firstn_app_2. simpl. rewrite app_nil_r. apply rev_involutive.
Qed.

(** At an access, the expression matches and captures the whole name. *)
Lemma matchAt_member : forall lit left name rest,
  isVariableName name = true -> headIsName rest = false ->
  exists m, matchAt (accessor [Lit lit] []) left (lit ++ name ++ rest)
            = Some m
            /\ capture m = name /\ endRight m = rest.
Proof.
  intros lit left name rest V H.
  destruct name as [|c [|d u]]; try discriminate V.
  simpl in V. apply andb_true_iff in V. destruct V as [U F].
  apply andb_true_iff in F. destruct F as [D F].
  unfold matchAt, accessor, VAR. cbn [pre group post matchAtoms].
  rewrite matchLit_app. cbn [app inClass]. rewrite U, D.
  set (l1 := rev lit ++ left).
  set (cont := fun l r : jsstring => _).
  assert (K : cont (rev u ++ d :: c :: l1) rest
              = Some {| capture := c :: d :: u;
                        endLeft := rev u ++ d :: c :: l1;
                        endRight := rest |}).
  { subst cont. cbn beta. f_equal. f_equal.
    replace (rev u ++ d :: c :: l1) with (rev (c :: d :: u) ++ l1)
      by (simpl; rewrite <- !app_assoc; reflexivity).
    apply capture_of. }
  destruct (matchStar_run _ UpperDigitUnderscore u (d :: c :: l1) rest
              cont _ F K) as [M|(x & rest' & -> & C)].
  - rewrite M. eexists. split; [reflexivity|]. split; reflexivity.
  - simpl in H. simpl in C. congruence.
Qed.

(** What a match of an accessor without closing part consumes. *)
Lemma matchAt_member_shape : forall lit left right m,
  matchAt (accessor [Lit lit] []) left right = Some m ->
  exists w, right = lit ++ w ++ endRight m
            /\ forallb isUpperDigitUnderscore w = true.
Proof.
  intros lit left right m H. unfold matchAt, accessor in H.
  cbn [pre group post] in H.
  apply matchAtoms_sound in H. destruct H as (w1 & r1 & -> & A1 & H).
  apply matchAtoms_sound in H. destruct H as (w2 & r2 & -> & A2 & H).
  simpl in H. injection H as <-. simpl.
  destruct A1 as (w' & -> & ->). rewrite app_nil_r.
  exists w2. split; [reflexivity|].
  apply accepts_VAR in A2.
  destruct w2 as [|c [|d u]]; try discriminate A2.
  unfold isVariableName in A2.
  apply andb_true_iff in A2. destruct A2 as [U F].
  change (isUpperDigitUnderscore c
          && forallb isUpperDigitUnderscore (d :: u) = true).
  rewrite F. unfold isUpperDigitUnderscore. rewrite U. reflexivity.
Qed.

Lemma borderFree_spec : forall lit a b,
  borderFree lit = true -> lit = a ++ b -> a <> [] -> b <> [] ->
  hasPrefix b lit = false.
Proof.
  intros lit a b B E Na Nb. unfold borderFree in B.
  rewrite forallb_forall in B.
  assert (L : skipn (length a) lit = b).
  { rewrite E, skipn_app, skipn_all, Nat.sub_diag. reflexivity. }
  specialize (B (length a)). rewrite L in B.
  apply negb_true_iff, B, in_seq.
  assert (length lit = length a + length b)%nat
    by (rewrite E; apply length_app).
  destruct a; [congruence|]. destruct b; [congruence|]. simpl in *. lia.
Qed.

(** A match that starts before an access ends before it. *)
Lemma member_no_overlap : forall lit left before after m,
  memberLit lit = true -> before <> [] ->
  matchAt (accessor [Lit lit] []) left (before ++ lit ++ after) = Some m ->
  (length (before ++ lit ++ after) - length (endRight m)
   <= length before)%nat.
Proof.
  intros lit left before after m ML NB H.
  unfold memberLit in ML. apply andb_true_iff in ML. destruct ML as [ML B].
  apply andb_true_iff in ML. destruct ML as [NE HN].
  apply negb_true_iff in HN.
  destruct lit as [|c0 lit0] eqn:EL; [discriminate|]. rewrite <- EL in *.
  clear NE.
  apply matchAt_member_shape in H. destruct H as (w & E & F).
  assert (Hd : forall x t y, In x w -> lit ++ t = x :: y -> False).
  { intros x t y Hx Ex. rewrite EL in Ex. injection Ex as ->.
    rewrite forallb_forall in F. apply F in Hx.
    rewrite EL in HN. simpl in HN. congruence. }
  rewrite E at 1. rewrite !length_app.
  apply app_eq_app in E. destruct E as (l & [[E1 E2]|[E1 E2]]).
  - (* the access starts inside or after the name of the match *)
    symmetry in E2. apply app_eq_app in E2.
    destruct E2 as (l' & [[E3 E4]|[E3 E4]]).
    + (* [l = w ++ l'] *)
      subst before l. rewrite !length_app. lia.
    + subst before. destruct l' as [|x l'].
      * rewrite app_nil_r in E3. subst l. rewrite length_app. lia.
      * exfalso. apply (Hd x after (l' ++ endRight m)).
        -- rewrite E3. apply in_or_app. right. left. reflexivity.
        -- exact E4.
  - (* the access starts inside the literal of the match *)
    destruct l as [|y l].
    + rewrite app_nil_r in E1. simpl in E2.
      destruct w as [|x w'].
      * rewrite E1. simpl. lia.
      * exfalso.
        apply (Hd x after (w' ++ endRight m)); [left; reflexivity|].
        exact E2.
    + exfalso.
      assert (P : hasPrefix (y :: l) lit = true).
      { apply hasPrefix_decomp.
        assert (LL : (length (y :: l) <= length lit)%nat)
          by (rewrite E1, length_app; lia).
        apply app_eq_app in E2. destruct E2 as (t & [[E5 E6]|[E5 E6]]).
        - exists t. exact E5.
        - rewrite E5, length_app in LL.
          destruct t; [|simpl in LL; lia].
          exists []. rewrite E5, !app_nil_r. reflexivity. }
      rewrite (borderFree_spec lit before (y :: l) B E1 NB) in P;
        [discriminate | discriminate].
Qed.

Lemma execAll_cons_O : forall p left c right,
  execAll p left (c :: right) O =
  match matchAt p left (c :: right) with
  | Some m =>
      capture m
      :: execAll p (c :: left) right
           (length (c :: right) - length (endRight m) - 1)
  | None => execAll p (c :: left) right O
  end.
Proof. reflexivity. Qed.

Lemma execAll_cons_S : forall p left c right n,
  execAll p left (c :: right) (S n) = execAll p (c :: left) right n.
Proof. reflexivity. Qed.

(** The loop reaches every access: the matches before it end before it. *)
Lemma execAll_member : forall lit name rest,
  memberLit lit = true -> isVariableName name = true ->
  headIsName rest = false ->
  forall before left skip,
    (skip <= length before)%nat ->
    In name (execAll (accessor [Lit lit] []) left
               (before ++ lit ++ name ++ rest) skip).
Proof.
  intros lit name rest ML V H.
  induction before as [|x before IH]; intros left skip L.
  - simpl in L. assert (skip = O) by lia. subst skip. simpl app.
    destruct (matchAt_member lit left name rest V H) as (m & M & C & E).
    destruct lit as [|c0 lit0]; [discriminate ML|].
    simpl app in *. rewrite execAll_cons_O, M, C. left. reflexivity.
  - destruct skip as [|n].
    + change ((x :: before) ++ lit ++ name ++ rest)
        with (x :: before ++ lit ++ name ++ rest).
      rewrite execAll_cons_O.
      destruct (matchAt _ left _) as [m|] eqn:M.
      * right. apply IH.
        assert (NB : x :: before <> []) by discriminate.
        assert (O := member_no_overlap lit left (x :: before)
                       (name ++ rest) m ML NB M).
        simpl in O |- *. lia.
      * apply IH. lia.
    + change ((x :: before) ++ lit ++ name ++ rest)
        with (x :: before ++ lit ++ name ++ rest).
      rewrite execAll_cons_S. apply IH. simpl in L. lia.
Qed.

(** X20.  The deep scan misses no member access: when a file that is read
    holds [process.env.] or [import.meta.env.] followed by a name (an upper
    case letter, then one or more upper case letters, digits or
    underscores) that ends there, and the name has three or more code units
    and is not on the deny-list, the result has the name, with the file in
    its occurrence set, whatever comes before and after in the file. *)
Theorem X20_deep_scan_finds_member_access :
  forall (skipSelfFiles : bool) (files : list SourceFile) (f : SourceFile)
         (lit before name rest : jsstring),
    In lit [str "process.env."; str "import.meta.env."] ->
    In f files ->
    isScanned skipSelfFiles f = true ->
    content f = Some (before ++ lit ++ name ++ rest) ->
    isVariableName name = true ->
    headIsName rest = false ->
    (3 <= length name)%nat ->
    Set_has BLACKLIST name = false ->
    In (relPath f) (filesOf (scanCodebase skipSelfFiles files) name)
    /\ In name (Map_keys (scanCodebase skipSelfFiles files)).
Proof.
  intros skipSelfFiles files f lit before name rest Hlit Hf S E V H L B.
  assert (I : In (relPath f)
                (filesOf (scanCodebase skipSelfFiles files) name)).
  { apply scanCodebase_In. exists f, (before ++ lit ++ name ++ rest).
    repeat split; try assumption.
    - exists (accessor [Lit lit] []). split.
      + destruct Hlit as [<-|[<-|[]]]; unfold ENV_PATTERNS; simpl; auto.
      + apply execAll_member; try assumption; [|lia].
        destruct Hlit as [<-|[<-|[]]]; reflexivity.
    - unfold deepAccepts. rewrite B.
      apply Nat.ltb_ge in L. rewrite L.
      destruct name; [discriminate V | reflexivity]. }
  split; [exact I|].
  destruct (scanCodebase_ok skipSelfFiles files) as [_ Ok].
  apply Map_has_In, Ok. intros N. rewrite N in I. destruct I.
Qed.

(* ================================================================== *)
(** ** Discovery of the folders with env files *)

Lemma walk_In : forall n dir segs depth folder,
  (9 - depth <= n)%nat ->
  In folder (walk dir segs depth) <->
  exists path r entries,
    segments folder = segs ++ path
    /\ reach dir path (DirNode r entries)
    /\ (depth + length path <= 8)%nat
    /\ envFiles folder = filter (hasEntry entries) ENV_NAMES
    /\ envFiles folder <> [].
Proof.
  induction n as [|n IH]; intros dir segs depth folder Hn.
  - assert (D : (8 <? depth)%nat = true) by (apply Nat.ltb_lt; lia).
    destruct dir as [|readable entries]; simpl; [|rewrite D]; simpl.
    + split; [tauto|]. intros (path & r & es & _ & _ & L & _). lia.
    + split; [tauto|]. intros (path & r & es & _ & _ & L & _). lia.
  - destruct dir as [|readable entries].
    { simpl. split; [tauto|].
      intros ([|name path] & r & es & _ & R & _); simpl in R;
        [discriminate | exact R]. }
    cbn [walk]. destruct (8 <? depth)%nat eqn:D.
    { apply Nat.ltb_lt in D. simpl. split; [tauto|].
      intros (path & r & es & _ & _ & L & _). lia. }
    apply Nat.ltb_ge in D. cbv zeta. rewrite in_app_iff. split.
    + intros [H|H].
      * destruct (filter (hasEntry entries) ENV_NAMES) as [|x found] eqn:F;
          [destruct H|].
        destruct H as [<-|[]]. exists [], readable, entries.
        cbn [segments envFiles reach length].
        rewrite app_nil_r, F.
        repeat split; [lia | discriminate].
      * destruct readable; [|destruct H].
        apply in_flat_map in H. destruct H as ([name sub] & Hin & H).
        destruct sub as [|r' es']; [destruct H|].
        destruct (Set_has SKIP_DIRS name) eqn:S; [destruct H|].
        destruct (startsWith DOT name && negb (streq name [DOT])) eqn:Dt;
          [destruct H|].
        apply (IH _ _ _ _) in H; [|lia].
        destruct H as (path & r & es & Sg & R & L & E & N).
        exists (name :: path), r, es.
        rewrite Sg, <- app_assoc. simpl.
        repeat split; try assumption; [|lia].
        exists (DirNode r' es'). split; [exact Hin|]. split; [|exact R].
        unfold descends. cbn [snd fst]. rewrite S, Dt. reflexivity.
    + intros (path & r & es & Sg & R & L & E & N).
      destruct path as [|name path].
      * left. simpl in R. injection R as -> ->.
        rewrite app_nil_r in Sg. destruct folder as [sg ef].
        cbn [segments envFiles] in *. subst sg ef.
        destruct (filter (hasEntry entries) ENV_NAMES);
          [exfalso; apply N; reflexivity|].
        left. reflexivity.
      * right. simpl in R. destruct readable; [|destruct R].
        destruct R as (sub & Hin & Ds & R).
        apply in_flat_map. exists (name, sub). split; [exact Hin|].
        unfold descends in Ds. cbn [snd fst] in Ds.
        destruct sub as [|r' es']; [discriminate|].
        apply andb_true_iff in Ds. destruct Ds as [S Dt].
        apply negb_true_iff in S. apply negb_true_iff in Dt.
        rewrite S, Dt. apply (IH _ _ _ _); [lia|].
        exists path, r, es. rewrite <- app_assoc. simpl in *.
        repeat split; try assumption. lia.
Qed.

Lemma reach_segments : forall path dir target,
  reach dir path target ->
  Forall (fun name =>
            Set_has SKIP_DIRS name = false
            /\ (startsWith DOT name = false \/ name = [DOT])) path.
Proof.
  induction path as [|name path IH]; intros dir target R; [constructor|].
  simpl in R. destruct dir as [|[|] entries]; try destruct R.
  destruct H as (Hin & Ds & R). constructor; [|exact (IH _ _ R)].
  unfold descends in Ds. cbn [snd fst] in Ds. destruct x; [discriminate|].
  apply andb_true_iff in Ds. destruct Ds as [S Dt].
  apply negb_true_iff in S. apply negb_true_iff in Dt.
  split; [exact S|].
  destruct (startsWith DOT name); [|left; reflexivity].
  right. simpl in Dt. apply negb_false_iff, streq_eq in Dt. exact Dt.
Qed.

(** X21.  Discovery is exact: a folder is reported exactly when its path
    from the root has at most eight names, leads through directories that
    can be listed and through entries that are directories, are not on the
    skip list and do not start with a dot, and the directory it leads to
    has an entry with one of the seven env file names; the reported files
    are those names, in the order of the list.  In particular no reported
    folder has a skipped or hidden directory on its path. *)
Theorem X21_discovery_is_exact :
  forall (cwd : Node) (folder : ProjectFolder),
    (In folder (discoverEnvFolders cwd)
     <-> exists r entries,
           reach cwd (segments folder) (DirNode r entries)
           /\ (length (segments folder) <= 8)%nat
           /\ envFiles folder = filter (hasEntry entries) ENV_NAMES
           /\ envFiles folder <> [])
    /\ (In folder (discoverEnvFolders cwd) ->
        Forall (fun name =>
                  Set_has SKIP_DIRS name = false
                  /\ (startsWith DOT name = false \/ name = [DOT]))
               (segments folder)
        /\ Forall (fun name => In name ENV_NAMES) (envFiles folder)).
Proof.
  intros cwd folder.
  assert (W : In folder (discoverEnvFolders cwd)
              <-> exists r entries,
                    reach cwd (segments folder) (DirNode r entries)
                    /\ (length (segments folder) <= 8)%nat
                    /\ envFiles folder = filter (hasEntry entries) ENV_NAMES
                    /\ envFiles folder <> []).
  { unfold discoverEnvFolders. rewrite (walk_In 9); [|lia]. split.
    - intros (path & r & es & Sg & R & L & E & N). simpl in Sg.
      exists r, es. rewrite Sg. auto.
    - intros (r & es & R & L & E & N).
      exists (segments folder), r, es. auto. }
  split; [exact W|]. intros H. apply W in H.
  destruct H as (r & es & R & L & E & N). split.
  - exact (reach_segments _ _ _ R).
  - rewrite E. apply Forall_forall. intros x Hx.
    apply filter_In in Hx. exact (proj1 Hx).
Qed.

(* ================================================================== *)
(** ** The mask shown for a current value *)

Lemma maskValue_long : forall a mid b,
  length a = 3%nat -> length b = 2%nat -> (2 <= length mid)%nat ->
  maskValue (a ++ mid ++ b) = a ++ repeat BULLET 4 ++ b.
Proof.
  intros a mid b La Lb Lm. unfold maskValue, substringTo, substringFrom.
  destruct a as [|x a]; [discriminate La|]. cbn [app isEmpty].
  change (x :: a ++ mid ++ b) with ((x :: a) ++ mid ++ b).
  assert (L : length ((x :: a) ++ mid ++ b) = (3 + length mid + 2)%nat)
    by (rewrite !length_app, La, Lb; lia).
  rewrite L.
  replace (3 + length mid + 2 <=? 6)%nat with false
    by (symmetry; apply Nat.leb_gt; lia).
  rewrite <- La at 1. rewrite firstn_app, Nat.sub_diag, firstn_all.
  cbn [firstn]. rewrite app_nil_r.
  replace (3 + length mid + 2 - 2)%nat
    with (length ((x :: a) ++ mid)) by (rewrite length_app, La; lia).
  rewrite (app_assoc (x :: a) mid b), skipn_app, skipn_all, Nat.sub_diag.
  reflexivity.
Qed.

(** X22.  The mask shows five code units at most: of a value of more than
    six code units it keeps the first three and the last two and puts four
    bullets for whatever lies between, so that it has nine code units
    whatever the length of the value; all values of one to six code units
    have the same mask. *)
Theorem X22_mask_hides_the_middle :
  forall (a mid mid' b v v' : jsstring),
    length a = 3%nat -> length b = 2%nat ->
    (2 <= length mid)%nat -> (2 <= length mid')%nat ->
    v <> [] -> v' <> [] -> (length v <= 6)%nat -> (length v' <= 6)%nat ->
    maskValue (a ++ mid ++ b) = maskValue (a ++ mid' ++ b)
    /\ length (maskValue (a ++ mid ++ b)) = 9%nat
    /\ maskValue v = maskValue v'
    /\ maskValue v <> maskValue (a ++ mid ++ b).
Proof.
  intros a mid mid' b v v' La Lb Lm Lm' Nv Nv' Lv Lv'.
  rewrite !maskValue_long by assumption.
  assert (S : forall w, w <> [] -> (length w <= 6)%nat ->
                        maskValue w = repeat BULLET 6).
  { intros w Nw Lw. unfold maskValue. destruct w; [congruence|].
    cbn [isEmpty]. apply Nat.leb_le in Lw. rewrite Lw. reflexivity. }
  split; [reflexivity|]. split.
  - rewrite !length_app, repeat_length. lia.
  - rewrite (S v), (S v') by assumption. split; [reflexivity|].
    intros E. apply (f_equal (@length cu)) in E.
    rewrite !length_app, !repeat_length in E. lia.
Qed.

(* ================================================================== *)
(** ** The further properties at sample inputs *)

Ltac not_in := simpl; intuition discriminate.

Lemma wf_updateB_addD : Map_wf updateB_addD.
Proof. repeat constructor; not_in. Defined.

Lemma fileKeys_updateB_addD : Forall fileKey (Map_keys updateB_addD).
Proof.
  constructor; [exact fileKey_B|]. constructor; [exact fileKey_D|].
  constructor.
Defined.

Lemma fileKeys_BD : Forall fileKey keysBD.
Proof.
  constructor; [exact fileKey_B|]. constructor; [exact fileKey_D|].
  constructor.
Defined.

(** X1 at the update of B with the new key D: two entries, two counted. *)
Lemma X1_witness :
  Map_wf updateB_addD
  /\ snd (writeEnvFile (fsWith abcContent) envPath updateB_addD []) = 2%nat.
Proof.
  split; [exact wf_updateB_addD|].
  exact (X1_writeEnvFile_returns_number_of_entries
           (fsWith abcContent) envPath updateB_addD [] wf_updateB_addD).
Defined.

(** X3 at the same write: D, which the parser does not report, is the one
    key appended. *)
Lemma X3_witness :
  fsWith abcContent envPath = Some abcContent
  /\ ws_appendKeys (writeState (fsWith abcContent envPath) updateB_addD)
     = [(str "D", str "4")].
Proof.
  split; [reflexivity|].
  destruct (X3_writer_appends_what_parser_does_not_report
              (fsWith abcContent) envPath abcContent updateB_addD eq_refl)
    as (_ & _ & _ & A).
  exact A.
Defined.

(** X4 at a file with B on two lines: the second value is reported. *)
Lemma X4_witness :
  split_nl dupContent = [str "B=1"; str "A=0"] ++ str "B=2" :: [[]]
  /\ parseLine (str "B=2") = Some (str "B", str "2")
  /\ keyOccurs (str "B") [[]] = false
  /\ Map_get (parseContent dupContent) (str "B") = Some (str "2").
Proof.
  split; [reflexivity|]. split; [reflexivity|]. split; [reflexivity|].
  exact (X4_parser_last_assignment_wins
           dupContent [str "B=1"; str "A=0"] [[]] (str "B=2") (str "B")
           (str "2") eq_refl eq_refl eq_refl).
Defined.

Lemma confirmedBD_ok :
  Forall (fun kv => fileKey (fst kv) /\ plainValue (snd kv)) confirmedBD.
Proof.
  constructor; [split; [exact fileKey_B | repeat split; not_in]|].
  constructor; [split; [exact fileKey_D | repeat split; not_in]|].
  constructor.
Defined.

Lemma wf_foundAD : Map_wf foundAD.
Proof. repeat constructor; not_in. Defined.

(** X9 at a scan that found A and D over a file with A, B and C: saving D
    leaves nothing missing. *)
Lemma X9_witness :
  Map_wf foundAD
  /\ In (str "D") (Map_keys foundAD)
  /\ hasUsableValue
       (st_existingEnv (startState (fsWith abcContent) envPath)) (str "D")
     = false
  /\ trim (str "4") <> []
  /\ alreadySet
       (showScanResult foundAD
          (st_existingEnv
             (onSetValue envPath (startState (fsWith abcContent) envPath)
                (str "D") (str "4"))))
     = 2%nat
  /\ missing
       (showScanResult foundAD
          (st_existingEnv
             (onSetValue envPath (startState (fsWith abcContent) envPath)
                (str "D") (str "4"))))
     = 0%Z.
Proof.
  assert (T : trim (str "4") <> []) by discriminate.
  assert (I : In (str "D") (Map_keys foundAD))
    by (right; left; reflexivity).
  split; [exact wf_foundAD|]. split; [exact I|]. split; [reflexivity|].
  split; [exact T|].
  destruct (X9_saving_a_missing_key_moves_one_count
              envPath (startState (fsWith abcContent) envPath) foundAD
              (str "D") (str "4") wf_foundAD I eq_refl T)
    as (_ & Set1 & Missing1).
  split; [exact Set1 | exact Missing1].
Defined.

Lemma nonEmpty_BD : Forall (fun k : jsstring => k <> []) keysBD.
Proof. repeat constructor; discriminate. Defined.




(** X13 at the file with A, B and C saved with Windows line endings. *)
Lemma X13_witness :
  fsWith abcContent envPath = Some abcContent
  /\ parseExistingEnv
       (writeFileSync (fsWith abcContent) envPath (crlf abcContent)) envPath
     = parseExistingEnv (fsWith abcContent) envPath.
Proof.
  split; [reflexivity|].
  exact (proj1 (X13_parser_ignores_windows_line_endings
                  (fsWith abcContent) envPath abcContent eq_refl)).
Defined.

(** X14 at a file with an indented [.env] line: the file counts as
    ignored. *)
Lemma X14_witness :
  ensureGitignore fsGitignore gitignorePath (str ".env.local")
    (str "config/.env.local") = Some true.
Proof.
  apply (proj1 (proj2 (X14_gitignore_check
                         fsGitignore gitignorePath (str ".env.local")
                         (str "config/.env.local")))).
  exists (join_nl [str "node_modules"; str " .env "; []]), (str " .env ").
  split; [reflexivity|]. split; [right; left; reflexivity|].
  split; [reflexivity|]. right. right. right. reflexivity.
Defined.

(** X16 at a line with an inline comment: the value stops before it. *)
Lemma X16_witness :
  Map_get (parseBulkInput commentedPaste) KEY = Some (str "a")
  /\ str "a" <> str "a" ++ [SPACE; HASH] ++ str "b".
Proof.
  split; [reflexivity|].
  exact (X16_bulk_values_hold_no_inline_comment
           commentedPaste KEY (str "a") eq_refl (str "a") (str "b")).
Defined.

Lemma plainLines_abc : forall l, In l (split_nl abcContent) -> plainLine l.
Proof.
  intros l H. vm_compute in H.
  repeat (destruct H as [<-|H];
          [split; [reflexivity|];
           intros k v E; vm_compute in E;
           first [ discriminate E
                 | injection E as <- <-; split; reflexivity ]|]).
  destruct H.
Defined.

(** X17 at the file with A, B and C, pasted as it is. *)
Lemma X17_witness :
  (forall l, In l (split_nl abcContent) -> plainLine l)
  /\ parseBulkInput abcContent = parseContent abcContent.
Proof.
  split; [exact plainLines_abc|].
  exact (X17_bulk_parser_agrees_with_file_parser abcContent plainLines_abc).
Defined.

(** X18 at a project whose [.env] declares API_KEY. *)
Lemma X18_witness :
  In (str ".env") (filesOf (scanEnvFilesOnly fsApiKey (str "/project"))
                     (str "API_KEY")).
Proof.
  apply (proj1 (X18_shallow_scan_is_exact
                  fsApiKey (str "/project") (str "API_KEY") (str ".env"))).
  split; [left; reflexivity|].
  exists (join_nl [str "API_KEY=1"; []]). split; [reflexivity|].
  split; [|split; reflexivity].
  exists (str "API_KEY=1"). split; [left; reflexivity | reflexivity].
Defined.

(** X19 at the Python file of the scenario. *)
Lemma X19_witness :
  In (str "app.py") (filesOf (scanCodebase false [appPy]) (str "API_KEY")).
Proof.
  apply (proj1 (X19_deep_scan_is_exact
                  false [appPy] (str "API_KEY") (str "app.py"))).
  exists appPy,
    (str "key = os.getenv(" ++ [DQUOTE] ++ str "API_KEY" ++ [DQUOTE]
     ++ str ")").
  split; [left; reflexivity|]. split; [reflexivity|].
  split; [reflexivity|]. split; [reflexivity|]. split.
  - exists (accessor [Lit (str "os.getenv("); Star Space; One Quote]
                     [One Quote]).
    split; [do 10 right; left; reflexivity | left; reflexivity].
  - split; [discriminate|]. split; [reflexivity | simpl; lia].
Defined.

(** X20 at a JavaScript file that reads [process.env.API_KEY]. *)
Lemma X20_witness :
  In (str "process.env.") [str "process.env."; str "import.meta.env."]
  /\ In appJs [appJs]
  /\ isScanned false appJs = true
  /\ content appJs
     = Some (str "const k = " ++ str "process.env." ++ str "API_KEY"
             ++ str ";")
  /\ isVariableName (str "API_KEY") = true
  /\ headIsName (str ";") = false
  /\ (3 <= length (str "API_KEY"))%nat
  /\ Set_has BLACKLIST (str "API_KEY") = false
  /\ In (str "src/app.js")
        (filesOf (scanCodebase false [appJs]) (str "API_KEY")).
Proof.
  assert (L : (3 <= length (str "API_KEY"))%nat) by (simpl; lia).
  repeat (split; [first [reflexivity | left; reflexivity | exact L]|]).
  exact (proj1 (X20_deep_scan_finds_member_access
                  false [appJs] appJs (str "process.env.")
                  (str "const k = ") (str "API_KEY") (str ";")
                  (or_introl eq_refl) (or_introl eq_refl) eq_refl eq_refl
                  eq_refl eq_refl L eq_refl)).
Defined.

(** X21 at a project with env files at the root, in [api] and in
    [node_modules]: [api] is reported, with a path free of skipped
    names. *)
Lemma X21_witness :
  In apiFolder (discoverEnvFolders projectTree)
  /\ Forall (fun name => In name ENV_NAMES) (envFiles apiFolder).
Proof.
  assert (I : In apiFolder (discoverEnvFolders projectTree)).
  { apply (proj1 (X21_discovery_is_exact projectTree apiFolder)).
    exists true, [(str ".env.local", FileNode)].
    split.
    - exists (DirNode true [(str ".env.local", FileNode)]).
      split; [right; left; reflexivity|]. split; reflexivity.
    - split; [simpl; lia|]. split; [reflexivity | discriminate]. }
  split; [exact I|].
  exact (proj2 (proj2 (X21_discovery_is_exact projectTree apiFolder) I)).
Defined.

(** X22 at two keys that differ only in the middle, and two short ones. *)
Lemma X22_witness :
  length (str "sk-") = 3%nat /\ length (str "zz") = 2%nat
  /\ (2 <= length (str "123456"))%nat /\ (2 <= length (str "ab"))%nat
  /\ str "a" <> [] /\ str "secret" <> []
  /\ (length (str "a") <= 6)%nat /\ (length (str "secret") <= 6)%nat
  /\ maskValue (str "sk-" ++ str "123456" ++ str "zz")
     = maskValue (str "sk-" ++ str "ab" ++ str "zz")
  /\ maskValue (str "a") = maskValue (str "secret").
Proof.
  assert (L1 : (2 <= length (str "123456"))%nat) by (simpl; lia).
  assert (L2 : (2 <= length (str "ab"))%nat) by (simpl; lia).
  assert (N1 : str "a" <> []) by discriminate.
  assert (N2 : str "secret" <> []) by discriminate.
  assert (L3 : (length (str "a") <= 6)%nat) by (simpl; lia).
  assert (L4 : (length (str "secret") <= 6)%nat) by (simpl; lia).
  destruct (X22_mask_hides_the_middle
              (str "sk-") (str "123456") (str "ab") (str "zz") (str "a")
              (str "secret") eq_refl eq_refl L1 L2 N1 N2 L3 L4)
    as (Same & _ & Short & _).
  repeat (split; [first [reflexivity | assumption]|]).
  exact Short.
Defined.

(* ================================================================== *)
(** ** The lines of a written file, whatever the keys *)

Lemma join_nl_cons : forall l ls,
  ls <> [] -> join_nl (l :: ls) = l ++ NL :: join_nl ls.
Proof. intros l [|x ls] H; [congruence | reflexivity]. Qed.


Lemma join_split : forall s, join_nl (split_nl s) = s.
Proof.
  induction s as [|c r IH]; [reflexivity|].
  simpl. destruct (c =? NL) eqn:E.
  - apply N.eqb_eq in E. subst c.
    rewrite join_nl_cons by apply split_nl_not_nil. rewrite IH. reflexivity.
  - destruct (split_nl r) as [|l ls] eqn:S;
      [exfalso; exact (split_nl_not_nil r S)|].
    rewrite <- IH. destruct ls; reflexivity.
Qed.














(* ================================================================== *)
(** ** Text without lone surrogates

    A file is read as the decoding of its bytes and written as the
    encoding of the text, so what is read back after a write is
    [toWellFormed] of what was written.  Text that holds no lone
    surrogate is read back as it was written; the lemmas below show that
    the writer produces such text from such text. *)

Lemma notSurrogate_ws : forall c, isWhiteSpace c = true -> notSurrogate c.
Proof.
  intros c H. unfold isWhiteSpace in H.
  repeat rewrite ?orb_true_iff, ?andb_true_iff in H.
  rewrite ?N.leb_le, ?N.eqb_eq in H.
  unfold notSurrogate, isHighSurrogate, isLowSurrogate.
  split.
  - destruct (55296 <=? c) eqn:A; [|reflexivity].
    destruct (c <=? 56319) eqn:B; [|reflexivity].
    apply N.leb_le in A, B. exfalso. lia.
  - destruct (56320 <=? c) eqn:A; [|reflexivity].
    destruct (c <=? 57343) eqn:B; [|reflexivity].
    apply N.leb_le in A, B. exfalso. lia.
Qed.

Lemma wff_plain_cons : forall c s,
  notSurrogate c -> wellFormedFrom false (c :: s) = wellFormedFrom false s.
Proof. intros c s [H L]. simpl. rewrite H, L. reflexivity. Qed.

Lemma wff_after_high_plain : forall c s,
  notSurrogate c -> wellFormedFrom true (c :: s) = false.
Proof. intros c s [H L]. simpl. rewrite L. reflexivity. Qed.

Lemma wff_app : forall a st b,
  wellFormedFrom st a = true -> isWellFormed b = true ->
  wellFormedFrom st (a ++ b) = true.
Proof.
  induction a as [|x a IH]; intros st b A B; simpl in *.
  - destruct st; [discriminate | exact B].
  - destruct st; apply andb_true_iff in A; destruct A as [A1 A2];
      rewrite A1; simpl; apply IH; assumption.
Qed.

Lemma wff_cut : forall a st c b,
  notSurrogate c -> wellFormedFrom st (a ++ c :: b) = true ->
  wellFormedFrom st a = true /\ isWellFormed b = true.
Proof.
  induction a as [|x a IH]; intros st c b P H.
  - simpl app in H. destruct st.
    + rewrite wff_after_high_plain in H by exact P. discriminate.
    + rewrite wff_plain_cons in H by exact P. split; [reflexivity | exact H].
  - simpl in H |- *. destruct st; apply andb_true_iff in H;
      destruct H as [H1 H2]; rewrite H1; simpl; exact (IH _ _ _ P H2).
Qed.

Lemma wff_skip_prefix : forall p t,
  Forall notSurrogate p ->
  wellFormedFrom false (p ++ t) = wellFormedFrom false t.
Proof.
  induction p as [|c p IH]; intros t F; [reflexivity|].
  inversion F; subst. simpl app. rewrite wff_plain_cons by assumption.
  apply IH. assumption.
Qed.

Lemma wff_drop_suffix : forall t st q,
  Forall notSurrogate q -> wellFormedFrom st (t ++ q) = true ->
  wellFormedFrom st t = true.
Proof.
  induction t as [|x t IH]; intros st q F H.
  - simpl app in H. destruct st; [|reflexivity].
    destruct q as [|c q]; [exact H|]. inversion F; subst.
    rewrite wff_after_high_plain in H by assumption. discriminate.
  - simpl in H |- *. destruct st; apply andb_true_iff in H;
      destruct H as [H1 H2]; rewrite H1; simpl; exact (IH _ _ F H2).
Qed.

Lemma wf_app : forall a b,
  isWellFormed a = true -> isWellFormed b = true ->
  isWellFormed (a ++ b) = true.
Proof. intros a b. apply wff_app. Qed.

Lemma wf_cut : forall a c b,
  notSurrogate c -> isWellFormed (a ++ c :: b) = true ->
  isWellFormed a = true /\ isWellFormed b = true.
Proof. intros a c b. apply wff_cut. Qed.

Lemma wf_cons : forall c s,
  notSurrogate c -> isWellFormed s = true -> isWellFormed (c :: s) = true.
Proof.
  intros c s P H. unfold isWellFormed. rewrite wff_plain_cons by exact P.
  exact H.
Qed.

Lemma ws_notSurrogate : forall p,
  Forall (fun c => isWhiteSpace c = true) p -> Forall notSurrogate p.
Proof.
  intros p F. apply Forall_forall. intros c Hc. apply notSurrogate_ws.
  from_forall F Hc.
Qed.

Lemma wf_trim : forall s,
  isWellFormed s = true -> isWellFormed (trim s) = true.
Proof.
  intros s H. unfold trim.
  destruct (trimStart_decomp s) as (p & Es & Fp).
  destruct (trimEnd_decomp (trimStart s)) as (q & Et & Fq).
  unfold isWellFormed in *. rewrite Es in H.
  rewrite wff_skip_prefix in H by (apply ws_notSurrogate; exact Fp).
  rewrite Et in H.
  exact (wff_drop_suffix _ _ _ (ws_notSurrogate _ Fq) H).
Qed.

Lemma notSurrogate_NL : notSurrogate NL.
Proof. split; reflexivity. Qed.

Lemma notSurrogate_EQUALS : notSurrogate EQUALS.
Proof. split; reflexivity. Qed.

Lemma wf_join : forall ls,
  Forall (fun l => isWellFormed l = true) ls ->
  isWellFormed (join_nl ls) = true.
Proof.
  induction ls as [|l rest IH]; intros F; [reflexivity|].
  inversion F as [|? ? Hl Hr]; subst. destruct rest as [|x rest].
  - exact Hl.
  - rewrite join_nl_cons by discriminate.
    apply wf_app; [exact Hl|]. apply wf_cons; [exact notSurrogate_NL|].
    apply IH. exact Hr.
Qed.

Lemma wf_unjoin : forall ls,
  isWellFormed (join_nl ls) = true ->
  Forall (fun l => isWellFormed l = true) ls.
Proof.
  induction ls as [|l rest IH]; intros H; [constructor|].
  destruct rest as [|x rest].
  - constructor; [exact H | constructor].
  - rewrite join_nl_cons in H by discriminate.
    apply wf_cut in H; [|exact notSurrogate_NL]. destruct H as [Hl Hr].
    constructor; [exact Hl | exact (IH Hr)].
Qed.

Lemma wf_split : forall s,
  isWellFormed s = true ->
  Forall (fun l => isWellFormed l = true) (split_nl s).
Proof. intros s H. apply wf_unjoin. rewrite join_split. exact H. Qed.

Lemma strip_decomp : forall s,
  exists q, s = stripTrailingNewlines s ++ q /\ Forall notSurrogate q.
Proof.
  induction s as [|c r (q & E & F)].
  - exists []. split; [reflexivity | constructor].
  - simpl. destruct (stripTrailingNewlines r) as [|y r'] eqn:S.
    + simpl in E. subst r. destruct (c =? NL) eqn:C.
      * apply N.eqb_eq in C. subst c. exists (NL :: q).
        split; [reflexivity|]. constructor; [exact notSurrogate_NL | exact F].
      * exists q. split; [reflexivity | exact F].
    + exists q. split; [|exact F]. rewrite E at 1. reflexivity.
Qed.

Lemma wf_finalContent : forall ls,
  Forall (fun l => isWellFormed l = true) ls ->
  isWellFormed (finalContent ls) = true.
Proof.
  intros ls F. unfold finalContent. apply wf_app; [|reflexivity].
  destruct (strip_decomp (join_nl ls)) as (q & E & Fq).
  apply wf_join in F. rewrite E in F.
  exact (wff_drop_suffix _ _ _ Fq F).
Qed.

Lemma wff_replaceAll : forall c by_ s st,
  notSurrogate c -> by_ <> [] -> Forall notSurrogate by_ ->
  wellFormedFrom st (replaceAll c by_ s) = wellFormedFrom st s.
Proof.
  intros c by_ s st P N F. revert st. unfold replaceAll.
  induction s as [|x s IH]; intros st; [reflexivity|].
  simpl flat_map. destruct (x =? c) eqn:E.
  - apply N.eqb_eq in E. subst x. destruct st.
    + rewrite wff_after_high_plain by exact P.
      destruct by_ as [|b bs]; [congruence|]. inversion F; subst.
      simpl app. apply wff_after_high_plain. assumption.
    + rewrite wff_skip_prefix by exact F.
      rewrite wff_plain_cons by exact P. apply IH.
  - simpl. destruct st; rewrite IH; reflexivity.
Qed.

Lemma wf_escapeValue : forall v,
  isWellFormed (escapeValue v) = isWellFormed v.
Proof.
  intros v. unfold escapeValue, isWellFormed.
  rewrite !wff_replaceAll; try reflexivity; try discriminate;
    repeat constructor.
Qed.

Lemma wf_formatValue : forall v,
  isWellFormed v = true -> isWellFormed (formatValue (Some v)) = true.
Proof.
  intros v H. rewrite formatValue_string.
  destruct (needsQuotes (Some v)); [|exact H].
  unfold quoted. apply wf_cons; [split; reflexivity|].
  apply wf_app; [rewrite wf_escapeValue; exact H | reflexivity].
Qed.

Lemma wf_keyLine : forall k v,
  isWellFormed k = true -> isWellFormed v = true ->
  isWellFormed (keyLine k (Some v)) = true.
Proof.
  intros k v Hk Hv. unfold keyLine. apply wf_app; [exact Hk|].
  apply wf_cons; [exact notSurrogate_EQUALS | apply wf_formatValue, Hv].
Qed.

Lemma wf_linesOf : forall file,
  decodedText file ->
  Forall (fun l => isWellFormed l = true) (linesOf file).
Proof.
  intros [content|] D; [apply wf_split; exact D | constructor].
Qed.

(** What the writer writes is read back as it was written. *)
Lemma written_wellFormed : forall file newVars,
  decodedText file -> wellFormedEntries newVars ->
  isWellFormed (finalContent (ws_lines (writeState file newVars))) = true.
Proof.
  intros file newVars D W. apply wf_finalContent.
  destruct (writeState_any file newVars) as (Shape & _). rewrite Shape.
  assert (L := wf_linesOf file D).
  assert (E : forall kv, In kv newVars ->
                         isWellFormed (keyLine (fst kv) (Some (snd kv)))
                         = true).
  { intros kv Hkv. unfold wellFormedEntries in W.
    destruct (proj1 (Forall_forall _ _) W kv Hkv) as [Hk Hv].
    apply wf_keyLine; assumption. }
  apply Forall_app. split.
  - apply Forall_forall. intros x Hx. apply in_map_iff in Hx.
    destruct Hx as (l & <- & Hl). unfold spec_replaceLine.
    destruct (lineKey l) as [k|]; [|from_forall L Hl].
    destruct (Map_get newVars k) as [v|] eqn:G; [|from_forall L Hl].
    apply Map_get_In_rev in G. exact (E (k, v) G).
  - destruct (spec_absent newVars (linesOf file)) as [|a r] eqn:A;
      [constructor|].
    apply Forall_app. split.
    + unfold blankBefore. destruct (rev _) as [|x xs]; [constructor|].
      destruct (negb (isEmpty x)); repeat constructor.
    + rewrite <- A. apply Forall_forall. intros x Hx.
      apply in_map_iff in Hx. destruct Hx as (kv & <- & Hkv).
      apply E. unfold spec_absent in Hkv. apply filter_In in Hkv.
      exact (proj1 Hkv).
Qed.

Lemma written_decoded : forall fs path newVars existing,
  decodedText (fs path) -> wellFormedEntries newVars ->
  decodedText (fst (writeEnvFile fs path newVars existing) path).
Proof.
  intros fs path newVars existing D W. rewrite writeEnvFile_written.
  simpl. apply written_wellFormed; assumption.
Qed.

(** Text without lone surrogates passes the encoding unchanged. *)
Lemma toWellFormed_fixed : forall s,
  isWellFormed s = true -> toWellFormed s = s.
Proof.
  assert (G : forall n s, (length s <= n)%nat ->
                          isWellFormed s = true -> toWellFormed s = s).
  { induction n as [|n IH]; intros s L H.
    - destruct s; [reflexivity | simpl in L; lia].
    - destruct s as [|c r]; [reflexivity|].
      unfold isWellFormed in H. simpl in H, L.
      apply andb_true_iff in H. destruct H as [Lo H].
      apply negb_true_iff in Lo. simpl. rewrite Lo.
      destruct (isHighSurrogate c).
      + destruct r as [|d r']; [discriminate H|]. simpl in H, L.
        apply andb_true_iff in H. destruct H as [Ld H]. rewrite Ld.
        rewrite (IH r'); [reflexivity | lia | exact H].
      + rewrite (IH r); [reflexivity | lia | exact H]. }
  intros s. apply (G (length s)). apply le_n.
Qed.

Lemma decoded_read_back : forall file,
  decodedText file -> option_map toWellFormed file = file.
Proof.
  intros [content|] D; [|reflexivity]. simpl.
  rewrite (toWellFormed_fixed content D). reflexivity.
Qed.

Lemma reread_decoded : forall fs p,
  decodedText (fs p) -> reread fs p = fs p.
Proof. intros fs p D. unfold reread. apply decoded_read_back, D. Qed.

Lemma parseExistingEnv_ext : forall fs1 fs2 path,
  fs1 path = fs2 path -> parseExistingEnv fs1 path = parseExistingEnv fs2 path.
Proof.
  intros fs1 fs2 path E. unfold parseExistingEnv, existsSync. rewrite E.
  reflexivity.
Qed.

(** After a write of text without lone surrogates, what is parsed from the
    file as read back is what is parsed from the text written. *)
Lemma parse_reread : forall fs path newVars existing,
  decodedText (fs path) -> wellFormedEntries newVars ->
  parseExistingEnv (reread (fst (writeEnvFile fs path newVars existing))) path
  = parseExistingEnv (fst (writeEnvFile fs path newVars existing)) path.
Proof.
  intros fs path newVars existing D W. apply parseExistingEnv_ext.
  apply reread_decoded, written_decoded; assumption.
Qed.






(** X5.  Reading back what was written: after [writeEnvFile] of entries
    with distinct keys as a line is read (trimmed, without equals sign and
    newline, not starting with a hash), keys and values without lone
    surrogates, the parser gives for every written key, from the file as
    it is read back through the encoding, its value in the escaped form
    when the value was quoted, so exactly the value when it holds no
    backslash, no double quote and no newline; this holds for a new file
    and for a file that had the key on one or on several lines. *)
Theorem X5_parse_after_write_returns_written_value :
  forall (fs : FS) (path : jsstring) (newVars existing : Map jsstring)
         (k v : jsstring),
    decodedText (fs path) -> wellFormedEntries newVars ->
    Forall fileKey (Map_keys newVars) -> Map_wf newVars ->
    Map_get newVars k = Some v ->
    let fs' := reread (fst (writeEnvFile fs path newVars existing)) in
    Map_get (parseExistingEnv fs' path) k = Some (readBack v)
    /\ (plainValue v -> Map_get (parseExistingEnv fs' path) k = Some v)
    /\ fs' path = fst (writeEnvFile fs path newVars existing) path.
Proof.
  intros fs path newVars existing k v D W FK Wf G fs'. subst fs'.
  rewrite parse_reread by assumption.
  rewrite (read_back_key fs path newVars existing k v FK Wf G).
  split; [reflexivity|]. split.
  - intros P. rewrite (readBack_plain v P). reflexivity.
  - apply reread_decoded, written_decoded; assumption.
Qed.

(** X6.  Writing leaves every other key alone: when the written entries
    have keys as a line is read (trimmed, without equals sign and newline,
    not starting with a hash) and hold no lone surrogate, a key that is not
    among them has, in the file as it is read back, the parsed value it had
    before (none, if it had none). *)
Theorem X6_write_keeps_values_of_other_keys :
  forall (fs : FS) (path : jsstring) (newVars existing : Map jsstring)
         (k : jsstring),
    decodedText (fs path) -> wellFormedEntries newVars ->
    Forall fileKey (Map_keys newVars) ->
    Map_has newVars k = false ->
    Map_get
      (parseExistingEnv (reread (fst (writeEnvFile fs path newVars existing)))
         path) k
    = Map_get (parseExistingEnv fs path) k.
Proof.
  intros fs path newVars existing k D W FK H.
  rewrite parse_reread by assumption.
  exact (read_back_other fs path newVars existing k FK H).
Qed.

Lemma writeEnvFile_ext : forall fs1 fs2 path newVars existing q,
  fs1 path = fs2 path -> fs1 q = fs2 q ->
  fst (writeEnvFile fs1 path newVars existing) q
  = fst (writeEnvFile fs2 path newVars existing) q.
Proof.
  intros fs1 fs2 path newVars existing q Ep Eq.
  destruct (streq q path) eqn:E.
  - apply streq_eq in E. subst q. rewrite !writeEnvFile_written, Ep.
    reflexivity.
  - apply streq_neq in E. rewrite !writeEnvFile_frame by exact E. exact Eq.
Qed.

(** X7.  Writing the same entries a second time changes nothing, for
    entries with distinct keys as a line is read (trimmed, without equals
    sign and newline, not starting with a hash) and without lone
    surrogates: the files as read back after the second call are the files
    as read back after the first. *)
Theorem X7_write_twice_is_write_once :
  forall (fs : FS) (path : jsstring)
         (newVars existing existing' : Map jsstring),
    decodedFS fs -> wellFormedEntries newVars ->
    Forall fileKey (Map_keys newVars) -> Map_wf newVars ->
    let fs1 := reread (fst (writeEnvFile fs path newVars existing)) in
    let fs2 := reread (fst (writeEnvFile fs1 path newVars existing')) in
    forall q, fs2 q = fs1 q.
Proof.
  intros fs path newVars existing existing' D W FK Wf fs1 fs2 q.
  set (w1 := fst (writeEnvFile fs path newVars existing)).
  assert (D1 : decodedFS w1).
  { intros p. subst w1. destruct (streq p path) eqn:E.
    - apply streq_eq in E. subst p. apply written_decoded; [apply D | exact W].
    - apply streq_neq in E. rewrite writeEnvFile_frame by exact E. apply D. }
  assert (R1 : forall p, fs1 p = w1 p)
    by (intros p; apply reread_decoded, D1).
  set (w2 := fst (writeEnvFile w1 path newVars existing')).
  assert (E2 : forall p,
            fst (writeEnvFile fs1 path newVars existing') p = w2 p)
    by (intros p; apply writeEnvFile_ext; apply R1).
  assert (Same : forall p, w2 p = w1 p).
  { intros p. subst w2. destruct (streq p path) eqn:E.
    - apply streq_eq in E. subst p.
      rewrite writeEnvFile_written.
      assert (W1 : w1 path
                   = Some (finalContent
                             (ws_lines (writeState (fs path) newVars))))
        by apply writeEnvFile_written.
      rewrite W1, write_again_state by assumption.
      rewrite finalContent_again; [reflexivity|].
      apply writeState_noNewline_any. apply (fileKey_split _ FK).
    - apply streq_neq in E. apply writeEnvFile_frame. exact E. }
  subst fs2. unfold reread at 1. rewrite E2, Same, R1.
  apply decoded_read_back, D1.
Qed.

Lemma onSetValue_decoded : forall path st key value,
  decodedText (st_disk st path) ->
  isWellFormed key = true -> isWellFormed value = true ->
  decodedText (st_disk (onSetValue path st key value) path).
Proof.
  intros path st key value D Hk Hv. rewrite onSetValue_disk.
  apply written_decoded; [exact D|].
  constructor; [split; assumption | constructor].
Qed.

(** X8.  The interactive session keeps its in-memory configuration equal,
    key by key, to what parsing the file again would give: starting from
    the parsed file, after any sequence of saved values (keys as a line is
    read: trimmed, without equals sign and newline, not starting with a
    hash; values without backslash, double quote and newline; no lone
    surrogate in either) every lookup in memory equals the lookup in the
    file as it is read back, the file is read back as it was written, and
    the saved count is the number of saves. *)
Theorem X8_session_memory_matches_file :
  forall (fs : FS) (path : jsstring) (confirmed : list (jsstring * jsstring)),
    decodedText (fs path) ->
    Forall (fun kv => fileKey (fst kv) /\ plainValue (snd kv)) confirmed ->
    wellFormedEntries confirmed ->
    let st := saveAll path (startState fs path) confirmed in
    (forall k,
       Map_get (st_existingEnv st) k
       = Map_get (parseExistingEnv (reread (st_disk st)) path) k)
    /\ reread (st_disk st) path = st_disk st path
    /\ st_savedCount st = length confirmed.
Proof.
  intros fs path confirmed D F W. cbv zeta. unfold saveAll.
  assert (G : forall st,
            (forall k, agreeOn st path k) ->
            decodedText (st_disk st path) ->
            let st' :=
              fold_left (fun st kv => onSetValue path st (fst kv) (snd kv))
                confirmed st in
            (forall k, agreeOn st' path k)
            /\ decodedText (st_disk st' path)
            /\ st_savedCount st' = (st_savedCount st + length confirmed)%nat).
  { induction confirmed as [|[key value] rest IH]; intros st A Dst.
    - simpl. split; [exact A|]. split; [exact Dst | lia].
    - inversion F as [|? ? [FK P] Fr]; subst.
      inversion W as [|? ? [Hk Hv] Wr]; subst.
      simpl in FK, P, Hk, Hv. simpl.
      destruct (IH Fr Wr (onSetValue path st key value)) as (A' & D' & C').
      + intros k. apply onSetValue_agree; [exact FK | exact P|].
        intros _. apply A.
      + apply onSetValue_decoded; assumption.
      + split; [exact A'|]. split; [exact D'|].
        rewrite C', onSetValue_count. lia. }
  destruct (G (startState fs path)) as (A & D' & C);
    [intros k; reflexivity | exact D|].
  cbv zeta in A, D', C.
  assert (R := reread_decoded _ _ D').
  split.
  - intros k. rewrite (parseExistingEnv_ext _ _ _ R). apply A.
  - split; [exact R | exact C].
Qed.

Lemma sync_decoded : forall fs examplePath keys,
  decodedText (fs examplePath) ->
  Forall (fun k => isWellFormed k = true) keys ->
  decodedText (fst (syncToEnvExample fs examplePath keys) examplePath).
Proof.
  intros fs examplePath keys D W. rewrite syncToEnvExample_eq.
  destruct (keysToAdd (fs examplePath) keys) as [|a r] eqn:A; [exact D|].
  cbn [fst]. unfold writeFileSync. rewrite streq_refl. rewrite <- A.
  cbn [decodedText]. apply wf_finalContent.
  assert (L : Forall (fun l => isWellFormed l = true)
                     (exampleLines (fs examplePath))).
  { destruct (fs examplePath) as [content|];
      [apply wf_split; exact D | repeat constructor]. }
  apply Forall_app. split; [apply Forall_app; split; [exact L|]|].
  - unfold blankBeforeKeys. destruct (rev _) as [|x xs]; [constructor|].
    destruct (negb (isEmpty (trim x))); repeat constructor.
  - apply Forall_forall. intros x Hx. apply in_map_iff in Hx.
    destruct Hx as (k & <- & Hk). apply filter_In in Hk.
    apply wf_app; [|reflexivity]. from_forall W (proj1 Hk).
Qed.

(** X11.  Running [syncToEnvExample] again with the same keys adds
    nothing, for keys that are not empty, are as a line is read (trimmed,
    without equals sign and newline, not starting with a hash) and hold no
    lone surrogate: on the files as read back after the first call, the
    second call returns zero and leaves every file as it is. *)
Theorem X11_sync_twice_adds_nothing :
  forall (fs : FS) (examplePath : jsstring) (keys : list jsstring),
    decodedText (fs examplePath) ->
    Forall (fun k => isWellFormed k = true) keys ->
    Forall fileKey keys -> Forall (fun k => k <> []) keys ->
    let fs1 := reread (fst (syncToEnvExample fs examplePath keys)) in
    syncToEnvExample fs1 examplePath keys = (fs1, O).
Proof.
  intros fs examplePath keys D W FK NE fs1.
  rewrite (syncToEnvExample_eq fs1).
  assert (R : fs1 examplePath
              = fst (syncToEnvExample fs examplePath keys) examplePath)
    by (apply reread_decoded, sync_decoded; assumption).
  assert (None' : keysToAdd (fs1 examplePath) keys = []).
  { apply filter_none. intros k Hk.
    assert (N : k <> []) by from_forall NE Hk.
    destruct (sync_declares fs examplePath keys k FK Hk N)
      as (content & Wr & O).
    rewrite R, Wr. simpl exampleKeys.
    assert (S : Set_has (fold_left existingKeyStep (split_nl content) []) k
                = true).
    { apply Set_has_In, existingKeys_spec. right. split; assumption. }
    rewrite S. reflexivity. }
  rewrite None'. reflexivity.
Qed.

(* ================================================================== *)
(** ** Pasted text without lone surrogates *)

Lemma indexOf_split : forall c s i,
  indexOf c s = Some i -> s = firstn i s ++ c :: skipn (S i) s.
Proof.
  intros c. induction s as [|x s IH]; intros i H; [discriminate|].
  simpl in H. destruct (x =? c) eqn:E.
  - injection H as <-. apply N.eqb_eq in E. subst x. reflexivity.
  - destruct (indexOf c s) as [j|]; [|discriminate]. injection H as <-.
    simpl. f_equal. exact (IH j eq_refl).
Qed.

Lemma indexOfStr_split : forall p s i,
  indexOfStr p s = Some i -> exists b, s = firstn i s ++ p ++ b.
Proof.
  intros p. induction s as [|x s IH]; intros i H;
    rewrite indexOfStr_eq in H.
  - destruct (hasPrefix p []) eqn:P; [|discriminate]. injection H as <-.
    apply hasPrefix_decomp in P. exact P.
  - destruct (hasPrefix p (x :: s)) eqn:P.
    + injection H as <-. apply hasPrefix_decomp in P. exact P.
    + destruct (indexOfStr p s) as [j|]; [|discriminate]. injection H as <-.
      destruct (IH j eq_refl) as (b & E). exists b. simpl. f_equal. exact E.
Qed.

Lemma wf_slice : forall s a b,
  startsWith a s = true -> endsWith b s = true ->
  notSurrogate a -> notSurrogate b ->
  isWellFormed s = true -> isWellFormed (slice_1_m1 s) = true.
Proof.
  intros s a b Sa Eb Pa Pb H. destruct s as [|x r]; [discriminate Sa|].
  simpl in Sa. apply N.eqb_eq in Sa. subst x.
  unfold slice_1_m1. simpl skipn.
  induction r as [|y r _] using rev_ind; [reflexivity|].
  unfold endsWith in Eb. simpl rev in Eb. rewrite rev_app_distr in Eb.
  simpl in Eb. apply N.eqb_eq in Eb. subst y.
  replace (length (a :: r ++ [b]) - 2)%nat with (length r + 0)%nat
    by (simpl; rewrite length_app; simpl; lia).
  rewrite firstn_app_2. simpl. rewrite app_nil_r.
  unfold isWellFormed in *. rewrite wff_plain_cons in H by exact Pa.
  apply (wff_drop_suffix r false [b]); [|exact H].
  constructor; [exact Pb | constructor].
Qed.

Lemma Map_set_entries : forall (P : jsstring * jsstring -> Prop)
    (m : Map jsstring) k v,
  Forall P m -> P (k, v) -> Forall P (Map_set m k v).
Proof.
  intros P. induction m as [|[k0 v0] m IH]; intros k v F H; simpl.
  - constructor; [exact H | constructor].
  - inversion F; subst. destruct (streq k0 k) eqn:E.
    + apply streq_eq in E. subst k0. constructor; assumption.
    + constructor; [assumption | apply IH; assumption].
Qed.

Lemma bulkLine_wellFormed : forall result line,
  isWellFormed line = true -> wellFormedEntries result ->
  wellFormedEntries (bulkLine result line).
Proof.
  intros result line H F. unfold bulkLine.
  assert (T := wf_trim line H).
  destruct (isEmpty (trim line) || startsWith HASH (trim line)
            || hasPrefix [SLASH; SLASH] (trim line)); [exact F|].
  destruct (indexOf EQUALS (trim line)) as [i|] eqn:I; [|exact F].
  apply indexOf_split in I. rewrite I in T.
  apply wf_cut in T; [|exact notSurrogate_EQUALS]. destruct T as [Tk Tv].
  set (key := trim (substringTo i (trim line))).
  destruct (isEmpty key || negb (isIdentifier key)); [exact F|].
  apply Map_set_entries; [exact F|]. cbn [fst snd]. split.
  - subst key. apply wf_trim. exact Tk.
  - replace (i + 1)%nat with (S i) by lia.
    set (value := trim (substringFrom (S i) (trim line))).
    assert (V : isWellFormed value = true)
      by (subst value; apply wf_trim; exact Tv).
    clearbody value.
    set (unquoted :=
           if (startsWith DQUOTE value && endsWith DQUOTE value)
              || (startsWith SQUOTE value && endsWith SQUOTE value)
           then slice_1_m1 value else value).
    assert (U : isWellFormed unquoted = true).
    { subst unquoted.
      destruct (startsWith DQUOTE value && endsWith DQUOTE value) eqn:Q1.
      - apply andb_true_iff in Q1. destruct Q1 as [S1 E1]. simpl.
        apply (wf_slice value DQUOTE DQUOTE); try assumption;
          split; reflexivity.
      - destruct (startsWith SQUOTE value && endsWith SQUOTE value) eqn:Q2;
          [|exact V].
        apply andb_true_iff in Q2. destruct Q2 as [S2 E2]. simpl.
        apply (wf_slice value SQUOTE SQUOTE); try assumption;
          split; reflexivity. }
    clearbody unquoted.
    destruct (indexOfStr [SPACE; HASH] unquoted) as [j|] eqn:J; [|exact U].
    apply wf_trim. apply indexOfStr_split in J. destruct J as (b & J).
    rewrite J in U. simpl app in U.
    apply wf_cut in U; [|split; reflexivity]. exact (proj1 U).
Qed.

Lemma split_lines_wellFormed : forall raw,
  isWellFormed raw = true ->
  Forall (fun l => isWellFormed l = true) (split_lines raw).
Proof.
  intros raw H. assert (S := split_lines_split_nl raw).
  assert (L := wf_split raw H). revert L.
  induction S as [|a b la lb Hab _ IH]; intros L; [constructor|].
  inversion L as [|? ? Ha La]; subst. constructor; [|exact (IH La)].
  destruct Hab as [->| ->]; [exact Ha|].
  apply (wff_drop_suffix b false [CR]); [|exact Ha].
  constructor; [split; reflexivity | constructor].
Qed.

Lemma parseBulkInput_wellFormed : forall raw,
  isWellFormed raw = true -> wellFormedEntries (parseBulkInput raw).
Proof.
  intros raw H. unfold parseBulkInput.
  apply (fold_left_invariant _ _ wellFormedEntries); [|constructor].
  intros acc line Hl Hacc. apply bulkLine_wellFormed; [|exact Hacc].
  from_forall (split_lines_wellFormed raw H) Hl.
Qed.

(** X15.  Bulk mode end to end: the pasted text parses to a map whose
    keys are identifiers, each once; writing that map returns its size;
    and when the pasted text and the file hold no lone surrogate, parsing
    the file as it is read back gives, for every pasted key, the pasted
    value (in its escaped form when it had to be quoted), on a new file
    and on one that had some of the keys. *)
Theorem X15_bulk_paste_is_written_and_read_back :
  forall (raw : jsstring) (fs : FS) (path : jsstring)
         (existing : Map jsstring),
    isWellFormed raw = true -> decodedText (fs path) ->
    let bulkVars := parseBulkInput raw in
    let result := writeEnvFile fs path bulkVars existing in
    Map_wf bulkVars
    /\ (forall k, In k (Map_keys bulkVars) -> isIdentifier k = true)
    /\ snd result = Map_size bulkVars
    /\ (forall k v,
          Map_get bulkVars k = Some v ->
          Map_get (parseExistingEnv (reread (fst result)) path) k
          = Some (readBack v))
    /\ reread (fst result) path = fst result path.
Proof.
  intros raw fs path existing H D bulkVars result. subst bulkVars result.
  destruct (parseBulkInput_invariant raw) as [W F].
  assert (WF := parseBulkInput_wellFormed raw H).
  split; [exact W|]. split; [intros k Hk; from_forall F Hk|]. split.
  - unfold writeEnvFile. simpl snd. rewrite writeState_append.
    unfold Set_size, Map_size.
    destruct (writeState_any (fs path) (parseBulkInput raw))
      as (_ & _ & ND & Keys).
    apply updated_appended_count; [exact W | exact ND|].
    intros k Hk. apply Keys in Hk. apply Map_has_In. tauto.
  - split.
    + intros k v G. rewrite parse_reread by assumption.
      apply read_back_key;
        [apply parseBulkInput_fileKeys | exact W | exact G].
    + apply reread_decoded, written_decoded; assumption.
Qed.

(* ================================================================== *)
(** ** The restated properties at sample inputs *)

Lemma decoded_abc : decodedFS (fsWith abcContent).
Proof.
  intros p. unfold fsWith. destruct (streq p envPath); [reflexivity|].
  exact I.
Defined.

Lemma wellFormed_updateB_addD : wellFormedEntries updateB_addD.
Proof. repeat constructor. Defined.

Lemma wellFormed_confirmedBD : wellFormedEntries confirmedBD.
Proof. repeat constructor. Defined.

Lemma wellFormed_BD : Forall (fun k => isWellFormed k = true) keysBD.
Proof. repeat constructor. Defined.

(** X5 at the update of B with the new key D: the value with a space is
    read back as it was given. *)
Lemma X5_witness :
  decodedText (fsWith abcContent envPath)
  /\ wellFormedEntries updateB_addD
  /\ Forall fileKey (Map_keys updateB_addD)
  /\ Map_wf updateB_addD
  /\ Map_get updateB_addD (str "B") = Some (str "x y")
  /\ Map_get
       (parseExistingEnv
          (reread
             (fst (writeEnvFile (fsWith abcContent) envPath updateB_addD [])))
          envPath) (str "B")
     = Some (str "x y").
Proof.
  split; [exact (decoded_abc envPath)|].
  split; [exact wellFormed_updateB_addD|].
  split; [exact fileKeys_updateB_addD|]. split; [exact wf_updateB_addD|].
  split; [reflexivity|].
  exact (proj1 (X5_parse_after_write_returns_written_value
                  (fsWith abcContent) envPath updateB_addD [] (str "B")
                  (str "x y") (decoded_abc envPath) wellFormed_updateB_addD
                  fileKeys_updateB_addD wf_updateB_addD eq_refl)).
Defined.

(** X6 at the same write: A, which is not written, keeps its value. *)
Lemma X6_witness :
  decodedText (fsWith abcContent envPath)
  /\ wellFormedEntries updateB_addD
  /\ Forall fileKey (Map_keys updateB_addD)
  /\ Map_has updateB_addD (str "A") = false
  /\ Map_get
       (parseExistingEnv
          (reread
             (fst (writeEnvFile (fsWith abcContent) envPath updateB_addD [])))
          envPath) (str "A")
     = Some (str "1").
Proof.
  split; [exact (decoded_abc envPath)|].
  split; [exact wellFormed_updateB_addD|].
  split; [exact fileKeys_updateB_addD|]. split; [reflexivity|].
  exact (X6_write_keeps_values_of_other_keys
           (fsWith abcContent) envPath updateB_addD [] (str "A")
           (decoded_abc envPath) wellFormed_updateB_addD
           fileKeys_updateB_addD eq_refl).
Defined.

(** X7 at the same write, done twice. *)
Lemma X7_witness :
  decodedFS (fsWith abcContent)
  /\ wellFormedEntries updateB_addD
  /\ Forall fileKey (Map_keys updateB_addD)
  /\ Map_wf updateB_addD
  /\ reread
       (fst (writeEnvFile
               (reread
                  (fst (writeEnvFile (fsWith abcContent) envPath
                          updateB_addD [])))
               envPath updateB_addD updateB_addD)) envPath
     = reread
         (fst (writeEnvFile (fsWith abcContent) envPath updateB_addD []))
         envPath.
Proof.
  split; [exact decoded_abc|]. split; [exact wellFormed_updateB_addD|].
  split; [exact fileKeys_updateB_addD|]. split; [exact wf_updateB_addD|].
  exact (X7_write_twice_is_write_once
           (fsWith abcContent) envPath updateB_addD [] updateB_addD
           decoded_abc wellFormed_updateB_addD fileKeys_updateB_addD
           wf_updateB_addD envPath).
Defined.

(** X8 at a session that confirms B and D: two saved, and memory and file
    agree on D. *)
Lemma X8_witness :
  decodedText (fsWith abcContent envPath)
  /\ Forall (fun kv => fileKey (fst kv) /\ plainValue (snd kv)) confirmedBD
  /\ wellFormedEntries confirmedBD
  /\ st_savedCount
       (saveAll envPath (startState (fsWith abcContent) envPath) confirmedBD)
     = 2%nat
  /\ Map_get
       (st_existingEnv
          (saveAll envPath (startState (fsWith abcContent) envPath)
             confirmedBD)) (str "D")
     = Map_get
         (parseExistingEnv
            (reread
               (st_disk
                  (saveAll envPath (startState (fsWith abcContent) envPath)
                     confirmedBD))) envPath) (str "D").
Proof.
  split; [exact (decoded_abc envPath)|]. split; [exact confirmedBD_ok|].
  split; [exact wellFormed_confirmedBD|].
  destruct (X8_session_memory_matches_file
              (fsWith abcContent) envPath confirmedBD (decoded_abc envPath)
              confirmedBD_ok wellFormed_confirmedBD)
    as (Agree & _ & Count).
  split; [exact Count | exact (Agree (str "D"))].
Defined.

(** X11 at the keys B and D on a project without an example file: the
    second sync adds nothing. *)
Lemma X11_witness :
  decodedText (fsEmpty examplePath)
  /\ Forall (fun k => isWellFormed k = true) keysBD
  /\ Forall fileKey keysBD
  /\ Forall (fun k : jsstring => k <> []) keysBD
  /\ snd (syncToEnvExample
            (reread (fst (syncToEnvExample fsEmpty examplePath keysBD)))
            examplePath keysBD) = 0%nat.
Proof.
  split; [exact I|]. split; [exact wellFormed_BD|].
  split; [exact fileKeys_BD|]. split; [exact nonEmpty_BD|].
  rewrite (X11_sync_twice_adds_nothing
             fsEmpty examplePath keysBD I wellFormed_BD fileKeys_BD
             nonEmpty_BD).
  reflexivity.
Defined.

(** X15 at a paste of two lines: the value with a space is read back from
    the file. *)
Lemma X15_witness :
  isWellFormed twoLinePaste = true
  /\ decodedText (fsEmpty envPath)
  /\ Map_get (parseBulkInput twoLinePaste) (str "B") = Some (str "x y")
  /\ Map_get
       (parseExistingEnv
          (reread
             (fst (writeEnvFile fsEmpty envPath (parseBulkInput twoLinePaste)
                     []))) envPath) (str "B")
     = Some (str "x y").
Proof.
  split; [reflexivity|]. split; [exact I|]. split; [reflexivity|].
  destruct (X15_bulk_paste_is_written_and_read_back
              twoLinePaste fsEmpty envPath [] eq_refl I)
    as (_ & _ & _ & Back & _).
  exact (Back (str "B") (str "x y") eq_refl).
Defined.
